(** * wasmparser: the binary emitter and the text disassembler

    A shallow embedding of [src/WasmEmitter.ts] and [src/WasmDis.ts].
    JavaScript numbers that hold integers are [Z]; the 32-bit coercions that
    the bit operators apply are written out.  Arrays are lists.  A method that
    mutates [this] and may throw is a function from the instance to an
    outcome that carries the instance as the method left it. *)

From Stdlib Require Import ZArith Lia String Ascii DecimalString HexadecimalString.
From stdpp Require Import base list.

Open Scope Z_scope.

(** ** JavaScript integer arithmetic *)

Module JS.

Definition ToUint32 (n : Z) : Z := n mod 2 ^ 32.

Definition ToInt32 (n : Z) : Z :=
  let u := n mod 2 ^ 32 in if u <? 2 ^ 31 then u else u - 2 ^ 32.

(** [a & b], [a | b], [~a] *)
Definition band (a b : Z) : Z := ToInt32 (Z.land (ToInt32 a) (ToInt32 b)).
Definition bor (a b : Z) : Z := ToInt32 (Z.lor (ToInt32 a) (ToInt32 b)).
Definition bnot (a : Z) : Z := ToInt32 (Z.lnot (ToInt32 a)).

(** [a << b], [a >> b], [a >>> b]: the shift count is taken modulo 32 *)
Definition shl (a b : Z) : Z := ToInt32 (Z.shiftl (ToInt32 a) (ToUint32 b mod 32)).
Definition sar (a b : Z) : Z := Z.shiftr (ToInt32 a) (ToUint32 b mod 32).
Definition shr (a b : Z) : Z := Z.shiftr (ToUint32 a) (ToUint32 b mod 32).

(** A property that is [undefined] coerces to [0] under [|], [&] and when
    an array of numbers is copied into a [Uint8Array]. *)
Definition num (o : option Z) : Z := default 0 o.

(** [arr[i]] *)
Definition item {A} (arr : list A) (i : Z) : option A :=
  if i <? 0 then None else arr !! Z.to_nat i.

(** [arr.length] *)
Definition len {A} (arr : list A) : Z := Z.of_nat (length arr).

(** [n.toString()] and [`${n}`] for an integer [n] *)
Definition toString (n : Z) : string :=
  DecimalString.NilZero.string_of_int (Z.to_int n).

(** [n.toString(16)] for an integer [n] *)
Definition toString16 (n : Z) : string :=
  HexadecimalString.NilZero.string_of_int (Z.to_hex_int n).

(** [String.fromCharCode(c)] for a code below 256 *)
Definition fromCharCode (c : Z) : string :=
  String (ascii_of_nat (Z.to_nat c)) EmptyString.

(** [arr.join('')] *)
Definition join (arr : list string) : string := String.concat EmptyString arr.

(** [s.slice(0, -k)] *)
Definition slice_to_minus (s : string) (k : nat) : string :=
  String.substring 0 (String.length s - k) s.

(** [x | 0] for a number [x] that holds a float, given by the bits of its
    IEEE-754 encoding with [ebits] exponent and [mbits] fraction bits:
    the value is truncated towards zero and wrapped; NaN and the
    infinities give 0. *)
Definition float_ToInt32 (ebits mbits bits : Z) : Z :=
  let sign := Z.testbit bits (ebits + mbits) in
  let e := Z.land (Z.shiftr bits mbits) (Z.ones ebits) in
  let m := Z.land bits (Z.ones mbits) in
  if (e =? Z.ones ebits) || (e =? 0) then 0
  else
    let magnitude := Z.shiftl (m + 2 ^ mbits) (e - (2 ^ (ebits - 1) - 1) - mbits) in
    ToInt32 (if sign then - magnitude else magnitude).

(** [new Uint8Array(n)] *)
Definition Uint8Array_new (n : nat) : list Z := replicate n 0.

(** [new Uint8Array(arr)]: every element is reduced modulo 256 *)
Definition Uint8Array_from (arr : list Z) : list Z := map (fun b => b mod 256) arr.

End JS.

(** ** The values of [./WasmParser] that the two classes consume *)

Module WasmParser.

(** Modelled from the spec: the numeric values of [SectionCode], declared in
    WasmParser.ts, which is not part of the sources at hand (section 3 of
    the specification lists them). *)
Module SectionCode.
Definition Custom : Z := 0.
Definition Type_ : Z := 1.
Definition Import_ : Z := 2.
Definition Function : Z := 3.
Definition Table : Z := 4.
Definition Memory : Z := 5.
Definition Global : Z := 6.
Definition Export_ : Z := 7.
Definition Start : Z := 8.
Definition Element : Z := 9.
Definition Code : Z := 10.
Definition Data : Z := 11.
End SectionCode.

(** Modelled from the spec: the numeric values of [ExternalKind], declared
    in WasmParser.ts; the values are those of the binary format. *)
Module ExternalKind.
Definition Function : Z := 0.
Definition Table : Z := 1.
Definition Memory : Z := 2.
Definition Global : Z := 3.
End ExternalKind.

(** Modelled from the spec: the value-type tags of [Type], declared in
    WasmParser.ts (the specification gives [form = -0x20] and the
    parameter tag [-0x01] for [i32] in its identity-function scenario). *)
Module Type_.
Definition i32 : Z := -1.
Definition i64 : Z := -2.
Definition f32 : Z := -3.
Definition f64 : Z := -4.
Definition anyfunc : Z := -16.
Definition func : Z := -32.
Definition empty_block_type : Z := -64.
End Type_.

(** Modelled from the spec: the opcode bytes of [OperatorCode], declared in
    WasmParser.ts; the values are those of the binary format (the
    specification gives [0x0E] for [br_table], [0x41] for [i32.const] and
    [0x0B] for [end]). *)
Module OperatorCode.
Definition unreachable : Z := 0x00.
Definition nop : Z := 0x01.
Definition block : Z := 0x02.
Definition loop : Z := 0x03.
Definition if_ : Z := 0x04.
Definition else_ : Z := 0x05.
Definition end_ : Z := 0x0b.
Definition br : Z := 0x0c.
Definition br_if : Z := 0x0d.
Definition br_table : Z := 0x0e.
Definition call : Z := 0x10.
Definition call_indirect : Z := 0x11.
Definition get_local : Z := 0x20.
Definition set_local : Z := 0x21.
Definition tee_local : Z := 0x22.
Definition get_global : Z := 0x23.
Definition set_global : Z := 0x24.
Definition i32_load : Z := 0x28.
Definition i64_load : Z := 0x29.
Definition f32_load : Z := 0x2a.
Definition f64_load : Z := 0x2b.
Definition i32_load8_s : Z := 0x2c.
Definition i32_load8_u : Z := 0x2d.
Definition i32_load16_s : Z := 0x2e.
Definition i32_load16_u : Z := 0x2f.
Definition i64_load8_s : Z := 0x30.
Definition i64_load8_u : Z := 0x31.
Definition i64_load16_s : Z := 0x32.
Definition i64_load16_u : Z := 0x33.
Definition i64_load32_s : Z := 0x34.
Definition i64_load32_u : Z := 0x35.
Definition i32_store : Z := 0x36.
Definition i64_store : Z := 0x37.
Definition f32_store : Z := 0x38.
Definition f64_store : Z := 0x39.
Definition i32_store8 : Z := 0x3a.
Definition i32_store16 : Z := 0x3b.
Definition i64_store8 : Z := 0x3c.
Definition i64_store16 : Z := 0x3d.
Definition i64_store32 : Z := 0x3e.
Definition current_memory : Z := 0x3f.
Definition grow_memory : Z := 0x40.
Definition i32_const : Z := 0x41.
Definition i64_const : Z := 0x42.
Definition f32_const : Z := 0x43.
Definition f64_const : Z := 0x44.
End OperatorCode.

(** [case c1: case c2: ...] of a [switch] over numbers *)
Fixpoint case_of (x : Z) (labels : list Z) : bool :=
  match labels with
  | [] => false
  | c :: rest => (x =? c) || case_of x rest
  end.

Record IModuleHeader := { magicNumber : Z; version : Z }.

Record ISectionInformation := { id : Z; name : list Z }.

Record IFunctionType := { form : Z; params : list Z; returns : list Z }.

Record IResizableLimits := { initial : Z; maximum : option Z }.

Record ITableType := { elementType : Z; table_limits : IResizableLimits }.

Record IMemoryType := { limits : IResizableLimits }.

Record IGlobalType := { contentType : Z; mutability : Z }.

(** [ITableType | IMemoryType | IGlobalType], the type of [IImportEntry.type] *)
Inductive ImportEntryType :=
| OfTable (t : ITableType)
| OfMemory (t : IMemoryType)
| OfGlobal (t : IGlobalType).

(** Property reads on a value of the union [IImportEntry.type]: a
    property that the object does not have reads as [undefined]. *)
Definition prop_elementType (t : ImportEntryType) : option Z :=
  match t with OfTable t => Some (elementType t) | _ => None end.

Definition prop_limits (t : ImportEntryType) : option IResizableLimits :=
  match t with
  | OfTable t => Some (table_limits t)
  | OfMemory t => Some (limits t)
  | OfGlobal _ => None
  end.

Definition prop_contentType (t : ImportEntryType) : option Z :=
  match t with OfGlobal t => Some (contentType t) | _ => None end.

Definition prop_mutability (t : ImportEntryType) : option Z :=
  match t with OfGlobal t => Some (mutability t) | _ => None end.

Record IImportEntry := {
  module : list Z;
  field : list Z;
  kind : Z;
  funcTypeIndex : option Z;
  type : option ImportEntryType
}.

Record IExportEntry := { export_field : list Z; export_kind : Z; index : Z }.

Record IFunctionEntry := { typeIndex : Z }.

Record ILocals := { count : Z; local_type : Z }.

Record IFunctionInformation := { locals : list ILocals }.

Record IMemoryAddress := { flags : Z; offset : Z }.

(** [Int64]: eight bytes, least significant first *)
Record Int64 := { data : list Z }.

(** [number | Int64], the type of [IOperatorInformation.literal].  A
    number that the parser read as an integer is [LitI32]; a number read
    as a float is given by the bits of its IEEE-754 encoding in the width
    of the constant. *)
Inductive Literal :=
| LitI32 (n : Z)
| LitInt64 (n : Int64)
| LitF32 (bits : Z)
| LitF64 (bits : Z).

Record IOperatorInformation := {
  code : Z;
  blockType : option Z;
  brDepth : option Z;
  brTable : option (list Z);
  op_funcIndex : option Z;
  op_typeIndex : option Z;
  localIndex : option Z;
  globalIndex : option Z;
  memoryAddress : option IMemoryAddress;
  literal : option Literal
}.

Record IDataSegment := { segment_index : Z }.

Record IDataSegmentBody := { body_data : list Z }.

Record IGlobalVariable := { global_type : IGlobalType }.

Record IElementSegment := { element_index : Z }.

Record IElementSegmentBody := { elements : list Z }.

(** Modelled from the spec: [BinaryReaderState], declared in WasmParser.ts,
    with the tags that section 6.1 of the specification lists.  A value of
    [IBinaryReaderData] is the tag together with the [result] of the type
    that the consumers assert for that tag. *)
Inductive IBinaryReaderData :=
| ERROR
| BEGIN_WASM (header : option IModuleHeader)
| END_WASM
| BEGIN_SECTION (section : ISectionInformation)
| END_SECTION
| TYPE_SECTION_ENTRY (type : IFunctionType)
| IMPORT_SECTION_ENTRY (entry : IImportEntry)
| FUNCTION_SECTION_ENTRY (entry : IFunctionEntry)
| EXPORT_SECTION_ENTRY (entry : IExportEntry)
| BEGIN_FUNCTION_BODY (functionInfo : IFunctionInformation)
| END_FUNCTION_BODY
| MEMORY_SECTION_ENTRY (entry : IMemoryType)
| TABLE_SECTION_ENTRY (entry : ITableType)
| INIT_EXPRESSION_OPERATOR (opInfo : IOperatorInformation)
| CODE_OPERATOR (opInfo : IOperatorInformation)
| BEGIN_DATA_SECTION_ENTRY (entry : IDataSegment)
| DATA_SECTION_ENTRY_BODY (body : IDataSegmentBody)
| END_DATA_SECTION_ENTRY
| BEGIN_INIT_EXPRESSION_BODY
| END_INIT_EXPRESSION_BODY
| BEGIN_ELEMENT_SECTION_ENTRY (entry : IElementSegment)
| ELEMENT_SECTION_ENTRY_BODY (body : IElementSegmentBody)
| END_ELEMENT_SECTION_ENTRY
| BEGIN_GLOBAL_SECTION_ENTRY (entry : IGlobalVariable)
| END_GLOBAL_SECTION_ENTRY.

(** Modelled from the spec: class [BinaryReader] of WasmParser.ts, as the
    interface that section 6.1 of the specification gives it and the two
    consumers use.  [read()] advances and answers whether an event is
    available; [state] and [result] are read together as [current]. *)
Class BinaryReader (R : Type) := {
  read : R -> bool * R;
  current : R -> IBinaryReaderData;
  hasMoreBytes : R -> bool;
  skipSection : R -> R;
  error : R -> string
}.

End WasmParser.

(** ** WasmEmitter.ts *)

Module Emitter.
Import JS WasmParser.

Inductive EmitterState :=
| Initial
| Error
| Wasm
| CustomSecton
| TypeSection
| ImportSection
| FunctionSection
| TableSection
| MemorySection
| GlobalSection
| ExportSection
| StartSection
| ElementSection
| CodeSection
| DataSection
| FunctionBody
| DataSectionEntry
| DataSectionEntryBody
| DataSectionEntryEnd
| InitExpression.

Definition EmitterState_eqb (a b : EmitterState) : bool :=
  match a, b with
  | Initial, Initial | Error, Error | Wasm, Wasm | CustomSecton, CustomSecton
  | TypeSection, TypeSection | ImportSection, ImportSection
  | FunctionSection, FunctionSection | TableSection, TableSection
  | MemorySection, MemorySection | GlobalSection, GlobalSection
  | ExportSection, ExportSection | StartSection, StartSection
  | ElementSection, ElementSection | CodeSection, CodeSection
  | DataSection, DataSection | FunctionBody, FunctionBody
  | DataSectionEntry, DataSectionEntry
  | DataSectionEntryBody, DataSectionEntryBody
  | DataSectionEntryEnd, DataSectionEntryEnd
  | InitExpression, InitExpression => true
  | _, _ => false
  end.

(** The instance fields of [class Emitter]. [_data] is [null] until
    [writeEndWasm] stores the finished bytes. *)
Record Emitter := {
  _buffer : list Z;
  _state : EmitterState;
  _sectionStart : Z;
  _sectionSizeBytes : Z;
  _sectionEntiesCount : Z;
  _sectionEntiesCountBytes : Z;
  _bodyStart : Z;
  _bodySizeBytes : Z;
  _data : option (list Z);
  _endWritten : bool;
  _initExpressionAfterState : EmitterState
}.

Definition constructor : Emitter := {|
  _buffer := [];
  _state := Initial;
  _sectionStart := 0;
  _sectionSizeBytes := 0;
  _sectionEntiesCount := 0;
  _sectionEntiesCountBytes := 0;
  _bodyStart := 0;
  _bodySizeBytes := 0;
  _data := None;
  _endWritten := false;
  _initExpressionAfterState := Initial
|}.

(** Assignments to one field *)
Definition set_buffer (v : list Z) (e : Emitter) : Emitter :=
  {| _buffer := v; _state := _state e; _sectionStart := _sectionStart e;
     _sectionSizeBytes := _sectionSizeBytes e;
     _sectionEntiesCount := _sectionEntiesCount e;
     _sectionEntiesCountBytes := _sectionEntiesCountBytes e;
     _bodyStart := _bodyStart e; _bodySizeBytes := _bodySizeBytes e;
     _data := _data e; _endWritten := _endWritten e;
     _initExpressionAfterState := _initExpressionAfterState e |}.

Definition set_state (v : EmitterState) (e : Emitter) : Emitter :=
  {| _buffer := _buffer e; _state := v; _sectionStart := _sectionStart e;
     _sectionSizeBytes := _sectionSizeBytes e;
     _sectionEntiesCount := _sectionEntiesCount e;
     _sectionEntiesCountBytes := _sectionEntiesCountBytes e;
     _bodyStart := _bodyStart e; _bodySizeBytes := _bodySizeBytes e;
     _data := _data e; _endWritten := _endWritten e;
     _initExpressionAfterState := _initExpressionAfterState e |}.

Definition set_sectionStart (v : Z) (e : Emitter) : Emitter :=
  {| _buffer := _buffer e; _state := _state e; _sectionStart := v;
     _sectionSizeBytes := _sectionSizeBytes e;
     _sectionEntiesCount := _sectionEntiesCount e;
     _sectionEntiesCountBytes := _sectionEntiesCountBytes e;
     _bodyStart := _bodyStart e; _bodySizeBytes := _bodySizeBytes e;
     _data := _data e; _endWritten := _endWritten e;
     _initExpressionAfterState := _initExpressionAfterState e |}.

Definition set_sectionSizeBytes (v : Z) (e : Emitter) : Emitter :=
  {| _buffer := _buffer e; _state := _state e; _sectionStart := _sectionStart e;
     _sectionSizeBytes := v;
     _sectionEntiesCount := _sectionEntiesCount e;
     _sectionEntiesCountBytes := _sectionEntiesCountBytes e;
     _bodyStart := _bodyStart e; _bodySizeBytes := _bodySizeBytes e;
     _data := _data e; _endWritten := _endWritten e;
     _initExpressionAfterState := _initExpressionAfterState e |}.

Definition set_sectionEntiesCount (v : Z) (e : Emitter) : Emitter :=
  {| _buffer := _buffer e; _state := _state e; _sectionStart := _sectionStart e;
     _sectionSizeBytes := _sectionSizeBytes e;
     _sectionEntiesCount := v;
     _sectionEntiesCountBytes := _sectionEntiesCountBytes e;
     _bodyStart := _bodyStart e; _bodySizeBytes := _bodySizeBytes e;
     _data := _data e; _endWritten := _endWritten e;
     _initExpressionAfterState := _initExpressionAfterState e |}.

Definition set_sectionEntiesCountBytes (v : Z) (e : Emitter) : Emitter :=
  {| _buffer := _buffer e; _state := _state e; _sectionStart := _sectionStart e;
     _sectionSizeBytes := _sectionSizeBytes e;
     _sectionEntiesCount := _sectionEntiesCount e;
     _sectionEntiesCountBytes := v;
     _bodyStart := _bodyStart e; _bodySizeBytes := _bodySizeBytes e;
     _data := _data e; _endWritten := _endWritten e;
     _initExpressionAfterState := _initExpressionAfterState e |}.

Definition set_bodyStart (v : Z) (e : Emitter) : Emitter :=
  {| _buffer := _buffer e; _state := _state e; _sectionStart := _sectionStart e;
     _sectionSizeBytes := _sectionSizeBytes e;
     _sectionEntiesCount := _sectionEntiesCount e;
     _sectionEntiesCountBytes := _sectionEntiesCountBytes e;
     _bodyStart := v; _bodySizeBytes := _bodySizeBytes e;
     _data := _data e; _endWritten := _endWritten e;
     _initExpressionAfterState := _initExpressionAfterState e |}.

Definition set_bodySizeBytes (v : Z) (e : Emitter) : Emitter :=
  {| _buffer := _buffer e; _state := _state e; _sectionStart := _sectionStart e;
     _sectionSizeBytes := _sectionSizeBytes e;
     _sectionEntiesCount := _sectionEntiesCount e;
     _sectionEntiesCountBytes := _sectionEntiesCountBytes e;
     _bodyStart := _bodyStart e; _bodySizeBytes := v;
     _data := _data e; _endWritten := _endWritten e;
     _initExpressionAfterState := _initExpressionAfterState e |}.

Definition set_data (v : option (list Z)) (e : Emitter) : Emitter :=
  {| _buffer := _buffer e; _state := _state e; _sectionStart := _sectionStart e;
     _sectionSizeBytes := _sectionSizeBytes e;
     _sectionEntiesCount := _sectionEntiesCount e;
     _sectionEntiesCountBytes := _sectionEntiesCountBytes e;
     _bodyStart := _bodyStart e; _bodySizeBytes := _bodySizeBytes e;
     _data := v; _endWritten := _endWritten e;
     _initExpressionAfterState := _initExpressionAfterState e |}.

Definition set_endWritten (v : bool) (e : Emitter) : Emitter :=
  {| _buffer := _buffer e; _state := _state e; _sectionStart := _sectionStart e;
     _sectionSizeBytes := _sectionSizeBytes e;
     _sectionEntiesCount := _sectionEntiesCount e;
     _sectionEntiesCountBytes := _sectionEntiesCountBytes e;
     _bodyStart := _bodyStart e; _bodySizeBytes := _bodySizeBytes e;
     _data := _data e; _endWritten := v;
     _initExpressionAfterState := _initExpressionAfterState e |}.

Definition set_initExpressionAfterState (v : EmitterState) (e : Emitter) : Emitter :=
  {| _buffer := _buffer e; _state := _state e; _sectionStart := _sectionStart e;
     _sectionSizeBytes := _sectionSizeBytes e;
     _sectionEntiesCount := _sectionEntiesCount e;
     _sectionEntiesCountBytes := _sectionEntiesCountBytes e;
     _bodyStart := _bodyStart e; _bodySizeBytes := _bodySizeBytes e;
     _data := _data e; _endWritten := _endWritten e;
     _initExpressionAfterState := v |}.

(** What a method throws.  The [Error] messages of the source are kept as
    the data they are built from; [TypeError] is the engine's error for a
    property read of [undefined]. *)
Inductive Exception :=
| InvalidState (state : IBinaryReaderData)
| UnexpectedState (actual expected : EmitterState)
| UnexpectedStateOneOf (actual : EmitterState) (expected : list EmitterState)
| EndExpected
| UnexpectedSection (id : Z)
| InvalidImportKind (kind : Z)
| UnexpectedStateAtInitExpression
| UnexpectedSectionState (actual : EmitterState)
| TypeError.

(** The outcome of a method: it returned, or it threw; either way the
    instance is left as the method had changed it by then. *)
Inductive Outcome (A : Type) :=
| Ok (a : A) (e : Emitter)
| Throw (x : Exception) (e : Emitter).
Arguments Ok {A} a e.
Arguments Throw {A} x e.

Definition M (A : Type) : Type := Emitter -> Outcome A.

Definition ret {A} (a : A) : M A := fun e => Ok a e.

Definition bind {A B} (m : M A) (k : A -> M B) : M B :=
  fun e => match m e with
           | Ok a e' => k a e'
           | Throw x e' => Throw x e'
           end.

Definition throw {A} (x : Exception) : M A := fun e => Throw x e.

Definition get {A} (f : Emitter -> A) : M A := fun e => Ok (f e) e.

Definition modify (f : Emitter -> Emitter) : M unit := fun e => Ok tt (f e).

Definition final {A} (o : Outcome A) : Emitter :=
  match o with Ok _ e => e | Throw _ e => e end.

Definition succeeds {A} (o : Outcome A) : bool :=
  match o with Ok _ _ => true | Throw _ _ => false end.

Declare Scope emit_scope.
Delimit Scope emit_scope with emit.
Notation "'let*' x := m 'in' k" := (bind m (fun x => k))
  (at level 10, x name, m at level 100, k at level 200) : emit_scope.
Notation "m >> k" := (bind m (fun _ => k))
  (at level 90, right associativity) : emit_scope.
Open Scope emit_scope.

(** [for (var i = start; i < end; i++) body(i)], with the trip count
    [Z.to_nat (end - start)] computed on entry *)
Fixpoint for_loop (trips : nat) (i : Z) (body : Z -> M unit) : M unit :=
  match trips with
  | O => ret tt
  | S k => body i >> for_loop k (i + 1) body
  end.

Definition for_range (start end_ : Z) (body : Z -> M unit) : M unit :=
  for_loop (Z.to_nat (end_ - start)) start body.

Definition writeByte (byte : Z) : M unit :=
  modify (fun e => set_buffer (_buffer e ++ [byte]) e).

Definition writeMutiple (bytes : list Z) : M unit :=
  modify (fun e => set_buffer (_buffer e ++ bytes) e).

Definition _position : M Z := get (fun e => len (_buffer e)).

(** [this._buffer[pos] = byte]: inside the array the element is replaced;
    past its end the array grows, the new holes reading as [undefined];
    a negative [pos] leaves the elements alone. *)
Definition array_set (arr : list Z) (pos byte : Z) : list Z :=
  if pos <? 0 then arr
  else if pos <? len arr then <[Z.to_nat pos := byte]> arr
  else arr ++ replicate (Z.to_nat (pos - len arr)) 0 ++ [byte].

Definition patchByte (pos byte : Z) : M unit :=
  modify (fun e => set_buffer (array_set (_buffer e) pos byte) e).

(** [while ((n & ~0x7F)) { writeByte(0x80 | (n & 0x7f)); n >>>= 7; }
    writeByte(n)].  [>>>] leaves at most 25 bits after the first trip, so
    the guard fails within five trips; see [writeVarUint_trips]. *)
Fixpoint writeVarUint_while (trips : nat) (n : Z) : M unit :=
  match trips with
  | O => writeByte n
  | S k =>
      if band n (bnot 0x7F) =? 0 then writeByte n
      else writeByte (bor 0x80 (band n 0x7f)) >> writeVarUint_while k (shr n 7)
  end.

Definition writeVarUint (n : Z) : M unit := writeVarUint_while 5 n.

(** [while ((n >> 6) != test) { writeByte(0x80 | (n & 0x7f)); n >>= 7; }
    writeByte(n & 0x7f)]; see [writeVarInt_trips]. *)
Fixpoint writeVarInt_while (trips : nat) (test n : Z) : M unit :=
  match trips with
  | O => writeByte (band n 0x7f)
  | S k =>
      if sar n 6 =? test then writeByte (band n 0x7f)
      else writeByte (bor 0x80 (band n 0x7f)) >> writeVarInt_while k test (sar n 7)
  end.

Definition writeVarInt (n : Z) : M unit :=
  let n := bor n 0 in
  let test := sar n 31 in
  writeVarInt_while 5 test n.

Definition writePatchableVarUint32 : M Z :=
  let* pos := _position in
  writeMutiple [0x80; 0x80; 0x80; 0x80; 0x00] >>
  ret pos.

Definition writePatchableSectionEntriesCount : M unit :=
  let* pos := writePatchableVarUint32 in
  modify (set_sectionEntiesCountBytes pos) >>
  modify (set_sectionEntiesCount 0).

Definition writeBytes (bytes : list Z) (start end_ : Z) : M unit :=
  for_range start end_ (fun i => writeByte (num (item bytes i))).

Definition writeString (str : list Z) : M unit :=
  writeVarUint (len str) >>
  writeBytes str 0 (len str).

Definition patchVarUint32 (pos n : Z) : M unit :=
  patchByte pos (bor 0x80 (band n 0x7F)) >>
  patchByte (pos + 1) (bor 0x80 (band (shr n 7) 0x7F)) >>
  patchByte (pos + 2) (bor 0x80 (band (shr n 14) 0x7F)) >>
  patchByte (pos + 3) (bor 0x80 (band (shr n 21) 0x7F)) >>
  patchByte (pos + 4) (band (shr n 28) 0x7F).

Definition ensureState (state : EmitterState) : M unit :=
  fun e =>
    if EmitterState_eqb (_state e) state then Ok tt e
    else Throw (UnexpectedState (_state e) state) e.

Definition ensureEitherState (states : list EmitterState) : M unit :=
  fun e =>
    if existsb (EmitterState_eqb (_state e)) states then Ok tt e
    else Throw (UnexpectedStateOneOf (_state e) states) e.

Definition ensureEndOperatorWritten : M unit :=
  fun e => if _endWritten e then Ok tt e else Throw EndExpected e.

Definition writeBeginWasm (header : option IModuleHeader) : M unit :=
  ensureState Initial >>
  writeMutiple [0x00; 0x61; 0x73; 0x6d; 0x01; 0x00; 0x00; 0x00] >>
  modify (set_state Wasm).

Definition writeEndWasm : M unit :=
  ensureState Wasm >>
  modify (set_state Initial) >>
  modify (fun e => set_data (Some (Uint8Array_from (_buffer e))) e) >>
  modify (set_buffer []).

Definition writeBeginSection (section : ISectionInformation) : M unit :=
  ensureState Wasm >>
  writeVarUint (id section) >>
  (let* pos := writePatchableVarUint32 in modify (set_sectionSizeBytes pos)) >>
  (let* pos := _position in modify (set_sectionStart pos)) >>
  let default :=
    modify (set_state Error) >>
    throw (UnexpectedSection (id section)) in
  if id section =? SectionCode.Custom then
    writeString (name section) >>
    (* fallthru to error *)
    default
  else if id section =? SectionCode.Type_ then
    modify (set_state TypeSection) >>
    writePatchableSectionEntriesCount
  else if id section =? SectionCode.Import_ then
    modify (set_state ImportSection) >>
    writePatchableSectionEntriesCount
  else if id section =? SectionCode.Function then
    modify (set_state FunctionSection) >>
    writePatchableSectionEntriesCount
  else if id section =? SectionCode.Export_ then
    modify (set_state ExportSection) >>
    writePatchableSectionEntriesCount
  else if id section =? SectionCode.Code then
    modify (set_state CodeSection) >>
    writePatchableSectionEntriesCount
  else if id section =? SectionCode.Memory then
    modify (set_state MemorySection) >>
    writePatchableSectionEntriesCount
  else if id section =? SectionCode.Global then
    modify (set_state GlobalSection) >>
    writePatchableSectionEntriesCount
  else if id section =? SectionCode.Data then
    modify (set_state DataSection) >>
    writePatchableSectionEntriesCount
  else default.

Definition writeFuncType (type : IFunctionType) : M unit :=
  writeVarInt (form type) >>
  writeVarUint (len (params type)) >>
  for_range 0 (len (params type)) (fun i => writeVarInt (num (item (params type) i))) >>
  writeVarUint (len (returns type)) >>
  for_range 0 (len (returns type)) (fun i => writeVarInt (num (item (returns type) i))).

Definition incrementSectionEntiesCount : M unit :=
  modify (fun e => set_sectionEntiesCount (_sectionEntiesCount e + 1) e).

Definition writeTypeSectionEntry (type : IFunctionType) : M unit :=
  ensureState TypeSection >>
  incrementSectionEntiesCount >>
  writeFuncType type.

(** A property read of [undefined] throws. *)
Definition defined {A} (o : option A) : M A :=
  match o with Some a => ret a | None => throw TypeError end.

Definition writeResizableLimits (limits : option IResizableLimits) : M unit :=
  let* limits := defined limits in
  let flags := match maximum limits with None => 0 | Some _ => 1 end in
  writeVarUint flags >>
  writeVarUint (initial limits) >>
  if flags =? 0 then ret tt
  else writeVarUint (num (maximum limits)).

Definition writeTableType (type : option ImportEntryType) : M unit :=
  let* type := defined type in
  writeVarInt (num (prop_elementType type)) >>
  writeResizableLimits (prop_limits type).

Definition writeMemoryType (type : option ImportEntryType) : M unit :=
  let* type := defined type in
  writeResizableLimits (prop_limits type).

Definition writeGlobalType (type : option ImportEntryType) : M unit :=
  let* type := defined type in
  writeVarInt (num (prop_contentType type)) >>
  writeVarUint (num (prop_mutability type)).

Definition writeImportSectionEntry (entry : IImportEntry) : M unit :=
  ensureState ImportSection >>
  incrementSectionEntiesCount >>
  writeString (module entry) >>
  writeString (field entry) >>
  writeByte (kind entry) >>
  if kind entry =? ExternalKind.Function then
    writeVarUint (num (funcTypeIndex entry))
  else if kind entry =? ExternalKind.Table then
    writeTableType (type entry)
  else if kind entry =? ExternalKind.Memory then
    writeMemoryType (type entry)
  else if kind entry =? ExternalKind.Global then
    writeGlobalType (type entry)
  else throw (InvalidImportKind (kind entry)).

Definition writeFunctionSectionEntry (entry : IFunctionEntry) : M unit :=
  ensureState FunctionSection >>
  incrementSectionEntiesCount >>
  writeVarUint (typeIndex entry).

Definition writeExportSectionEntry (entry : IExportEntry) : M unit :=
  ensureState ExportSection >>
  incrementSectionEntiesCount >>
  writeString (export_field entry) >>
  writeByte (export_kind entry) >>
  writeVarUint (index entry).

Definition writeBeginFunctionBody (functionInfo : IFunctionInformation) : M unit :=
  ensureState CodeSection >>
  incrementSectionEntiesCount >>
  (let* pos := writePatchableVarUint32 in modify (set_bodySizeBytes pos)) >>
  (let* pos := _position in modify (set_bodyStart pos)) >>
  modify (set_endWritten false) >>
  modify (set_state FunctionBody) >>
  writeVarUint (len (locals functionInfo)) >>
  for_range 0 (len (locals functionInfo)) (fun i =>
    let* l := defined (item (locals functionInfo) i) in
    writeVarUint (count l) >>
    writeVarInt (local_type l)).

Definition writeEndFunctionBody : M unit :=
  ensureState FunctionBody >>
  ensureEndOperatorWritten >>
  let* position := _position in
  let* bodyStart := get _bodyStart in
  let bodySize := position - bodyStart in
  let* bodySizeBytes := get _bodySizeBytes in
  patchVarUint32 bodySizeBytes bodySize >>
  modify (set_state CodeSection).

Definition writeBeginDataSectionEntry (entry : IDataSegment) : M unit :=
  ensureState DataSection >>
  incrementSectionEntiesCount >>
  writeVarUint (segment_index entry) >>
  modify (set_state DataSectionEntry).

Definition writeDataSectionBody (body : IDataSegmentBody) : M unit :=
  ensureState DataSectionEntryBody >>
  writeString (body_data body) >>
  modify (set_state DataSectionEntryEnd).

Definition writeEndDataSectionEntry : M unit :=
  ensureState DataSectionEntryEnd >>
  modify (set_state DataSection).

Definition writeBeginInitExpression : M unit :=
  (let* state := get _state in
   match state with
   | DataSectionEntry => modify (set_initExpressionAfterState DataSectionEntryBody)
   | _ => throw UnexpectedStateAtInitExpression
   end) >>
  modify (set_endWritten false) >>
  modify (set_state InitExpression).

Definition writeEndInitExpression : M unit :=
  ensureState InitExpression >>
  ensureEndOperatorWritten >>
  let* after := get _initExpressionAfterState in
  modify (set_state after).

Definition writeMemoryImmediate (address : option IMemoryAddress) : M unit :=
  let* address := defined address in
  writeVarUint (flags address) >>
  writeVarUint (offset address).

(** [(<Int64>literal).data]: a number has no such property, and
    [writeBytes] then reads an element of [undefined]. *)
Definition writeVarInt64 (n : option Literal) : M unit :=
  match n with
  | Some (LitInt64 n) => writeBytes (data n) 0 8
  | _ => throw TypeError
  end.

(** The fresh array is written as it was allocated: [getFloat32] reads
    the view and its result is dropped; [n] is not stored. *)
Definition writeFloat32 (n : option Literal) : M unit :=
  let data := Uint8Array_new 4 in
  writeBytes data 0 (len data).

Definition writeFloat64 (n : option Literal) : M unit :=
  let data := Uint8Array_new 8 in
  writeBytes data 0 (len data).

(** [<number>literal | 0].  An [Int64] object is not a numeral and
    coerces to NaN, hence to 0. *)
Definition literal_or_0 (literal : option Literal) : Z :=
  match literal with
  | None => 0
  | Some (LitI32 n) => bor n 0
  | Some (LitInt64 _) => 0
  | Some (LitF32 bits) => float_ToInt32 8 23 bits
  | Some (LitF64 bits) => float_ToInt32 11 52 bits
  end.

Definition writeOperator (opInfo : IOperatorInformation) : M unit :=
  ensureEitherState [FunctionBody; InitExpression] >>
  writeByte (code opInfo) >>
  modify (set_endWritten (code opInfo =? OperatorCode.end_)) >>
  let c := code opInfo in
  if case_of c [OperatorCode.block; OperatorCode.loop; OperatorCode.if_] then
    writeVarInt (num (blockType opInfo))
  else if case_of c [OperatorCode.br; OperatorCode.br_if] then
    writeVarUint (num (brDepth opInfo))
  else if case_of c [OperatorCode.br_table] then
    let* brTable := defined (brTable opInfo) in
    let tableCount := len brTable - 1 in
    writeVarUint tableCount >>
    for_range 0 (tableCount + 1) (fun i => (* including default *)
      writeVarUint (num (item brTable i)))
  else if case_of c [OperatorCode.call] then
    writeVarUint (num (op_funcIndex opInfo))
  else if case_of c [OperatorCode.call_indirect] then
    writeVarUint (num (op_typeIndex opInfo)) >>
    writeVarUint 0
  else if case_of c [OperatorCode.get_local; OperatorCode.set_local;
                     OperatorCode.tee_local] then
    writeVarUint (num (localIndex opInfo))
  else if case_of c [OperatorCode.get_global; OperatorCode.set_global] then
    writeVarUint (num (globalIndex opInfo))
  else if case_of c
    [OperatorCode.i32_load; OperatorCode.i64_load; OperatorCode.f32_load;
     OperatorCode.f64_load; OperatorCode.i32_load8_s; OperatorCode.i32_load8_u;
     OperatorCode.i32_load16_s; OperatorCode.i32_load16_u;
     OperatorCode.i64_load8_s; OperatorCode.i64_load8_u;
     OperatorCode.i64_load16_s; OperatorCode.i64_load16_u;
     OperatorCode.i64_load32_s; OperatorCode.i64_load32_u;
     OperatorCode.i32_store; OperatorCode.i64_store; OperatorCode.f32_store;
     OperatorCode.f64_store; OperatorCode.i32_store8; OperatorCode.i32_store16;
     OperatorCode.i64_store8; OperatorCode.i64_store16; OperatorCode.i64_store32]
  then
    writeMemoryImmediate (memoryAddress opInfo)
  else if case_of c [OperatorCode.current_memory; OperatorCode.grow_memory] then
    writeVarUint 0
  else if case_of c [OperatorCode.i32_const] then
    writeVarInt (literal_or_0 (literal opInfo))
  else if case_of c [OperatorCode.i64_const] then
    writeVarInt64 (literal opInfo)
  else if case_of c [OperatorCode.f32_const] then
    writeFloat32 (literal opInfo)
  else if case_of c [OperatorCode.f64_const] then
    writeFloat64 (literal opInfo)
  else ret tt.

Definition writeMemorySectionEntry (entry : IMemoryType) : M unit :=
  ensureState MemorySection >>
  incrementSectionEntiesCount >>
  writeMemoryType (Some (OfMemory entry)).

Definition writeEndSection : M unit :=
  (let* state := get _state in
   match state with
   | TypeSection | ImportSection | FunctionSection | ExportSection
   | CodeSection | MemorySection | GlobalSection | DataSection =>
       let* countBytes := get _sectionEntiesCountBytes in
       let* count := get _sectionEntiesCount in
       patchVarUint32 countBytes count
   | _ => throw (UnexpectedSectionState state)
   end) >>
  let* position := _position in
  let* sectionStart := get _sectionStart in
  let sectionLength := position - sectionStart in
  let* sectionSizeBytes := get _sectionSizeBytes in
  patchVarUint32 sectionSizeBytes sectionLength >>
  modify (set_state Wasm).

Definition writeStateAndResult (d : IBinaryReaderData) : M unit :=
  match d with
  | BEGIN_WASM result => writeBeginWasm result
  | END_WASM => writeEndWasm
  | BEGIN_SECTION result => writeBeginSection result
  | END_SECTION => writeEndSection
  | TYPE_SECTION_ENTRY result => writeTypeSectionEntry result
  | IMPORT_SECTION_ENTRY result => writeImportSectionEntry result
  | FUNCTION_SECTION_ENTRY result => writeFunctionSectionEntry result
  | EXPORT_SECTION_ENTRY result => writeExportSectionEntry result
  | BEGIN_FUNCTION_BODY result => writeBeginFunctionBody result
  | END_FUNCTION_BODY => writeEndFunctionBody
  | MEMORY_SECTION_ENTRY result => writeMemorySectionEntry result
  | INIT_EXPRESSION_OPERATOR result
  | CODE_OPERATOR result => writeOperator result
  | BEGIN_DATA_SECTION_ENTRY result => writeBeginDataSectionEntry result
  | DATA_SECTION_ENTRY_BODY result => writeDataSectionBody result
  | END_DATA_SECTION_ENTRY => writeEndDataSectionEntry
  | BEGIN_INIT_EXPRESSION_BODY => writeBeginInitExpression
  | END_INIT_EXPRESSION_BODY => writeEndInitExpression
  | _ => throw (InvalidState d)
  end.

Definition write {R} `{BinaryReader R} (reader : R) : M unit :=
  writeStateAndResult (current reader).

Definition writeData (data : IBinaryReaderData) : M unit :=
  writeStateAndResult data.

(** A caller that feeds a sequence of events, one [writeData] each; an
    exception ends the run. *)
Fixpoint writeAll (events : list IBinaryReaderData) : M unit :=
  match events with
  | [] => ret tt
  | d :: rest => writeData d >> writeAll rest
  end.

End Emitter.

(** ** WasmDis.ts *)

Module WasmDis.
Import JS WasmParser.
Local Open Scope string_scope.
Local Open Scope Z_scope.

(** What the disassembler throws; [ReaderError] is [reader.error]. *)
Inductive Exception :=
| UnexpectedType
| NYIOtherFunctionForm
| UnsupportedExport (kind : Z)
| NYIOtherImportTypes (kind : Z)
| ExpectectedState (state : IBinaryReaderData)
| ReaderError (error : string)
| TypeError.

(** What the module takes from outside the two files at hand: the table
    [OperatorCodeNames] of WasmParser.ts, [Int64.toDouble], and the
    decimal text that the engine gives a number that holds a float. *)
Class Externals := {
  OperatorCodeNames : Z -> option string;
  (** [n.toString()] for a literal other than an integer number *)
  Number_toString : Literal -> string;
  (** [formatFloat32(n)], [formatFloat64(n)] for a literal that is not a
      float of that width *)
  formatFloat_cast : Literal -> string;
  (** [`${n.toDouble()}`] *)
  Int64_toDouble : Int64 -> string
}.

(** The line feed that the source writes as a backslash followed by n *)
Definition LF : string := String (ascii_of_nat 10) EmptyString.

(** The double quote *)
Definition DQ : string := String (ascii_of_nat 34) EmptyString.

(** The backslash *)
Definition BS : string := String (ascii_of_nat 92) EmptyString.

Definition binToString (b : list Z) : string :=
  let buffer :=
    map (fun byte =>
           if (byte <? 0x20) || (byte >=? 0x7F) ||
              (byte =? 0x22) || (byte =? 0x5c)
           then BS ++ toString16 (sar byte 4) ++ toString16 (band byte 15)
           else fromCharCode byte) b in
  join buffer.

Definition typeToString (type : Z) : Exception + string :=
  if type =? Type_.i32 then inr "i32"
  else if type =? Type_.i64 then inr "i64"
  else if type =? Type_.f32 then inr "f32"
  else if type =? Type_.f64 then inr "f64"
  else if type =? Type_.anyfunc then inr "anyfunc"
  else inl UnexpectedType.

Section Floats.
Context `{Externals}.

(** [n] is the number with the binary32 encoding [bits]: its sign,
    exponent and fraction decide the first three tests, and
    [view.getInt32] reads the encoding back. *)
Definition formatFloat32 (n : Literal) : string :=
  match n with
  | LitF32 bits =>
      let sign := Z.testbit bits 31 in
      let exponent := Z.land (Z.shiftr bits 23) 0xFF in
      let fraction := Z.land bits 0x7FFFFF in
      if (exponent =? 0) && (fraction =? 0) then
        if sign then "-0.0" else "0.0"
      else if negb (exponent =? 0xFF) then Number_toString n
      else if fraction =? 0 then
        if sign then "-infinity" else "infinity"
      else
        let data := ToInt32 bits in
        let payload := band data 0x7FFFFF in
        let canonicalBits := 4194304 in
        if (data >? 0) && (payload =? canonicalBits) then "nan"
        else if payload =? canonicalBits then "-nan"
        else (if data <? 0 then "-" else "+") ++ "nan:0x" ++ toString16 payload
  | LitI32 0 => "0.0"
  | LitI32 i => toString i
  | _ => formatFloat_cast n
  end.

(** The same for the binary64 encoding; [data1] and [data2] are its low
    and high words. *)
Definition formatFloat64 (n : Literal) : string :=
  match n with
  | LitF64 bits =>
      let sign := Z.testbit bits 63 in
      let exponent := Z.land (Z.shiftr bits 52) 0x7FF in
      let fraction := Z.land bits (Z.ones 52) in
      if (exponent =? 0) && (fraction =? 0) then
        if sign then "-0.0" else "0.0"
      else if negb (exponent =? 0x7FF) then Number_toString n
      else if fraction =? 0 then
        if sign then "-infinity" else "infinity"
      else
        let data1 := ToUint32 bits in
        let data2 := ToInt32 (Z.shiftr bits 32) in
        let payload := data1 + band data2 0xFFFFF * 4294967296 in
        let canonicalBits := 524288 * 4294967296 in
        if (data2 >? 0) && (payload =? canonicalBits) then "nan"
        else if payload =? canonicalBits then "-nan"
        else (if data2 <? 0 then "-" else "+") ++ "nan:0x" ++ toString16 payload
  | LitI32 0 => "0.0"
  | LitI32 i => toString i
  | _ => formatFloat_cast n
  end.
End Floats.

Definition memoryAddressToString (address : IMemoryAddress) (code : Z) : string :=
  let defaultAlignFlags : option Z :=
    if case_of code [OperatorCode.i64_load; OperatorCode.i64_store] then Some 3
    else if case_of code
      [OperatorCode.i32_load; OperatorCode.i64_load32_s; OperatorCode.i64_load32_u;
       OperatorCode.i32_store; OperatorCode.i64_store32] then Some 2
    else if case_of code
      [OperatorCode.i32_load16_s; OperatorCode.i32_load16_u;
       OperatorCode.i64_load16_s; OperatorCode.i64_load16_u;
       OperatorCode.i32_store16; OperatorCode.i64_store16] then Some 1
    else if case_of code
      [OperatorCode.i32_load8_s; OperatorCode.i32_load8_u;
       OperatorCode.i64_load8_s; OperatorCode.i64_load8_u;
       OperatorCode.i32_store8; OperatorCode.i64_store8] then Some 0
    else None in
  if match defaultAlignFlags with
     | Some d => flags address =? d
     | None => false
     end (* hide default flags *)
  then "offset=" ++ toString (offset address)
  else if offset address =? 0 (* hide default offset *)
  then "align=" ++ toString (shl 1 (flags address))
  else "offset=" ++ toString (offset address) ++
       " align=" ++ toString (shl 1 (flags address)).

Definition globalTypeToString (type : IGlobalType) : Exception + string :=
  if mutability type =? 0 then typeToString (contentType type)
  else match typeToString (contentType type) with
       | inr s => inr ("(mut " ++ s ++ ")")
       | inl x => inl x
       end.

Definition limitsToString (limits : IResizableLimits) : string :=
  toString (initial limits) ++
  match maximum limits with
  | Some maximum => " " ++ toString maximum
  | None => EmptyString
  end.

Definition IndentIncrement : string := "  ".

(** The instance fields of [class WasmDisassembler]; [_indent] starts as
    [null]. *)
Record WasmDisassembler := {
  _buffer : list string;
  _types : list IFunctionType;
  _funcIndex : Z;
  _funcTypes : list Z;
  _importCount : Z;
  _globalCount : Z;
  _tableCount : Z;
  _indent : option string;
  _indentLevel : Z
}.

Definition constructor : WasmDisassembler := {|
  _buffer := [];
  _types := [];
  _funcIndex := 0;
  _funcTypes := [];
  _importCount := 0;
  _globalCount := 0;
  _tableCount := 0;
  _indent := None;
  _indentLevel := 0
|}.

Definition set_buffer (v : list string) (d : WasmDisassembler) :=
  {| _buffer := v; _types := _types d; _funcIndex := _funcIndex d;
     _funcTypes := _funcTypes d; _importCount := _importCount d;
     _globalCount := _globalCount d; _tableCount := _tableCount d;
     _indent := _indent d; _indentLevel := _indentLevel d |}.

Definition set_types (v : list IFunctionType) (d : WasmDisassembler) :=
  {| _buffer := _buffer d; _types := v; _funcIndex := _funcIndex d;
     _funcTypes := _funcTypes d; _importCount := _importCount d;
     _globalCount := _globalCount d; _tableCount := _tableCount d;
     _indent := _indent d; _indentLevel := _indentLevel d |}.

Definition set_funcIndex (v : Z) (d : WasmDisassembler) :=
  {| _buffer := _buffer d; _types := _types d; _funcIndex := v;
     _funcTypes := _funcTypes d; _importCount := _importCount d;
     _globalCount := _globalCount d; _tableCount := _tableCount d;
     _indent := _indent d; _indentLevel := _indentLevel d |}.

Definition set_funcTypes (v : list Z) (d : WasmDisassembler) :=
  {| _buffer := _buffer d; _types := _types d; _funcIndex := _funcIndex d;
     _funcTypes := v; _importCount := _importCount d;
     _globalCount := _globalCount d; _tableCount := _tableCount d;
     _indent := _indent d; _indentLevel := _indentLevel d |}.

Definition set_importCount (v : Z) (d : WasmDisassembler) :=
  {| _buffer := _buffer d; _types := _types d; _funcIndex := _funcIndex d;
     _funcTypes := _funcTypes d; _importCount := v;
     _globalCount := _globalCount d; _tableCount := _tableCount d;
     _indent := _indent d; _indentLevel := _indentLevel d |}.

Definition set_globalCount (v : Z) (d : WasmDisassembler) :=
  {| _buffer := _buffer d; _types := _types d; _funcIndex := _funcIndex d;
     _funcTypes := _funcTypes d; _importCount := _importCount d;
     _globalCount := v; _tableCount := _tableCount d;
     _indent := _indent d; _indentLevel := _indentLevel d |}.

Definition set_tableCount (v : Z) (d : WasmDisassembler) :=
  {| _buffer := _buffer d; _types := _types d; _funcIndex := _funcIndex d;
     _funcTypes := _funcTypes d; _importCount := _importCount d;
     _globalCount := _globalCount d; _tableCount := v;
     _indent := _indent d; _indentLevel := _indentLevel d |}.

Definition set_indent (v : option string) (d : WasmDisassembler) :=
  {| _buffer := _buffer d; _types := _types d; _funcIndex := _funcIndex d;
     _funcTypes := _funcTypes d; _importCount := _importCount d;
     _globalCount := _globalCount d; _tableCount := _tableCount d;
     _indent := v; _indentLevel := _indentLevel d |}.

Definition set_indentLevel (v : Z) (d : WasmDisassembler) :=
  {| _buffer := _buffer d; _types := _types d; _funcIndex := _funcIndex d;
     _funcTypes := _funcTypes d; _importCount := _importCount d;
     _globalCount := _globalCount d; _tableCount := _tableCount d;
     _indent := _indent d; _indentLevel := v |}.

(** A piece of a method that may change the instance and may throw *)
Inductive Outcome (A : Type) :=
| Ok (a : A) (d : WasmDisassembler)
| Throw (x : Exception) (d : WasmDisassembler).
Arguments Ok {A} a d.
Arguments Throw {A} x d.

Definition M (A : Type) : Type := WasmDisassembler -> Outcome A.

Definition ret {A} (a : A) : M A := fun d => Ok a d.

Definition bind {A B} (m : M A) (k : A -> M B) : M B :=
  fun d => match m d with
           | Ok a d' => k a d'
           | Throw x d' => Throw x d'
           end.

Definition throw {A} (x : Exception) : M A := fun d => Throw x d.

Definition get {A} (f : WasmDisassembler -> A) : M A := fun d => Ok (f d) d.

Definition modify (f : WasmDisassembler -> WasmDisassembler) : M unit :=
  fun d => Ok tt (f d).

Definition lift {A} (r : Exception + A) : M A :=
  match r with inr a => ret a | inl x => throw x end.

Definition defined {A} (o : option A) : M A :=
  match o with Some a => ret a | None => throw TypeError end.

Declare Scope dis_scope.
Delimit Scope dis_scope with dis.
Notation "'let*' x := m 'in' k" := (bind m (fun x => k))
  (at level 10, x name, m at level 100, k at level 200) : dis_scope.
Notation "m >> k" := (bind m (fun _ => k))
  (at level 90, right associativity) : dis_scope.
Open Scope dis_scope.

(** [this._buffer.push(s)] *)
Definition push (s : string) : M unit :=
  modify (fun d => set_buffer (_buffer d ++ [s])%list d).

(** [for (x of xs) body(x)] *)
Fixpoint for_of {A} (xs : list A) (body : A -> M unit) : M unit :=
  match xs with
  | [] => ret tt
  | x :: rest => body x >> for_of rest body
  end.

(** [for (var i = 0; i < n; i++) body(i)] *)
Fixpoint for_loop (trips : nat) (i : Z) (body : Z -> M unit) : M unit :=
  match trips with
  | O => ret tt
  | S k => body i >> for_loop k (i + 1) body
  end.

Definition for_upto (n : Z) (body : Z -> M unit) : M unit :=
  for_loop (Z.to_nat n) 0 body.

Definition ebind {A B} (r : Exception + A) (k : A -> Exception + B) : Exception + B :=
  match r with inr a => k a | inl x => inl x end.

(** [typeToString] of a property that may be [undefined]: no [case]
    matches it. *)
Definition typeToString_opt (type : option Z) : Exception + string :=
  match type with Some t => typeToString t | None => inl UnexpectedType end.

(** The three loops of [printFuncType]; each yields the strings it would
    push onto [result]. *)
Fixpoint printFuncType_vars (i : Z) (params : list Z) : Exception + list string :=
  match params with
  | [] => inr []
  | p :: rest =>
      ebind (typeToString p) (fun t =>
      ebind (printFuncType_vars (i + 1) rest) (fun l =>
      inr ((" (param $var" ++ toString i ++ " " ++ t ++ ")") :: l)))
  end.

Fixpoint printFuncType_params (params : list Z) : Exception + list string :=
  match params with
  | [] => inr []
  | p :: rest =>
      ebind (typeToString p) (fun t =>
      ebind (printFuncType_params rest) (fun l =>
      inr (" " :: t :: l)))
  end.

Fixpoint printFuncType_returns (returns : list Z) : Exception + list string :=
  match returns with
  | [] => inr []
  | r :: rest =>
      ebind (typeToString r) (fun t =>
      ebind (printFuncType_returns rest) (fun l =>
      inr ((" (result " ++ t ++ ")") :: l)))
  end.

Definition printFuncType (type : option IFunctionType) (printVars : bool)
  : Exception + string :=
  match type with
  | None => inl TypeError
  | Some type =>
      ebind (if printVars then printFuncType_vars 0 (params type)
             else if len (params type) >? 0 then
               ebind (printFuncType_params (params type)) (fun l =>
               inr ([" (param"] ++ l ++ [")"])%list)
             else inr []) (fun result1 =>
      ebind (printFuncType_returns (returns type)) (fun result2 =>
      inr (join (result1 ++ result2)%list)))
  end.

Definition printType (typeIndex : option Z) : M string :=
  let* types := get _types in
  let type := match typeIndex with
              | Some i => item types i
              | None => None
              end in
  let* t := defined type in
  if negb (form t =? Type_.func) then throw NYIOtherFunctionForm
  else
    let* s := lift (printFuncType type false) in
    ret ("(func" ++ s ++ ")").

(** [null + '  '] is the string ["null  "]. *)
Definition increaseIndent : M unit :=
  modify (fun d => set_indent (Some (default "null" (_indent d) ++ IndentIncrement)) d) >>
  modify (fun d => set_indentLevel (_indentLevel d + 1) d).

Definition decreaseIndent : M unit :=
  let* indent := get _indent in
  let* indent := defined indent in
  modify (set_indent (Some (slice_to_minus indent (String.length IndentIncrement)))) >>
  modify (fun d => set_indentLevel (_indentLevel d - 1) d).

(** [this._importCount++] and its like: the old value is the result *)
Definition post_increment (field : WasmDisassembler -> Z)
    (set : Z -> WasmDisassembler -> WasmDisassembler) : M Z :=
  let* old := get field in
  modify (set (old + 1)) >>
  ret old.

(** [globalTypeToString(<IGlobalType>importInfo.type)] *)
Definition globalTypeToString_import (type : option ImportEntryType) : M string :=
  let* type := defined type in
  match type with
  | OfGlobal g => lift (globalTypeToString g)
  | _ => lift (typeToString_opt (prop_contentType type))
  end.

(** The result of one trip of the loop in [disassemble] *)
Inductive Step (R : Type) :=
| Next (reader : R) (this : WasmDisassembler)
| Return (result : option string) (reader : R) (this : WasmDisassembler)
| Throws (x : Exception) (reader : R) (this : WasmDisassembler).
Arguments Next {R} reader this.
Arguments Return {R} result reader this.
Arguments Throws {R} x reader this.

Definition step_of {R} (reader : R) (o : Outcome unit) : Step R :=
  match o with
  | Ok _ d => Next reader d
  | Throw x d => Throws x reader d
  end.

Section Disassemble.
Context `{Externals} {R : Type} `{BinaryReader R}.

(** [name.replace(/^([if](32|64))_/, "$1.").replace(/_([if](32|64))$/, "/$1")] *)
Definition is_numeric_type (s : string) : bool :=
  (s =? "i32")%string || (s =? "i64")%string ||
  (s =? "f32")%string || (s =? "f64")%string.

Definition replace_prefix (s : string) : string :=
  if is_numeric_type (String.substring 0 3 s) &&
     (String.substring 3 1 s =? "_")%string
  then String.substring 0 3 s ++ "." ++
       String.substring 4 (String.length s - 4) s
  else s.

Definition replace_suffix (s : string) : string :=
  let n := String.length s in
  if (4 <=? n)%nat &&
     (String.substring (n - 4) 1 s =? "_")%string &&
     is_numeric_type (String.substring (n - 3) 3 s)
  then String.substring 0 (n - 4) s ++ "/" ++ String.substring (n - 3) 3 s
  else s.

Definition when (b : bool) (m : M unit) : M unit := if b then m else ret tt.

Definition when_defined {A} (o : option A) (m : A -> M unit) : M unit :=
  match o with Some a => m a | None => ret tt end.

(** [case INIT_EXPRESSION_OPERATOR: case CODE_OPERATOR:] *)
Definition disassemble_operator (operator : IOperatorInformation) : M unit :=
  let* indentLevel := get _indentLevel in
  if (code operator =? OperatorCode.end_) && (indentLevel =? 0) then
    (* reached of the function, skipping the operator *)
    ret tt
  else
    when (case_of (code operator) [OperatorCode.end_; OperatorCode.else_])
      decreaseIndent >>
    let* name := defined (OperatorCodeNames (code operator)) in
    let str := replace_suffix (replace_prefix name) in
    let* str :=
      match blockType operator with
      | Some blockType =>
          if negb (blockType =? Type_.empty_block_type) then
            let* t := lift (typeToString blockType) in ret (str ++ " " ++ t)
          else ret str
      | None => ret str
      end in
    (let* indent := get _indent in
     (* [join] prints a [null] element as the empty string *)
     push (default EmptyString indent) >> push str) >>
    when_defined (localIndex operator) (fun localIndex =>
      push (" $var" ++ toString localIndex)) >>
    when_defined (op_funcIndex operator) (fun funcIndex =>
      push (" $func" ++ toString funcIndex)) >>
    when_defined (op_typeIndex operator) (fun typeIndex =>
      push (" $type" ++ toString typeIndex)) >>
    when_defined (literal operator) (fun literal =>
      if case_of (code operator) [OperatorCode.i32_const] then
        push (" " ++ match literal with
                     | LitI32 n => toString n
                     | _ => Number_toString literal
                     end)
      else if case_of (code operator) [OperatorCode.f32_const] then
        push (" " ++ formatFloat32 literal)
      else if case_of (code operator) [OperatorCode.f64_const] then
        push (" " ++ formatFloat64 literal)
      else if case_of (code operator) [OperatorCode.i64_const] then
        match literal with
        | LitInt64 n => push (" " ++ Int64_toDouble n)
        | _ => throw TypeError
        end
      else ret tt) >>
    when_defined (memoryAddress operator) (fun memoryAddress =>
      push (" " ++ memoryAddressToString memoryAddress (code operator))) >>
    when_defined (brDepth operator) (fun brDepth =>
      push (" " ++ toString brDepth)) >>
    when_defined (brTable operator) (fun brTable =>
      for_of brTable (fun target => push (" " ++ toString target))) >>
    when_defined (globalIndex operator) (fun globalIndex =>
      push (" $global" ++ toString globalIndex)) >>
    push LF >>
    when (case_of (code operator)
            [OperatorCode.if_; OperatorCode.block; OperatorCode.loop;
             OperatorCode.else_])
      increaseIndent.

(** [for (var l of func.locals) for (var i = 0; i < l.count; i++)
    push(... localIndex++ ...)]: the inner loop makes [l.count] trips when
    that is positive *)
Fixpoint disassemble_locals (localIndex : Z) (locals : list ILocals) : M unit :=
  match locals with
  | [] => ret tt
  | l :: rest =>
      for_upto (count l) (fun i =>
        let* t := lift (typeToString (local_type l)) in
        push ("    (local $var" ++ toString (localIndex + i) ++ " " ++
              t ++ ")" ++ LF)) >>
      disassemble_locals (localIndex + Z.max 0 (count l)) rest
  end.

(** The body of the [switch (reader.state)] for the events that touch
    the instance only; [END_WASM], [ERROR] and [BEGIN_SECTION] are in
    [disassemble_step]. *)
Definition disassemble_event (d : IBinaryReaderData) : M unit :=
  match d with
  | BEGIN_WASM _ => push ("(module" ++ LF)
  | END_SECTION => ret tt
  | MEMORY_SECTION_ENTRY memoryInfo =>
      push ("  (memory " ++ toString (initial (limits memoryInfo))) >>
      when_defined (maximum (limits memoryInfo)) (fun maximum =>
        push (" " ++ toString maximum)) >>
      push (")" ++ LF)
  | TABLE_SECTION_ENTRY tableInfo =>
      let* n := post_increment _tableCount set_tableCount in
      let* t := lift (typeToString (elementType tableInfo)) in
      push ("  (table $table" ++ toString n ++ " " ++
            limitsToString (table_limits tableInfo) ++ " " ++ t ++ ")" ++ LF)
  | EXPORT_SECTION_ENTRY exportInfo =>
      push ("  (export " ++ DQ ++ binToString (export_field exportInfo) ++ DQ ++ " ") >>
      (if export_kind exportInfo =? ExternalKind.Function then
         push ("$func" ++ toString (index exportInfo))
       else if export_kind exportInfo =? ExternalKind.Table then
         push ("(table $table" ++ toString (index exportInfo) ++ ")")
       else if export_kind exportInfo =? ExternalKind.Memory then
         push "memory"
       else if export_kind exportInfo =? ExternalKind.Global then
         push ("(global $global" ++ toString (index exportInfo) ++ ")")
       else throw (UnsupportedExport (export_kind exportInfo))) >>
      push (")" ++ LF)
  | IMPORT_SECTION_ENTRY importInfo =>
      let importSource :=
        DQ ++ binToString (module importInfo) ++ DQ ++ " " ++ DQ ++
        binToString (field importInfo) ++ DQ in
      if kind importInfo =? ExternalKind.Function then
        let* n := post_increment _importCount set_importCount in
        let* t := printType (funcTypeIndex importInfo) in
        push ("  (import $func" ++ toString n ++ " " ++ importSource ++ " " ++
              t ++ ")" ++ LF)
      else if kind importInfo =? ExternalKind.Table then
        let tableImportInfo := type importInfo in
        let* n := post_increment _tableCount set_tableCount in
        let* info := defined tableImportInfo in
        let* limits := defined (prop_limits info) in
        let* t := lift (typeToString_opt (prop_elementType info)) in
        push ("  (import " ++ importSource ++ " (table $table" ++ toString n ++
              " " ++ limitsToString limits ++ " " ++ t ++ "))" ++ LF)
      else if kind importInfo =? ExternalKind.Memory then
        let memoryImportInfo := type importInfo in
        let* info := defined memoryImportInfo in
        let* limits := defined (prop_limits info) in
        push ("  (import " ++ importSource ++ " (memory " ++
              limitsToString limits ++ "))" ++ LF)
      else if kind importInfo =? ExternalKind.Global then
        let globalImportInfo := type importInfo in
        let* n := post_increment _globalCount set_globalCount in
        let* t := globalTypeToString_import globalImportInfo in
        push ("  (import " ++ importSource ++ " (global $global" ++ toString n ++
              " " ++ t ++ "))" ++ LF)
      else throw (NYIOtherImportTypes (kind importInfo))
  | BEGIN_ELEMENT_SECTION_ENTRY elementSegmentInfo =>
      push ("  (elem" ++ LF)
  | END_ELEMENT_SECTION_ENTRY =>
      push ("  )" ++ LF)
  | ELEMENT_SECTION_ENTRY_BODY elementSegmentBody =>
      push "   " >>
      for_of (elements elementSegmentBody) (fun funcIndex =>
        push (" $func" ++ toString funcIndex)) >>
      push LF
  | BEGIN_GLOBAL_SECTION_ENTRY globalInfo =>
      let* n := post_increment _globalCount set_globalCount in
      let* t := lift (globalTypeToString (global_type globalInfo)) in
      push ("  (global $global" ++ toString n ++ " " ++ t ++ LF)
  | END_GLOBAL_SECTION_ENTRY =>
      push ("  )" ++ LF)
  | TYPE_SECTION_ENTRY funcType =>
      let* types := get _types in
      let typeIndex := len types in
      modify (set_types (types ++ [funcType])%list) >>
      let* t := printType (Some typeIndex) in
      push ("  (type $type" ++ toString typeIndex ++ " " ++ t ++ ")" ++ LF)
  | BEGIN_DATA_SECTION_ENTRY _ =>
      push ("  (data" ++ LF)
  | DATA_SECTION_ENTRY_BODY body =>
      push ("    " ++ DQ ++ binToString (body_data body) ++ DQ ++ LF)
  | END_DATA_SECTION_ENTRY =>
      push ("  )" ++ LF)
  | BEGIN_INIT_EXPRESSION_BODY =>
      modify (set_indent (Some "      ")) >>
      modify (set_indentLevel 0) >>
      push ("    (" ++ LF)
  | END_INIT_EXPRESSION_BODY =>
      push ("    )" ++ LF)
  | FUNCTION_SECTION_ENTRY entry =>
      modify (fun d => set_funcTypes (_funcTypes d ++ [typeIndex entry])%list d)
  | BEGIN_FUNCTION_BODY func =>
      let* types := get _types in
      let* funcTypes := get _funcTypes in
      let* funcIndex := get _funcIndex in
      let* importCount := get _importCount in
      let type :=
        match item funcTypes funcIndex with
        | Some i => item types i
        | None => None
        end in
      let printIndex := funcIndex + importCount in
      let* sig := lift (printFuncType type true) in
      push ("  (func $func" ++ toString printIndex ++ sig ++ LF) >>
      let* type := defined type in
      let localIndex := len (params type) in
      disassemble_locals localIndex (locals func) >>
      modify (fun d => set_funcIndex (_funcIndex d + 1) d) >>
      modify (set_indent (Some "    ")) >>
      modify (set_indentLevel 0)
  | INIT_EXPRESSION_OPERATOR operator
  | CODE_OPERATOR operator => disassemble_operator operator
  | END_FUNCTION_BODY =>
      push ("  )" ++ LF)
  | _ => throw (ExpectectedState d)
  end.

(** [switch (reader.state)]: the events that read the reader are handled
    here, the others in [disassemble_event]. *)
Definition disassemble_switch (reader : R) (this : WasmDisassembler) : Step R :=
  match current reader with
  | END_WASM =>
      match push (")" ++ LF) this with
      | Ok _ this =>
          if negb (hasMoreBytes reader) then
            let result := join (_buffer this) in
            Return (Some result) reader (set_buffer [] this)
          else Next reader this
      | Throw x this => Throws x reader this
      end
  | ERROR => Throws (ReaderError (error reader)) reader this
  | BEGIN_SECTION sectionInfo =>
      if case_of (id sectionInfo)
           [SectionCode.Type_; SectionCode.Import_; SectionCode.Export_;
            SectionCode.Global; SectionCode.Function; SectionCode.Code;
            SectionCode.Memory; SectionCode.Data; SectionCode.Table;
            SectionCode.Element]
      then Next reader this (* reading known section *)
      else Next (skipSection reader) this
  | d => step_of reader (disassemble_event d this)
  end.

(** One trip of [while (true)] in [disassemble] *)
Definition disassemble_step (reader : R) (this : WasmDisassembler) : Step R :=
  let (more, reader) := read reader in
  if negb more then Return None reader this
  else disassemble_switch reader this.

(** [disassemble(reader)]: [None] when the loop has not left within
    [trips] trips. *)
Fixpoint disassemble (trips : nat) (reader : R) (this : WasmDisassembler)
  : option (Step R) :=
  match trips with
  | O => None
  | S k =>
      match disassemble_step reader this with
      | Next reader this => disassemble k reader this
      | s => Some s
      end
  end.
End Disassemble.

End WasmDis.

(** ** A reader that replays recorded events *)

Module Replay.
Import WasmParser.

(** Modelled from the spec: an instance of [BinaryReader], whose code is
    in WasmParser.ts, with the behaviour that section 6.1 of the
    specification describes.  [pending] is what the parser would deliver:
    [Some d] is an event, [None] the end of the bytes supplied so far,
    where [read()] answers [false] until the caller supplies more.  After
    [skipSection()] the events up to the end of the section are passed
    over. *)
Record Reader := {
  now : IBinaryReaderData;
  pending : list (option IBinaryReaderData);
  skipping : bool
}.

Definition is_END_SECTION (d : IBinaryReaderData) : bool :=
  match d with END_SECTION => true | _ => false end.

Fixpoint replay_read (now : IBinaryReaderData) (skipping : bool)
    (pending : list (option IBinaryReaderData)) : bool * Reader :=
  match pending with
  | [] => (false, {| now := now; pending := []; skipping := skipping |})
  | None :: rest => (false, {| now := now; pending := rest; skipping := skipping |})
  | Some d :: rest =>
      if skipping && negb (is_END_SECTION d) then replay_read now skipping rest
      else (true, {| now := d; pending := rest; skipping := false |})
  end.

#[export] Instance reader : BinaryReader Reader := {|
  read r := replay_read (now r) (skipping r) (pending r);
  current r := now r;
  hasMoreBytes r := match pending r with Some _ :: _ => true | _ => false end;
  skipSection r := {| now := now r; pending := pending r; skipping := true |};
  error r := EmptyString
|}.

(** A reader positioned before [events], all of them supplied *)
Definition of_events (now : IBinaryReaderData) (events : list IBinaryReaderData) : Reader :=
  {| now := now; pending := map Some events; skipping := false |}.

End Replay.

(** ** What the theorems about the emitter speak of *)

Module EmitterSpec.
Import JS WasmParser Emitter.

(** The instance with [bytes] pushed onto its buffer *)
Definition append (bytes : list Z) (e : Emitter) : Emitter :=
  set_buffer (_buffer e ++ bytes) e.

(** The bytes that [m] writes when it starts from an empty buffer *)
Definition appended {A} (m : M A) : list Z := _buffer (final (m constructor)).

(** [m] only pushes [bytes] and then returns or throws as [r] says,
    whatever the instance *)
Definition writer {A} (m : M A) (bytes : list Z) (r : Exception + A) : Prop :=
  forall e, m e = match r with
                  | inr a => Ok a (append bytes e)
                  | inl x => Throw x (append bytes e)
                  end.

Definition is_writer {A} (m : M A) : Prop := exists bs r, writer m bs r.

(** A writer that pushes at least one byte when it returns *)
Definition is_writer1 {A} (m : M A) : Prop :=
  exists bs r, writer m bs r /\ (forall a, r = inr a -> bs <> []).

(** The unsigned LEB128 number at the head of [bytes] and the count of
    bytes it takes: seven bits a byte, least significant group first,
    the high bit set on every byte but the last. *)
Fixpoint readVarUint (bytes : list Z) : option (Z * nat) :=
  match bytes with
  | [] => None
  | b :: rest =>
      if Z.land b 0x80 =? 0 then Some (b, 1%nat)
      else match readVarUint rest with
           | Some (v, k) => Some (Z.land b 0x7F + 128 * v, S k)
           | None => None
           end
  end.

(** The number in the slot at [pos] *)
Definition slot (buffer : list Z) (pos : Z) : option (Z * nat) :=
  readVarUint (drop (Z.to_nat pos) buffer).

(** The buffer after [patchVarUint32(pos, n)] *)
Definition patched (buffer : list Z) (pos n : Z) : list Z :=
  array_set
    (array_set
       (array_set
          (array_set
             (array_set buffer pos (bor 0x80 (band n 0x7F)))
             (pos + 1) (bor 0x80 (band (shr n 7) 0x7F)))
          (pos + 2) (bor 0x80 (band (shr n 14) 0x7F)))
       (pos + 3) (bor 0x80 (band (shr n 21) 0x7F)))
    (pos + 4) (band (shr n 28) 0x7F).

Definition slot5 : list Z := [0x80; 0x80; 0x80; 0x80; 0x00].

(** The eight states from which [writeEndSection] closes a section *)
Definition closable (s : EmitterState) : bool :=
  match s with
  | TypeSection | ImportSection | FunctionSection | ExportSection
  | CodeSection | MemorySection | GlobalSection | DataSection => true
  | _ => false
  end.

(** The events that announce one entry of a section *)
Definition is_entry (d : IBinaryReaderData) : bool :=
  match d with
  | TYPE_SECTION_ENTRY _ | IMPORT_SECTION_ENTRY _ | FUNCTION_SECTION_ENTRY _
  | EXPORT_SECTION_ENTRY _ | MEMORY_SECTION_ENTRY _ | BEGIN_FUNCTION_BODY _
  | BEGIN_DATA_SECTION_ENTRY _ => true
  | _ => false
  end.

Definition entry_events (events : list IBinaryReaderData) : Z :=
  len (filter (fun d => is_entry d = true) events).

(** The operator that an event carries *)
Definition operator_of (d : IBinaryReaderData) : option IOperatorInformation :=
  match d with
  | INIT_EXPRESSION_OPERATOR op | CODE_OPERATOR op => Some op
  | _ => None
  end.

(** The operator written last among [events] *)
Definition last_operator (events : list IBinaryReaderData) : option IOperatorInformation :=
  last (omap operator_of events).

(** Whether the operator written last was [end] *)
Definition end_is_last (events : list IBinaryReaderData) : bool :=
  match last_operator events with
  | Some op => code op =? OperatorCode.end_
  | None => false
  end.

(** The states between [BeginSection] and [EndSection] *)
Definition open_section (s : EmitterState) : bool :=
  match s with
  | TypeSection | ImportSection | FunctionSection | ExportSection
  | CodeSection | MemorySection | GlobalSection | DataSection
  | FunctionBody | DataSectionEntry | DataSectionEntryBody
  | DataSectionEntryEnd | InitExpression => true
  | _ => false
  end.

(** What holds of the instance while a section that starts at [start] is
    open: the two slots lie before and at [start], and every counted
    entry has added a byte behind them. *)
Record SectionInv (start : Z) (e : Emitter) : Prop := {
  inv_open : open_section (_state e) = true;
  inv_after : _state e = InitExpression ->
              _initExpressionAfterState e = DataSectionEntryBody;
  inv_start : _sectionStart e = start;
  inv_size : _sectionSizeBytes e = start - 5;
  inv_countBytes : _sectionEntiesCountBytes e = start;
  inv_pos : 5 <= start;
  inv_count : 0 <= _sectionEntiesCount e;
  inv_len : start + 5 + _sectionEntiesCount e <= len (_buffer e)
}.

(** What holds while a function body that starts at [start] is open *)
Record BodyInv (start : Z) (e : Emitter) : Prop := {
  body_state : _state e = FunctionBody;
  body_start : _bodyStart e = start;
  body_size : _bodySizeBytes e = start - 5;
  body_pos : 5 <= start;
  body_len : start <= len (_buffer e)
}.

(** The [count] bytes of [bits], least significant first: the byte image
    of an IEEE-754 number in little-endian order *)
Fixpoint le_bytes (count : nat) (bits : Z) : list Z :=
  match count with
  | O => []
  | S k => bits mod 256 :: le_bytes k (bits / 256)
  end.

(** An operator with the code [c] and no immediate *)
Definition operator (c : Z) : IOperatorInformation :=
  {| code := c; blockType := None; brDepth := None; brTable := None;
     op_funcIndex := None; op_typeIndex := None; localIndex := None;
     globalIndex := None; memoryAddress := None; literal := None |}.

Definition with_literal (l : Literal) (op : IOperatorInformation) : IOperatorInformation :=
  {| code := code op; blockType := blockType op; brDepth := brDepth op;
     brTable := brTable op; op_funcIndex := op_funcIndex op;
     op_typeIndex := op_typeIndex op; localIndex := localIndex op;
     globalIndex := globalIndex op; memoryAddress := memoryAddress op;
     literal := Some l |}.

Definition with_brTable (t : list Z) (op : IOperatorInformation) : IOperatorInformation :=
  {| code := code op; blockType := blockType op; brDepth := brDepth op;
     brTable := Some t; op_funcIndex := op_funcIndex op;
     op_typeIndex := op_typeIndex op; localIndex := localIndex op;
     globalIndex := globalIndex op; memoryAddress := memoryAddress op;
     literal := literal op |}.

(** The indices that a loop of [trips] trips from [i] visits *)
Fixpoint indices (trips : nat) (i : Z) : list Z :=
  match trips with
  | O => []
  | S k => i :: indices k (i + 1)
  end.

(** Where an operator may be written *)
Definition in_body (e : Emitter) : Prop :=
  _state e = FunctionBody \/ _state e = InitExpression.

(** The header of a section that has no name *)
Definition section (i : Z) : ISectionInformation := {| id := i; name := [] |}.

(** Sample runs: a type section with the type of the identity on [i32], and
    a function body that holds [nop] and [end] *)
Definition sample_type_section : list IBinaryReaderData :=
  [TYPE_SECTION_ENTRY
     {| form := Type_.func; params := [Type_.i32]; returns := [Type_.i32] |}].

Definition in_type_section : Emitter :=
  final (writeAll (BEGIN_SECTION (section SectionCode.Type_) :: sample_type_section)
           (set_state Wasm constructor)).

Definition sample_body : list IBinaryReaderData :=
  [CODE_OPERATOR (operator OperatorCode.nop);
   CODE_OPERATOR (operator OperatorCode.end_)].

Definition in_sample_body : Emitter :=
  final (writeAll (BEGIN_FUNCTION_BODY {| locals := [] |} :: sample_body)
           (set_state CodeSection constructor)).

End EmitterSpec.

(** ** What the theorems about the disassembler speak of *)

Module DisSpec.
Import JS WasmParser WasmDis Replay.
Local Open Scope string_scope.
Local Open Scope Z_scope.

(** The natural alignment of the loads and stores, as the logarithm of
    the width of the access in bytes *)
Definition integer_accesses : list (Z * Z) :=
  [(OperatorCode.i32_load, 2); (OperatorCode.i64_load, 3);
   (OperatorCode.i32_load8_s, 0); (OperatorCode.i32_load8_u, 0);
   (OperatorCode.i32_load16_s, 1); (OperatorCode.i32_load16_u, 1);
   (OperatorCode.i64_load8_s, 0); (OperatorCode.i64_load8_u, 0);
   (OperatorCode.i64_load16_s, 1); (OperatorCode.i64_load16_u, 1);
   (OperatorCode.i64_load32_s, 2); (OperatorCode.i64_load32_u, 2);
   (OperatorCode.i32_store, 2); (OperatorCode.i64_store, 3);
   (OperatorCode.i32_store8, 0); (OperatorCode.i32_store16, 1);
   (OperatorCode.i64_store8, 0); (OperatorCode.i64_store16, 1);
   (OperatorCode.i64_store32, 2)].

Definition float_accesses : list (Z * Z) :=
  [(OperatorCode.f32_load, 2); (OperatorCode.f64_load, 3);
   (OperatorCode.f32_store, 2); (OperatorCode.f64_store, 3)].

(** [disassemble] leaves its loop with [s] when given trips enough *)
Definition returns `{Externals} {R} `{BinaryReader R}
    (reader : R) (this : WasmDisassembler) (s : Step R) : Prop :=
  exists trips, disassemble trips reader this = Some s.

(** The loop of [disassemble], entered with [reader] and [this], comes
    round to the head of a trip with [reader'] and [this'] *)
Inductive reaches `{Externals} {R : Type} `{BinaryReader R}
  : R -> WasmDisassembler -> R -> WasmDisassembler -> Prop :=
| reaches_here reader this : reaches reader this reader this
| reaches_next reader this reader1 this1 reader' this' :
    disassemble_step reader this = Next reader1 this1 ->
    reaches reader1 this1 reader' this' ->
    reaches reader this reader' this'.

(** [m] leaves the fragments that it found in place, whether it returns
    or throws *)
Definition keeps {A} (m : M A) : Prop :=
  forall d, _buffer d `prefix_of` _buffer (match m d with Ok _ d' | Throw _ d' => d' end).

(** The reader [r] with other events pending *)
Definition with_pending (p : list (option IBinaryReaderData)) (r : Reader) : Reader :=
  {| now := now r; pending := p; skipping := skipping r |}.

(** A stand-in for what WasmParser.ts and the engine supply, enough to run
    examples: the names of a few opcodes, and no text for floats. *)
Definition sample_names (code : Z) : option string :=
  if code =? OperatorCode.nop then Some "nop"
  else if code =? OperatorCode.end_ then Some "end"
  else if code =? OperatorCode.get_local then Some "get_local"
  else if code =? OperatorCode.i32_const then Some "i32_const"
  else if code =? OperatorCode.i32_load then Some "i32_load"
  else None.

Definition sample_externals : Externals := {|
  OperatorCodeNames := sample_names;
  Number_toString _ := EmptyString;
  formatFloat_cast _ := EmptyString;
  Int64_toDouble _ := EmptyString
|}.

End DisSpec.

(** ** What the theorems about the written bytes speak of *)

Module Wire.
Import JS WasmParser Emitter EmitterSpec.

(** An element of a [Uint8Array] *)
Definition is_byte (b : Z) : Prop := 0 <= b < 256.

Definition uint32 (n : Z) : Prop := 0 <= n < 2 ^ 32.

Definition int32 (n : Z) : Prop := - 2 ^ 31 <= n < 2 ^ 31.

(** The signed LEB128 number at the head of [bytes] and the count of
    bytes it takes: as [readVarUint], with the sign in bit 6 of the last
    byte. *)
Fixpoint readVarInt (bytes : list Z) : option (Z * nat) :=
  match bytes with
  | [] => None
  | b :: rest =>
      if Z.land b 0x80 =? 0 then
        Some (if Z.land b 0x40 =? 0 then b else b - 128, 1%nat)
      else match readVarInt rest with
           | Some (v, k) => Some (Z.land b 0x7F + 128 * v, S k)
           | None => None
           end
  end.

(** A decoder takes a value off the head of the bytes and yields it with
    the bytes that follow. *)
Definition decoder (A : Type) : Type := list Z -> option (A * list Z).

Definition dret {A} (a : A) : decoder A := fun bytes => Some (a, bytes).

Definition dbind {A B} (d : decoder A) (k : A -> decoder B) : decoder B :=
  fun bytes => match d bytes with
               | Some (a, rest) => k a rest
               | None => None
               end.

Definition varuint : decoder Z := fun bytes =>
  match readVarUint bytes with
  | Some (n, k) => Some (n, drop k bytes)
  | None => None
  end.

Definition varint : decoder Z := fun bytes =>
  match readVarInt bytes with
  | Some (n, k) => Some (n, drop k bytes)
  | None => None
  end.

(** [n] values in a row *)
Fixpoint many {A} (n : nat) (d : decoder A) : decoder (list A) :=
  match n with
  | O => dret []
  | S k => dbind d (fun a => dbind (many k d) (fun l => dret (a :: l)))
  end.

(** [n] bytes as they are *)
Definition raw (n : nat) : decoder (list Z) := fun bytes =>
  if (n <=? length bytes)%nat then Some (take n bytes, drop n bytes) else None.

(** A string: its length and then its bytes *)
Definition byte_string : decoder (list Z) :=
  dbind varuint (fun n => raw (Z.to_nat n)).

(** A function type: the form, the parameters and the results, each list
    after its length *)
Definition func_type : decoder IFunctionType :=
  dbind varint (fun form =>
  dbind varuint (fun np =>
  dbind (many (Z.to_nat np) varint) (fun params =>
  dbind varuint (fun nr =>
  dbind (many (Z.to_nat nr) varint) (fun returns =>
  dret {| form := form; params := params; returns := returns |}))))).

(** Limits: a flag that tells whether a maximum follows the initial size *)
Definition resizable_limits : decoder IResizableLimits :=
  dbind varuint (fun flags =>
  dbind varuint (fun initial =>
  if flags =? 0 then dret {| initial := initial; maximum := None |}
  else dbind varuint (fun maximum =>
       dret {| initial := initial; maximum := Some maximum |}))).





Definition byte : decoder Z := fun bytes =>
  match bytes with
  | b :: rest => Some (b, rest)
  | [] => None
  end.



(** An import: the two names, the kind, and what the kind asks for *)
Definition import_entry : decoder IImportEntry :=
  dbind byte_string (fun m =>
  dbind byte_string (fun f =>
  dbind byte (fun k =>
  let entry i t :=
    {| module := m; field := f; kind := k; funcTypeIndex := i; type := t |} in
  if k =? ExternalKind.Function then
    dbind varuint (fun i => dret (entry (Some i) None))
  else if k =? ExternalKind.Table then
    dbind varint (fun et =>
    dbind resizable_limits (fun l =>
    dret (entry None (Some (OfTable {| elementType := et; table_limits := l |})))))
  else if k =? ExternalKind.Memory then
    dbind resizable_limits (fun l =>
    dret (entry None (Some (OfMemory {| limits := l |}))))
  else if k =? ExternalKind.Global then
    dbind varint (fun ct =>
    dbind varuint (fun mu =>
    dret (entry None (Some (OfGlobal {| contentType := ct; mutability := mu |})))))
  else fun _ => None))).

Definition limits_in_range (l : IResizableLimits) : Prop :=
  uint32 (initial l) /\ forall m, maximum l = Some m -> uint32 m.

(** An import entry as the parser reports it: the index of the type for
    a function, the type for a table, a memory or a global *)
Definition import_well_formed (entry : IImportEntry) : Prop :=
  len (module entry) < 2 ^ 32 /\ len (field entry) < 2 ^ 32 /\
  ((kind entry = ExternalKind.Function /\ type entry = None /\
    exists i, funcTypeIndex entry = Some i /\ uint32 i) \/
   (kind entry = ExternalKind.Table /\ funcTypeIndex entry = None /\
    exists t, type entry = Some (OfTable t) /\ int32 (elementType t) /\
              limits_in_range (table_limits t)) \/
   (kind entry = ExternalKind.Memory /\ funcTypeIndex entry = None /\
    exists t, type entry = Some (OfMemory t) /\ limits_in_range (limits t)) \/
   (kind entry = ExternalKind.Global /\ funcTypeIndex entry = None /\
    exists t, type entry = Some (OfGlobal t) /\ int32 (contentType t) /\
              uint32 (mutability t))).


(** An import of a table of functions *)
Definition sample_import : IImportEntry :=
  {| module := [101; 110; 118]; field := [116]; kind := ExternalKind.Table;
     funcTypeIndex := None;
     type := Some (OfTable {| elementType := Type_.anyfunc;
                              table_limits := {| initial := 1; maximum := Some 8 |} |}) |}.

End Wire.

(** ** What the theorems about the order of events speak of *)

Module Protocol.
Import JS WasmParser Emitter EmitterSpec.

(** The states in which the handler of an event goes past its check of
    the state; an event that [writeStateAndResult] has no [case] for is
    accepted in none. *)
Definition accepted_in (d : IBinaryReaderData) : list EmitterState :=
  match d with
  | BEGIN_WASM _ => [Initial]
  | END_WASM => [Wasm]
  | BEGIN_SECTION _ => [Wasm]
  | END_SECTION =>
      [TypeSection; ImportSection; FunctionSection; ExportSection;
       CodeSection; MemorySection; GlobalSection; DataSection]
  | TYPE_SECTION_ENTRY _ => [TypeSection]
  | IMPORT_SECTION_ENTRY _ => [ImportSection]
  | FUNCTION_SECTION_ENTRY _ => [FunctionSection]
  | EXPORT_SECTION_ENTRY _ => [ExportSection]
  | BEGIN_FUNCTION_BODY _ => [CodeSection]
  | END_FUNCTION_BODY => [FunctionBody]
  | MEMORY_SECTION_ENTRY _ => [MemorySection]
  | INIT_EXPRESSION_OPERATOR _ | CODE_OPERATOR _ => [FunctionBody; InitExpression]
  | BEGIN_DATA_SECTION_ENTRY _ => [DataSection]
  | DATA_SECTION_ENTRY_BODY _ => [DataSectionEntryBody]
  | END_DATA_SECTION_ENTRY => [DataSectionEntryEnd]
  | BEGIN_INIT_EXPRESSION_BODY => [DataSectionEntry]
  | END_INIT_EXPRESSION_BODY => [InitExpression]
  | _ => []
  end.

(** The states that some method assigns *)
Definition live (s : EmitterState) : bool :=
  match s with
  | CustomSecton | TableSection | StartSection | ElementSection => false
  | _ => true
  end.

Definition Live (e : Emitter) : Prop :=
  live (_state e) = true /\ live (_initExpressionAfterState e) = true.

(** [m] keeps [Live], whether it returns or throws *)
Definition preserves {A} (m : M A) : Prop :=
  forall e, Live e -> Live (final (m e)).

(** What holds, while a section that starts at [start] is open, of the
    bytes [pre] that the buffer held when the section was opened: they are
    still at its head, before the slot of the size, and the slot of an
    open function body lies behind the slot of the count. *)
Record Inside (pre : list Z) (start : Z) (e : Emitter) : Prop := {
  in_section : SectionInv start e;
  in_prefix : pre `prefix_of` _buffer e;
  in_before : len pre <= start - 5;
  in_body_slot : _state e = FunctionBody ->
                 start + 5 <= _bodySizeBytes e /\
                 _bodySizeBytes e + 5 <= len (_buffer e)
}.

(** Two instances that agree on the buffer, on the state, and on the
    fields that are read in that state before they are assigned *)
Record Same (e1 e2 : Emitter) : Prop := {
  same_buffer : _buffer e1 = _buffer e2;
  same_state : _state e1 = _state e2;
  same_section : open_section (_state e1) = true ->
    _sectionStart e1 = _sectionStart e2 /\
    _sectionSizeBytes e1 = _sectionSizeBytes e2 /\
    _sectionEntiesCount e1 = _sectionEntiesCount e2 /\
    _sectionEntiesCountBytes e1 = _sectionEntiesCountBytes e2;
  same_body : _state e1 = FunctionBody ->
    _bodyStart e1 = _bodyStart e2 /\ _bodySizeBytes e1 = _bodySizeBytes e2;
  same_end : _state e1 = FunctionBody \/ _state e1 = InitExpression ->
    _endWritten e1 = _endWritten e2;
  same_after : _state e1 = InitExpression ->
    _initExpressionAfterState e1 = DataSectionEntryBody /\
    _initExpressionAfterState e2 = DataSectionEntryBody
}.

(** [handler], which returned [e1'] on [e1], returns on [e2] as well, and
    the two instances agree afterwards *)
Definition same_step_goal (handler : M unit) (e1 e2 e1' : Emitter) : Prop :=
  exists e2', handler e2 = Ok tt e2' /\ Same e1' e2' /\
              (_data e1 = _data e2 -> _data e1' = _data e2').

(** An emitter that has written a module and is asked for another *)
Definition used_emitter : Emitter :=
  final (writeAll [BEGIN_WASM None; END_WASM] constructor).

End Protocol.

(** ** What the theorems about the text speak of *)

Module Text.
Import JS WasmParser WasmDis DisSpec.
Local Open Scope string_scope.
Local Open Scope Z_scope.

(** The value of a hexadecimal digit in lower case *)
Definition hex_value (c : ascii) : option Z :=
  let n := Z.of_nat (nat_of_ascii c) in
  if (48 <=? n) && (n <=? 57) then Some (n - 48)
  else if (97 <=? n) && (n <=? 102) then Some (n - 87)
  else None.

(** Reading a string of the text format back into bytes: a backslash
    announces two hexadecimal digits, any other character stands for its
    code. *)
Fixpoint unescape (s : string) : option (list Z) :=
  match s with
  | EmptyString => Some []
  | String c rest =>
      if (nat_of_ascii c =? 92)%nat then
        match rest with
        | String h (String l rest') =>
            match hex_value h, hex_value l, unescape rest' with
            | Some hv, Some lv, Some bytes => Some ((16 * hv + lv) :: bytes)
            | _, _, _ => None
            end
        | _ => None
        end
      else
        match unescape rest with
        | Some bytes => Some (Z.of_nat (nat_of_ascii c) :: bytes)
        | None => None
        end
  end.

(** A character that may stand between double quotes: printable ASCII
    other than the double quote *)
Definition plain (c : ascii) : bool :=
  let n := nat_of_ascii c in
  (32 <=? n)%nat && (n <? 127)%nat && negb (n =? 34)%nat.

(** What the loop of [binToString] pushes for one byte *)
Definition escape (byte : Z) : string :=
  if (byte <? 0x20) || (byte >=? 0x7F) || (byte =? 0x22) || (byte =? 0x5c)
  then BS ++ toString16 (sar byte 4) ++ toString16 (band byte 15)
  else fromCharCode byte.

(** Whether [escape byte] is one plain character with the code [byte], or
    a backslash and two hexadecimal digits with the value [byte] *)
Definition escape_ok (byte : Z) : bool :=
  match escape byte with
  | String c EmptyString =>
      negb (nat_of_ascii c =? 92)%nat && plain c && (Z.of_nat (nat_of_ascii c) =? byte)
  | String c (String h (String l EmptyString)) =>
      (nat_of_ascii c =? 92)%nat && plain h && plain l &&
      match hex_value h, hex_value l with
      | Some hv, Some lv => 16 * hv + lv =? byte
      | _, _ => false
      end
  | _ => false
  end.

Definition chars (s : string) : list ascii := list_ascii_of_string s.

(** The instance as a piece of a method left it, returning or throwing *)
Definition after {A} (o : Outcome A) : WasmDisassembler :=
  match o with Ok _ d | Throw _ d => d end.

(** [m] relates the instance it finds to the one it leaves by [Rel] *)
Definition respects (Rel : WasmDisassembler -> WasmDisassembler -> Prop)
    {A} (m : M A) : Prop :=
  forall d, Rel d (after (m d)).



Fixpoint spaces (n : nat) : string :=
  match n with
  | O => EmptyString
  | S k => String " " (spaces k)
  end.


(** The line of the local variable [index] of the type named [t] *)
Definition local_line (index : Z) (t : string) : string :=
  "    (local $var" ++ toString index ++ " " ++ t ++ ")" ++ LF.

Fixpoint local_lines (index : Z) (names : list string) : list string :=
  match names with
  | [] => []
  | t :: rest => local_line index t :: local_lines (index + 1) rest
  end.

(** The types of the locals of a function, one for each local *)
Definition expand (locals : list ILocals) : list Z :=
  flat_map (fun l => replicate (Z.to_nat (count l)) (local_type l)) locals.

(** The names of [types], or the error of the first that has none *)
Fixpoint type_names (types : list Z) : Exception + list string :=
  match types with
  | [] => inr []
  | t :: rest =>
      ebind (typeToString t) (fun s =>
      ebind (type_names rest) (fun l => inr (s :: l)))
  end.

(** The tables and the counters of [d'] continue those of [d]. *)
Record grows (d d' : WasmDisassembler) : Prop := {
  grows_types : _types d `prefix_of` _types d';
  grows_funcTypes : _funcTypes d `prefix_of` _funcTypes d';
  grows_funcIndex : _funcIndex d <= _funcIndex d';
  grows_importCount : _importCount d <= _importCount d';
  grows_globalCount : _globalCount d <= _globalCount d';
  grows_tableCount : _tableCount d <= _tableCount d'
}.

(** The instance that a trip of the loop leaves *)
Definition this_of {R} (s : Step R) : WasmDisassembler :=
  match s with Next _ d | Return _ _ d | Throws _ _ d => d end.

(** The types that [typeToString] has a name for *)
Definition known_type (t : Z) : bool :=
  case_of t [Type_.i32; Type_.i64; Type_.f32; Type_.f64; Type_.anyfunc].

(** [r] is a value when [ok], and the error [Unexpected type] otherwise. *)
Definition prints {A} (ok : bool) (r : Exception + A) : Prop :=
  if ok then exists a, r = inr a else r = inl UnexpectedType.

(** A function body with two locals of type [i32] and one of type [f64] *)
Definition sample_locals : list ILocals :=
  [{| count := 2; local_type := Type_.i32 |};
   {| count := 1; local_type := Type_.f64 |}].

(** An instance at the beginning of a function body *)
Definition in_body_text : WasmDisassembler :=
  set_indentLevel 0 (set_indent (Some "    ") constructor).

End Text.

(** * Proofs *)

(** ** The 32-bit operators *)

Module JSFacts.
Import JS.

Lemma ToInt32_id n : -2 ^ 31 <= n < 2 ^ 31 -> ToInt32 n = n.
Proof.
  intros Hn. unfold ToInt32.
  destruct (Z.ltb_spec (n mod 2 ^ 32) (2 ^ 31)) as [Hlt | Hge].
  - destruct (Z.le_gt_cases 0 n) as [Hpos | Hneg].
    + apply Z.mod_small. lia.
    + rewrite <- (Z.mod_add n 1 (2 ^ 32)) in Hlt by lia.
      rewrite Z.mod_small in Hlt by lia. lia.
  - destruct (Z.le_gt_cases 0 n) as [Hpos | Hneg].
    + rewrite Z.mod_small in Hge by lia. lia.
    + rewrite <- (Z.mod_add n 1 (2 ^ 32)) by lia.
      rewrite Z.mod_small by lia. lia.
Qed.

Lemma ToInt32_range n : -2 ^ 31 <= ToInt32 n < 2 ^ 31.
Proof.
  unfold ToInt32. pose proof (Z.mod_pos_bound n (2 ^ 32) ltac:(lia)).
  destruct (Z.ltb_spec (n mod 2 ^ 32) (2 ^ 31)); lia.
Qed.

Lemma ToInt32_mod n k : 0 <= k <= 32 -> ToInt32 n mod 2 ^ k = n mod 2 ^ k.
Proof.
  intros Hk. unfold ToInt32.
  assert (Hdiv : 2 ^ 32 = 2 ^ k * 2 ^ (32 - k)).
  { rewrite <- Z.pow_add_r by lia. f_equal. lia. }
  assert (Hmm : (n mod 2 ^ 32) mod 2 ^ k = n mod 2 ^ k).
  { rewrite Hdiv. rewrite Z.rem_mul_r by lia.
    rewrite Z.mul_comm, Z.mod_add by lia. apply Z.mod_mod. lia. }
  destruct (Z.ltb_spec (n mod 2 ^ 32) (2 ^ 31)); [exact Hmm |].
  rewrite <- Hmm. rewrite Hdiv at 2.
  replace (n mod 2 ^ 32 - 2 ^ k * 2 ^ (32 - k))
    with (n mod 2 ^ 32 + (- 2 ^ (32 - k)) * 2 ^ k) by lia.
  apply Z.mod_add. lia.
Qed.

Lemma band_0x7f n : band n 0x7f = n mod 128.
Proof.
  unfold band. rewrite (ToInt32_id 0x7f) by lia.
  change 0x7f with (Z.ones 7). rewrite Z.land_ones by lia.
  rewrite (ToInt32_mod n 7) by lia.
  change (2 ^ 7) with 128.
  apply ToInt32_id. pose proof (Z.mod_pos_bound n 128 ltac:(lia)). lia.
Qed.

Lemma bor_0x80 x : 0 <= x < 128 -> bor 0x80 x = 128 + x.
Proof.
  intros Hx. unfold bor.
  rewrite (ToInt32_id 0x80), (ToInt32_id x) by lia.
  assert (Hland : Z.land 0x80 x = 0).
  { assert (Hx7 : Z.land x (Z.ones 7) = x)
      by (rewrite Z.land_ones, Z.mod_small; lia).
    rewrite <- Hx7, (Z.land_comm x), Z.land_assoc. reflexivity. }
  pose proof (Z.add_lor_land 0x80 x) as Hadd. rewrite Hland in Hadd.
  rewrite ToInt32_id; lia.
Qed.

Lemma shr_div n k : 0 <= k < 32 -> shr n k = (n mod 2 ^ 32) / 2 ^ k.
Proof.
  intros Hk. unfold shr, ToUint32.
  rewrite (Z.mod_small k) by lia. rewrite (Z.mod_small k) by lia.
  apply Z.shiftr_div_pow2. lia.
Qed.

Lemma sar_div n k : 0 <= k < 32 -> sar n k = ToInt32 n / 2 ^ k.
Proof.
  intros Hk. unfold sar, ToUint32.
  rewrite (Z.mod_small k) by lia. rewrite (Z.mod_small k) by lia.
  apply Z.shiftr_div_pow2. lia.
Qed.

(** [n & ~0x7F] is zero exactly when the 32-bit value of [n] is below 128. *)
Lemma band_bnot_0x7F n :
  (band n (bnot 0x7F) =? 0) = (0 <=? ToInt32 n) && (ToInt32 n <? 128).
Proof.
  unfold band.
  assert (Hmask : ToInt32 (bnot 0x7F) = Z.lnot (Z.ones 7)) by reflexivity.
  rewrite Hmask.
  rewrite <- Z.ldiff_land, Z.ldiff_ones_r by lia.
  rewrite Z.shiftr_div_pow2, Z.shiftl_mul_pow2 by lia.
  pose proof (ToInt32_range n) as Hr.
  rewrite ToInt32_id.
  2:{ pose proof (Z.mul_div_le (ToInt32 n) (2 ^ 7) ltac:(lia)).
      pose proof (Z.mod_pos_bound (ToInt32 n) (2 ^ 7) ltac:(lia)).
      pose proof (Z.div_mod (ToInt32 n) (2 ^ 7) ltac:(lia)). lia. }
  pose proof (Z.div_mod (ToInt32 n) (2 ^ 7) ltac:(lia)).
  pose proof (Z.mod_pos_bound (ToInt32 n) (2 ^ 7) ltac:(lia)).
  destruct (Z.eqb_spec (ToInt32 n / 2 ^ 7 * 2 ^ 7) 0);
    destruct (Z.leb_spec 0 (ToInt32 n)); destruct (Z.ltb_spec (ToInt32 n) 128);
    simpl; try reflexivity; lia.
Qed.

End JSFacts.

(** ** The emitter *)

Module EmitterFacts.
Import JS WasmParser Emitter EmitterSpec JSFacts.

Lemma append_nil e : append [] e = e.
Proof. destruct e. unfold append, set_buffer. simpl. by rewrite app_nil_r. Qed.

Lemma append_append a b e : append b (append a e) = append (a ++ b) e.
Proof. destruct e. unfold append, set_buffer. simpl. by rewrite app_assoc. Qed.

Lemma writer_ret {A} (a : A) : writer (ret a) [] (inr a).
Proof. intros e. by rewrite append_nil. Qed.

Lemma writer_throw {A} x : writer (@throw A x) [] (inl x).
Proof. intros e. by rewrite append_nil. Qed.

Lemma writer_writeByte b : writer (writeByte b) [b] (inr tt).
Proof. intros e. reflexivity. Qed.

Lemma writer_bind {A B} (m : M A) (k : A -> M B) bs a bs' r :
  writer m bs (inr a) -> writer (k a) bs' r -> writer (bind m k) (bs ++ bs') r.
Proof.
  intros Hm Hk e. unfold bind. rewrite Hm, Hk.
  destruct r; by rewrite append_append.
Qed.

Lemma writer_bind_throw {A B} (m : M A) (k : A -> M B) bs x :
  writer m bs (inl x) -> writer (bind m k) bs (inl x).
Proof. intros Hm e. unfold bind. by rewrite Hm. Qed.

Lemma writer_appended {A} (m : M A) bs r : writer m bs r -> appended m = bs.
Proof. intros Hm. unfold appended. rewrite Hm. by destruct r. Qed.

Lemma writer_unique {A} (m : M A) bs r bs' r' :
  writer m bs r -> writer m bs' r' -> bs = bs' /\ r = r'.
Proof.
  intros H1 H2. pose proof (H1 constructor) as E1. rewrite H2 in E1.
  destruct r, r'; inversion E1; auto.
Qed.

(** *** The two LEB128 loops *)

Lemma writeVarUint_while_writer trips n :
  exists bs, bs <> [] /\ writer (writeVarUint_while trips n) bs (inr tt).
Proof.
  revert n. induction trips as [| k IH]; intros n; simpl.
  - exists [n]. split; [done | apply writer_writeByte].
  - destruct (band n (bnot 127) =? 0).
    + exists [n]. split; [done | apply writer_writeByte].
    + destruct (IH (shr n 7)) as (bs & _ & Hbs).
      exists ([bor 128 (band n 127)] ++ bs). split; [done |].
      eapply writer_bind; [apply writer_writeByte | exact Hbs].
Qed.

Lemma writeVarUint_writer n :
  exists bs, bs <> [] /\ writer (writeVarUint n) bs (inr tt).
Proof. apply writeVarUint_while_writer. Qed.

Lemma writeVarUint_appended n : writer (writeVarUint n) (appended (writeVarUint n)) (inr tt).
Proof.
  destruct (writeVarUint_writer n) as (bs & _ & Hbs).
  by rewrite (writer_appended _ _ _ Hbs).
Qed.

Lemma writeVarInt_while_writer trips test n :
  exists bs, bs <> [] /\ writer (writeVarInt_while trips test n) bs (inr tt).
Proof.
  revert n. induction trips as [| k IH]; intros n; simpl.
  - eexists. split; [| apply writer_writeByte]. done.
  - destruct (sar n 6 =? test).
    + eexists. split; [| apply writer_writeByte]. done.
    + destruct (IH (sar n 7)) as (bs & _ & Hbs).
      exists ([bor 128 (band n 127)] ++ bs). split; [done |].
      eapply writer_bind; [apply writer_writeByte | exact Hbs].
Qed.

Lemma writeVarInt_writer n :
  exists bs, bs <> [] /\ writer (writeVarInt n) bs (inr tt).
Proof. apply writeVarInt_while_writer. Qed.

Lemma writeVarUint_while_S k n :
  writeVarUint_while (S k) n =
  if band n (bnot 0x7F) =? 0 then writeByte n
  else bind (writeByte (bor 0x80 (band n 0x7f)))
            (fun _ => writeVarUint_while k (shr n 7)).
Proof. reflexivity. Qed.

(** The guard of [writeVarUint] fails before the trips run out: more
    trips change nothing. *)
Lemma writeVarUint_while_enough f j n :
  0 <= n < 2 ^ (7 * Z.of_nat f) ->
  writeVarUint_while (f + j) n = writeVarUint_while f n.
Proof.
  revert n. induction f as [| f IH]; intros n Hn.
  - assert (n = 0) by (change (2 ^ (7 * Z.of_nat 0)) with 1 in Hn; lia). subst n.
    destruct j; reflexivity.
  - change (S f + j)%nat with (S (f + j)). rewrite !writeVarUint_while_S.
    destruct (band n (bnot 127) =? 0); [reflexivity |].
    rewrite IH; [reflexivity |].
    rewrite shr_div by lia.
    replace (7 * Z.of_nat (S f)) with (7 + 7 * Z.of_nat f) in Hn by lia.
    rewrite Z.pow_add_r in Hn by lia.
    assert (HP : 0 < 2 ^ (7 * Z.of_nat f)) by (apply Z.pow_pos_nonneg; lia).
    generalize dependent (2 ^ (7 * Z.of_nat f)). intros P HP Hn.
    pose proof (Z.mod_pos_bound n (2 ^ 32) ltac:(lia)).
    pose proof (Z.mod_le n (2 ^ 32) ltac:(lia) ltac:(lia)).
    split; [apply Z.div_pos; lia |].
    apply Z.div_lt_upper_bound; lia.
Qed.

Lemma writeVarUint_trips j n : writeVarUint_while (5 + j) n = writeVarUint n.
Proof.
  unfold writeVarUint. change (5 + j)%nat with (S (4 + j)).
  change 5%nat with (S 4). rewrite !writeVarUint_while_S.
  destruct (band n (bnot 127) =? 0); [reflexivity |].
  rewrite (writeVarUint_while_enough 4 j); [reflexivity |].
  rewrite shr_div by lia.
  pose proof (Z.mod_pos_bound n (2 ^ 32) ltac:(lia)).
  split; [apply Z.div_pos; lia |].
  apply Z.div_lt_upper_bound; lia.
Qed.

Lemma writeVarInt_while_S k test n :
  writeVarInt_while (S k) test n =
  if sar n 6 =? test then writeByte (band n 0x7f)
  else bind (writeByte (bor 0x80 (band n 0x7f)))
            (fun _ => writeVarInt_while k test (sar n 7)).
Proof. reflexivity. Qed.

Lemma writeVarInt_while_enough f j test n :
  - 2 ^ 31 <= n < 2 ^ 31 ->
  - 2 ^ (7 * Z.of_nat f + 6) <= n < 2 ^ (7 * Z.of_nat f + 6) ->
  test = (if n <? 0 then -1 else 0) ->
  writeVarInt_while (f + j) test n = writeVarInt_while f test n.
Proof.
  revert n. induction f as [| f IH]; intros n Hr Hn Ht.
  - change (2 ^ (7 * Z.of_nat 0 + 6)) with 64 in Hn.
    destruct j; [reflexivity |]. change (0 + S j)%nat with (S j).
    rewrite writeVarInt_while_S.
    rewrite sar_div, ToInt32_id by lia. change (2 ^ 6) with 64.
    assert (Hq : n / 64 = test).
    { subst test. destruct (Z.ltb_spec n 0).
      - assert (-1 <= n / 64) by (apply Z.div_le_lower_bound; lia).
        assert (n / 64 < 0) by (apply Z.div_lt_upper_bound; lia). lia.
      - apply Z.div_small. lia. }
    rewrite Hq, Z.eqb_refl. reflexivity.
  - change (S f + j)%nat with (S (f + j)). rewrite !writeVarInt_while_S.
    destruct (sar n 6 =? test); [reflexivity |].
    rewrite IH; [reflexivity | | |].
    + rewrite sar_div, ToInt32_id by lia. change (2 ^ 7) with 128.
      split; [apply Z.div_le_lower_bound; lia | apply Z.div_lt_upper_bound; lia].
    + rewrite sar_div, ToInt32_id by lia.
      replace (7 * Z.of_nat (S f) + 6) with (7 + (7 * Z.of_nat f + 6)) in Hn by lia.
      rewrite Z.pow_add_r in Hn by lia.
      assert (HP : 0 < 2 ^ (7 * Z.of_nat f + 6)) by (apply Z.pow_pos_nonneg; lia).
      revert HP Hn. generalize (2 ^ (7 * Z.of_nat f + 6)). intros P HP Hn.
      split; [apply Z.div_le_lower_bound; lia | apply Z.div_lt_upper_bound; lia].
    + rewrite sar_div, ToInt32_id by lia. subst test. change (2 ^ 7) with 128.
      destruct (Z.ltb_spec n 0), (Z.ltb_spec (n / 128) 0); try reflexivity.
      * assert (n / 128 < 0) by (apply Z.div_lt_upper_bound; lia). lia.
      * assert (0 <= n / 128) by (apply Z.div_pos; lia). lia.
Qed.

Lemma writeVarInt_trips j n :
  writeVarInt_while (5 + j) (sar (bor n 0) 31) (bor n 0) = writeVarInt n.
Proof.
  unfold writeVarInt.
  assert (Hr : - 2 ^ 31 <= bor n 0 < 2 ^ 31) by apply ToInt32_range.
  apply (writeVarInt_while_enough 5 j); [exact Hr | simpl; lia |].
  rewrite sar_div, ToInt32_id by lia.
  destruct (Z.ltb_spec (bor n 0) 0).
  - assert (-1 <= bor n 0 / 2 ^ 31) by (apply Z.div_le_lower_bound; lia).
    assert (bor n 0 / 2 ^ 31 < 0) by (apply Z.div_lt_upper_bound; lia). lia.
  - apply Z.div_small. lia.
Qed.

(** *** Patching a slot *)

Lemma set_buffer_twice a b e : set_buffer a (set_buffer b e) = set_buffer a e.
Proof. reflexivity. Qed.

Lemma patchVarUint32_patched pos n e :
  patchVarUint32 pos n e = Ok tt (set_buffer (patched (_buffer e) pos n) e).
Proof. reflexivity. Qed.

Lemma len_app {A} (a b : list A) : len (a ++ b) = len a + len b.
Proof. unfold len. rewrite length_app. lia. Qed.

Lemma array_set_middle pre x post b :
  array_set (pre ++ x :: post) (len pre) b = pre ++ b :: post.
Proof.
  unfold array_set. pose proof (len_app pre (x :: post)) as Hl.
  unfold len in *. simpl length in Hl.
  destruct (Z.ltb_spec (Z.of_nat (length pre)) 0); [lia |].
  destruct (Z.ltb_spec (Z.of_nat (length pre)) (Z.of_nat (length (pre ++ x :: post)))); [| lia].
  rewrite Nat2Z.id.
  rewrite insert_app_r_alt by lia. rewrite Nat.sub_diag. reflexivity.
Qed.

Lemma array_set_at pre mid x post b k :
  k = len pre + len mid ->
  array_set (pre ++ mid ++ x :: post) k b = pre ++ mid ++ b :: post.
Proof.
  intros ->. rewrite <- len_app, !app_assoc. apply array_set_middle.
Qed.

Lemma patched_slot pre a0 a1 a2 a3 a4 post n :
  patched (pre ++ a0 :: a1 :: a2 :: a3 :: a4 :: post) (len pre) n =
  pre ++ bor 0x80 (band n 0x7F) :: bor 0x80 (band (shr n 7) 0x7F)
      :: bor 0x80 (band (shr n 14) 0x7F) :: bor 0x80 (band (shr n 21) 0x7F)
      :: band (shr n 28) 0x7F :: post.
Proof.
  unfold patched.
  set (b0 := bor 128 (band n 127)). set (b1 := bor 128 (band (shr n 7) 127)).
  set (b2 := bor 128 (band (shr n 14) 127)).
  set (b3 := bor 128 (band (shr n 21) 127)). set (b4 := band (shr n 28) 127).
  rewrite array_set_middle.
  pose proof (array_set_at pre [b0] a1 (a2 :: a3 :: a4 :: post) b1
                (len pre + 1) eq_refl) as E1.
  pose proof (array_set_at pre [b0; b1] a2 (a3 :: a4 :: post) b2
                (len pre + 2) eq_refl) as E2.
  pose proof (array_set_at pre [b0; b1; b2] a3 (a4 :: post) b3
                (len pre + 3) eq_refl) as E3.
  pose proof (array_set_at pre [b0; b1; b2; b3] a4 post b4
                (len pre + 4) eq_refl) as E4.
  cbn [app] in E1, E2, E3, E4.
  by rewrite E1, E2, E3, E4.
Qed.

(** Every list that holds five elements from [pos] on splits around them. *)
Lemma split_slot (buffer : list Z) pos :
  0 <= pos -> pos + 5 <= len buffer ->
  exists pre a0 a1 a2 a3 a4 post,
    buffer = pre ++ a0 :: a1 :: a2 :: a3 :: a4 :: post /\ len pre = pos.
Proof.
  intros Hpos Hlen. unfold len in *.
  exists (take (Z.to_nat pos) buffer).
  assert (Hd : (5 <= length (drop (Z.to_nat pos) buffer))%nat)
    by (rewrite length_drop; lia).
  destruct (drop (Z.to_nat pos) buffer) as [| a0 [| a1 [| a2 [| a3 [| a4 post]]]]] eqn:E;
    simpl in Hd; try lia.
  exists a0, a1, a2, a3, a4, post. split.
  - rewrite <- E. by rewrite take_drop.
  - rewrite length_take. lia.
Qed.

Lemma slot_app pre rest : slot (pre ++ rest) (len pre) = readVarUint rest.
Proof.
  unfold slot, len. rewrite Nat2Z.id. by rewrite drop_app_length.
Qed.

(** The five bytes that [patchVarUint32] stores read back as [n]. *)
Lemma readVarUint_patch n post :
  0 <= n < 2 ^ 32 ->
  readVarUint (bor 0x80 (band n 0x7F) :: bor 0x80 (band (shr n 7) 0x7F)
      :: bor 0x80 (band (shr n 14) 0x7F) :: bor 0x80 (band (shr n 21) 0x7F)
      :: band (shr n 28) 0x7F :: post) = Some (n, 5%nat).
Proof.
  intros Hn.
  rewrite !band_0x7f, !shr_div by lia. rewrite (Z.mod_small n (2 ^ 32)) by lia.
  assert (Hcont : forall x, 0 <= x < 128 ->
            (Z.land (bor 0x80 x) 0x80 =? 0) = false /\
            Z.land (bor 0x80 x) 0x7F = x /\ (Z.land x 0x80 =? 0) = true).
  { assert (HF : forallb (fun x => negb (Z.land (bor 0x80 x) 0x80 =? 0) &&
                                   (Z.land (bor 0x80 x) 0x7F =? x) &&
                                   (Z.land x 0x80 =? 0))
                   (map Z.of_nat (seq 0 128)) = true) by (vm_compute; reflexivity).
    rewrite forallb_forall in HF. intros x Hx.
    specialize (HF x). rewrite in_map_iff in HF.
    assert (Hx' : exists k, Z.of_nat k = x /\ In k (seq 0 128))
      by (exists (Z.to_nat x); split; [lia | apply in_seq; lia]).
    specialize (HF Hx'). apply andb_prop in HF as [HF H3].
    apply andb_prop in HF as [H1 H2].
    split; [by destruct (Z.land (bor 128 x) 128 =? 0) |].
    split; [by apply Z.eqb_eq | done]. }
  assert (Hm : forall x, 0 <= x mod 128 < 128) by (intros; apply Z.mod_pos_bound; lia).
  cbn [readVarUint].
  destruct (Hcont _ (Hm n)) as (-> & -> & _).
  destruct (Hcont _ (Hm (n / 2 ^ 7))) as (-> & -> & _).
  destruct (Hcont _ (Hm (n / 2 ^ 14))) as (-> & -> & _).
  destruct (Hcont _ (Hm (n / 2 ^ 21))) as (-> & -> & _).
  assert (Hlast : 0 <= n / 2 ^ 28 < 128).
  { split; [apply Z.div_pos; lia | apply Z.div_lt_upper_bound; lia]. }
  rewrite (Z.mod_small (n / 2 ^ 28)) by exact Hlast.
  destruct (Hcont _ Hlast) as (_ & _ & ->).
  f_equal. f_equal.
  assert (E1 : n / 2 ^ 14 = n / 128 / 128)
    by (rewrite Z.div_div by lia; reflexivity).
  assert (E2 : n / 2 ^ 21 = n / 128 / 128 / 128)
    by (rewrite !Z.div_div by lia; reflexivity).
  assert (E3 : n / 2 ^ 28 = n / 128 / 128 / 128 / 128)
    by (rewrite !Z.div_div by lia; reflexivity).
  rewrite E1, E2, E3. change (2 ^ 7) with 128.
  pose proof (Z.div_mod n 128 ltac:(lia)).
  pose proof (Z.div_mod (n / 128) 128 ltac:(lia)).
  pose proof (Z.div_mod (n / 128 / 128) 128 ltac:(lia)).
  pose proof (Z.div_mod (n / 128 / 128 / 128) 128 ltac:(lia)).
  lia.
Qed.

(** *** Writers *)

Lemma is_writer1_is_writer {A} (m : M A) : is_writer1 m -> is_writer m.
Proof. intros (bs & r & H & _). by exists bs, r. Qed.

Lemma is_writer_ret {A} (a : A) : is_writer (ret a).
Proof. eexists _, _. apply writer_ret. Qed.

Lemma is_writer_throw {A} x : is_writer (@throw A x).
Proof. eexists _, _. apply writer_throw. Qed.

Lemma is_writer1_writeByte b : is_writer1 (writeByte b).
Proof. exists [b], (inr tt). split; [apply writer_writeByte | done]. Qed.

Lemma is_writer_bind {A B} (m : M A) (k : A -> M B) :
  is_writer m -> (forall a, is_writer (k a)) -> is_writer (bind m k).
Proof.
  intros (bs & [x | a] & Hm) Hk.
  - eexists _, _. by apply writer_bind_throw.
  - destruct (Hk a) as (bs' & r & Hka). eexists _, _. by eapply writer_bind.
Qed.

Lemma is_writer1_bind_l {A B} (m : M A) (k : A -> M B) :
  is_writer1 m -> (forall a, is_writer (k a)) -> is_writer1 (bind m k).
Proof.
  intros (bs & [x | a] & Hm & Hne) Hk.
  - eexists _, _. split; [by apply writer_bind_throw | done].
  - destruct (Hk a) as (bs' & r & Hka). exists (bs ++ bs'), r.
    split; [by eapply writer_bind |].
    intros b _ Hnil. apply app_eq_nil in Hnil as [Hnil _]. by eapply Hne.
Qed.

Lemma is_writer1_bind_r {A B} (m : M A) (k : A -> M B) :
  is_writer m -> (forall a, is_writer1 (k a)) -> is_writer1 (bind m k).
Proof.
  intros (bs & [x | a] & Hm) Hk.
  - eexists _, _. split; [by apply writer_bind_throw | done].
  - destruct (Hk a) as (bs' & r & Hka & Hne). exists (bs ++ bs'), r.
    split; [by eapply writer_bind |].
    intros b Hr Hnil. apply app_eq_nil in Hnil as [_ Hnil]. by eapply Hne.
Qed.

Lemma is_writer_for_loop trips i body :
  (forall j, is_writer (body j)) -> is_writer (for_loop trips i body).
Proof.
  intros Hbody. revert i. induction trips as [| k IH]; intros i; simpl.
  - apply is_writer_ret.
  - apply is_writer_bind; [apply Hbody | intros _; apply IH].
Qed.

Lemma is_writer_defined {A} (o : option A) : is_writer (defined o).
Proof. destruct o; [apply is_writer_ret | apply is_writer_throw]. Qed.

Lemma is_writer1_writeVarUint n : is_writer1 (writeVarUint n).
Proof.
  destruct (writeVarUint_writer n) as (bs & Hne & Hw).
  exists bs, (inr tt). by split.
Qed.

Lemma is_writer1_writeVarInt n : is_writer1 (writeVarInt n).
Proof.
  destruct (writeVarInt_writer n) as (bs & Hne & Hw).
  exists bs, (inr tt). by split.
Qed.

Ltac writer_step :=
  first [ apply is_writer_ret | apply is_writer_throw | apply is_writer_defined
        | apply is_writer1_is_writer;
          first [ apply is_writer1_writeByte | apply is_writer1_writeVarUint
                | apply is_writer1_writeVarInt ]
        | apply is_writer_for_loop; intros ?
        | match goal with
          | |- is_writer (if ?c then _ else _) => destruct c
          | |- is_writer (match ?o with _ => _ end) => destruct o
          end
        | apply is_writer_bind; [| intros ?] ].

Lemma is_writer_writeBytes bytes s e : is_writer (writeBytes bytes s e).
Proof. unfold writeBytes, for_range. repeat writer_step. Qed.

Lemma is_writer1_writeString str : is_writer1 (writeString str).
Proof.
  unfold writeString. apply is_writer1_bind_l; [apply is_writer1_writeVarUint |].
  intros _. apply is_writer_writeBytes.
Qed.

Lemma is_writer1_writeFuncType type : is_writer1 (writeFuncType type).
Proof.
  unfold writeFuncType, for_range.
  apply is_writer1_bind_l; [apply is_writer1_writeVarInt | intros _].
  repeat writer_step.
Qed.

Lemma is_writer1_writeResizableLimits limits : is_writer1 (writeResizableLimits limits).
Proof.
  unfold writeResizableLimits.
  apply is_writer1_bind_r; [apply is_writer_defined | intros l].
  apply is_writer1_bind_l; [apply is_writer1_writeVarUint | intros _].
  apply is_writer_bind; [repeat writer_step | intros _].
  destruct (_ =? 0); repeat writer_step.
Qed.

Lemma is_writer1_writeMemoryType type : is_writer1 (writeMemoryType type).
Proof.
  unfold writeMemoryType.
  apply is_writer1_bind_r; [apply is_writer_defined | intros l].
  apply is_writer1_writeResizableLimits.
Qed.

Lemma is_writer_writeTableType type : is_writer (writeTableType type).
Proof. unfold writeTableType. repeat writer_step. Qed.

Lemma is_writer_writeGlobalType type : is_writer (writeGlobalType type).
Proof. unfold writeGlobalType. repeat writer_step. Qed.

Lemma is_writer_writeMemoryImmediate a : is_writer (writeMemoryImmediate a).
Proof. unfold writeMemoryImmediate. repeat writer_step. Qed.

Lemma is_writer_writeVarInt64 n : is_writer (writeVarInt64 n).
Proof.
  unfold writeVarInt64. destruct n as [[] |]; try apply is_writer_throw.
  apply is_writer_writeBytes.
Qed.

Lemma is_writer_writeFloat32 n : is_writer (writeFloat32 n).
Proof. apply is_writer_writeBytes. Qed.

Lemma is_writer_writeFloat64 n : is_writer (writeFloat64 n).
Proof. apply is_writer_writeBytes. Qed.

(** *** What each handler does when it returns *)

Lemma EmitterState_eqb_spec a b : reflect (a = b) (EmitterState_eqb a b).
Proof. destruct a, b; constructor; congruence. Qed.

Lemma ensureState_bind {A} st (k : unit -> M A) e r :
  bind (ensureState st) k e = r ->
  (_state e = st /\ k tt e = r) \/
  (_state e <> st /\ r = Throw (UnexpectedState (_state e) st) e).
Proof.
  unfold bind, ensureState.
  destruct (EmitterState_eqb_spec (_state e) st); intros <-; auto.
Qed.

Ltac ensure H :=
  apply ensureState_bind in H as [[?Hst H] | [_ H]]; [| discriminate H];
  cbv beta in H.

Ltac use_writer H lemma :=
  let bs := fresh "bs" in let r := fresh "r" in
  let HW := fresh "HW" in
  destruct lemma as (bs & r & HW);
  rewrite HW in H; destruct r as [? | []]; [discriminate H |];
  injection H as <-.

(** The five entry events whose handler checks the state, counts the
    entry and writes it *)
Lemma entry_handler st (W : M unit) e e' :
  is_writer1 W ->
  bind (ensureState st) (fun _ => bind incrementSectionEntiesCount (fun _ => W)) e
    = Ok tt e' ->
  _state e = st /\
  exists bs, bs <> [] /\
    e' = append bs (set_sectionEntiesCount (_sectionEntiesCount e + 1) e).
Proof.
  intros (bs & r & HW & Hne) H. ensure H. split; [done |].
  unfold bind, incrementSectionEntiesCount, modify in H. rewrite HW in H.
  destruct r as [? | []]; [discriminate H |]. injection H as <-.
  exists bs. split; [by eapply Hne | done].
Qed.

Lemma writeTypeSectionEntry_ok type e e' :
  writeTypeSectionEntry type e = Ok tt e' ->
  _state e = TypeSection /\
  exists bs, bs <> [] /\
    e' = append bs (set_sectionEntiesCount (_sectionEntiesCount e + 1) e).
Proof. apply entry_handler, is_writer1_writeFuncType. Qed.

Lemma writeImportSectionEntry_ok entry e e' :
  writeImportSectionEntry entry e = Ok tt e' ->
  _state e = ImportSection /\
  exists bs, bs <> [] /\
    e' = append bs (set_sectionEntiesCount (_sectionEntiesCount e + 1) e).
Proof.
  apply entry_handler.
  apply is_writer1_bind_l; [apply is_writer1_writeString | intros _].
  apply is_writer_bind; [apply is_writer1_is_writer, is_writer1_writeString | intros _].
  apply is_writer_bind; [repeat writer_step | intros _].
  repeat writer_step.
Qed.

Lemma writeFunctionSectionEntry_ok entry e e' :
  writeFunctionSectionEntry entry e = Ok tt e' ->
  _state e = FunctionSection /\
  exists bs, bs <> [] /\
    e' = append bs (set_sectionEntiesCount (_sectionEntiesCount e + 1) e).
Proof. apply entry_handler, is_writer1_writeVarUint. Qed.

Lemma writeExportSectionEntry_ok entry e e' :
  writeExportSectionEntry entry e = Ok tt e' ->
  _state e = ExportSection /\
  exists bs, bs <> [] /\
    e' = append bs (set_sectionEntiesCount (_sectionEntiesCount e + 1) e).
Proof.
  apply entry_handler.
  apply is_writer1_bind_l; [apply is_writer1_writeString | intros _].
  repeat writer_step.
Qed.

Lemma writeMemorySectionEntry_ok entry e e' :
  writeMemorySectionEntry entry e = Ok tt e' ->
  _state e = MemorySection /\
  exists bs, bs <> [] /\
    e' = append bs (set_sectionEntiesCount (_sectionEntiesCount e + 1) e).
Proof. apply entry_handler, is_writer1_writeMemoryType. Qed.

Lemma writeBeginFunctionBody_ok functionInfo e e' :
  writeBeginFunctionBody functionInfo e = Ok tt e' ->
  _state e = CodeSection /\
  exists bs,
    e' = append bs
           (set_state FunctionBody
             (set_endWritten false
               (set_bodyStart (len (_buffer e) + 5)
                 (set_bodySizeBytes (len (_buffer e))
                   (append slot5
                      (set_sectionEntiesCount (_sectionEntiesCount e + 1) e)))))).
Proof.
  unfold writeBeginFunctionBody. intros H.
  set (W := bind (writeVarUint (len (locals functionInfo))) _) in H.
  assert (HW : is_writer W) by (subst W; unfold for_range; repeat writer_step).
  clearbody W. ensure H. split; [done |].
  cbv [bind incrementSectionEntiesCount modify writePatchableVarUint32
       _position get writeMutiple ret] in H.
  use_writer H HW. exists bs. unfold append, slot5. simpl.
  rewrite len_app. reflexivity.
Qed.

Lemma writeEndFunctionBody_ok e e' :
  writeEndFunctionBody e = Ok tt e' ->
  _state e = FunctionBody /\ _endWritten e = true /\
  e' = set_state CodeSection
         (set_buffer (patched (_buffer e) (_bodySizeBytes e)
                        (len (_buffer e) - _bodyStart e)) e).
Proof.
  unfold writeEndFunctionBody. intros H. ensure H. split; [done |].
  unfold bind at 1 in H. unfold ensureEndOperatorWritten in H.
  destruct (_endWritten e) eqn:Hend; [| discriminate H]. split; [done |].
  unfold bind, _position, get, modify in H. rewrite patchVarUint32_patched in H.
  by injection H as <-.
Qed.

(** Without a closing [end] the two [writeEnd...] methods throw and leave
    the instance as it was. *)
Lemma writeEndFunctionBody_throws e :
  _state e = FunctionBody -> _endWritten e = false ->
  writeEndFunctionBody e = Throw EndExpected e.
Proof.
  intros Hst Hend. unfold writeEndFunctionBody, bind, ensureState,
    ensureEndOperatorWritten. rewrite Hst. cbn. by rewrite Hend.
Qed.

Lemma writeEndInitExpression_ok e e' :
  writeEndInitExpression e = Ok tt e' ->
  _state e = InitExpression /\ _endWritten e = true /\
  e' = set_state (_initExpressionAfterState e) e.
Proof.
  unfold writeEndInitExpression. intros H. ensure H. split; [done |].
  unfold bind at 1 in H. unfold ensureEndOperatorWritten in H.
  destruct (_endWritten e) eqn:Hend; [| discriminate H]. split; [done |].
  unfold bind, get, modify in H. by injection H as <-.
Qed.

Lemma writeEndInitExpression_throws e :
  _state e = InitExpression -> _endWritten e = false ->
  writeEndInitExpression e = Throw EndExpected e.
Proof.
  intros Hst Hend. unfold writeEndInitExpression, bind, ensureState,
    ensureEndOperatorWritten. rewrite Hst. cbn. by rewrite Hend.
Qed.

Lemma writeBeginDataSectionEntry_ok entry e e' :
  writeBeginDataSectionEntry entry e = Ok tt e' ->
  _state e = DataSection /\
  exists bs, bs <> [] /\
    e' = set_state DataSectionEntry
           (append bs (set_sectionEntiesCount (_sectionEntiesCount e + 1) e)).
Proof.
  unfold writeBeginDataSectionEntry. intros H. ensure H. split; [done |].
  destruct (is_writer1_writeVarUint (segment_index entry)) as (bs & r & HW & Hne).
  unfold bind, incrementSectionEntiesCount, modify in H. rewrite HW in H.
  destruct r as [? | []]; [discriminate H |]. injection H as <-.
  exists bs. split; [by eapply Hne | done].
Qed.

Lemma writeDataSectionBody_ok body e e' :
  writeDataSectionBody body e = Ok tt e' ->
  _state e = DataSectionEntryBody /\
  exists bs, e' = set_state DataSectionEntryEnd (append bs e).
Proof.
  unfold writeDataSectionBody. intros H. ensure H. split; [done |].
  destruct (is_writer1_writeString (body_data body)) as (bs & r & HW & _).
  unfold bind, modify in H. rewrite HW in H.
  destruct r as [? | []]; [discriminate H |]. injection H as <-. by exists bs.
Qed.

Lemma writeEndDataSectionEntry_ok e e' :
  writeEndDataSectionEntry e = Ok tt e' ->
  _state e = DataSectionEntryEnd /\ e' = set_state DataSection e.
Proof.
  unfold writeEndDataSectionEntry. intros H. ensure H. split; [done |].
  unfold modify in H. by injection H as <-.
Qed.

Lemma writeBeginInitExpression_ok e e' :
  writeBeginInitExpression e = Ok tt e' ->
  _state e = DataSectionEntry /\
  e' = set_state InitExpression
         (set_endWritten false
            (set_initExpressionAfterState DataSectionEntryBody e)).
Proof.
  unfold writeBeginInitExpression, bind, get, modify, throw. intros H.
  destruct (_state e) eqn:Hst; try discriminate H. by injection H as <-.
Qed.

Lemma writeOperator_ok opInfo e e' :
  writeOperator opInfo e = Ok tt e' ->
  (_state e = FunctionBody \/ _state e = InitExpression) /\
  exists bs,
    e' = append bs
           (set_endWritten (code opInfo =? OperatorCode.end_)
              (append [code opInfo] e)).
Proof.
  unfold writeOperator. intros H.
  match type of H with
  | context [bind (modify (set_endWritten ?b)) (fun _ => ?w)] =>
      set (W := w) in H
  end.
  assert (HW : is_writer W).
  { subst W. unfold writeMemoryImmediate, writeVarInt64, writeFloat32,
      writeFloat64, writeBytes, for_range.
    repeat writer_step. }
  clearbody W.
  unfold bind at 1 in H. unfold ensureEitherState in H. simpl existsb in H.
  destruct (_state e) eqn:Hst; simpl in H; try discriminate H.
  - split; [by left |]. unfold bind, writeByte, modify in H.
    use_writer H HW. by exists bs.
  - split; [by right |]. unfold bind, writeByte, modify in H.
    use_writer H HW. by exists bs.
Qed.

Lemma writeBeginWasm_ok header e e' :
  writeBeginWasm header e = Ok tt e' ->
  _state e = Initial /\
  e' = set_state Wasm (append [0x00; 0x61; 0x73; 0x6d; 0x01; 0x00; 0x00; 0x00] e).
Proof.
  unfold writeBeginWasm. intros H. ensure H. split; [done |].
  unfold bind, writeMutiple, modify in H. by injection H as <-.
Qed.

Lemma writeEndWasm_ok e e' :
  writeEndWasm e = Ok tt e' ->
  _state e = Wasm /\
  e' = set_buffer [] (set_data (Some (Uint8Array_from (_buffer e)))
                        (set_state Initial e)).
Proof.
  unfold writeEndWasm. intros H. ensure H. split; [done |].
  unfold bind, modify in H. by injection H as <-.
Qed.

Lemma writeEndSection_ok e e' :
  writeEndSection e = Ok tt e' ->
  closable (_state e) = true /\
  let counted := patched (_buffer e) (_sectionEntiesCountBytes e)
                   (_sectionEntiesCount e) in
  e' = set_state Wasm
         (set_buffer (patched counted (_sectionSizeBytes e)
                        (len counted - _sectionStart e)) e).
Proof.
  unfold writeEndSection. intros H.
  unfold bind at 1 2 in H. unfold get at 1 in H.
  destruct (_state e) eqn:Hst; try discriminate H;
    (split; [done |]);
    cbv [bind get _position modify] in H;
    rewrite patchVarUint32_patched in H; cbv beta iota in H;
    rewrite patchVarUint32_patched in H; by injection H as <-.
Qed.

Lemma writeBeginSection_ok section e e' :
  writeBeginSection section e = Ok tt e' ->
  _state e = Wasm /\
  exists bs st,
    closable st = true /\
    let p := len (_buffer e) + len bs in
    e' = set_sectionEntiesCount 0
           (set_sectionEntiesCountBytes (p + 5)
             (append slot5
               (set_state st
                 (set_sectionStart (p + 5)
                   (set_sectionSizeBytes p
                     (append slot5 (append bs e))))))).
Proof.
  unfold writeBeginSection. intros H. ensure H. split; [done |].
  destruct (is_writer1_writeVarUint (id section)) as (bs & r & HW & _).
  unfold bind at 1 in H. rewrite HW in H.
  destruct r as [? | []]; [discriminate H |].
  exists bs.
  match type of H with
  | context [if id section =? SectionCode.Custom then ?a else ?b] =>
      set (S := if id section =? SectionCode.Custom then a else b) in H
  end.
  cbv [bind writePatchableVarUint32 _position get writeMutiple modify ret] in H.
  assert (Hdefault : forall (W : M unit) e0,
    bind W (fun _ => bind (modify (set_state Error))
                       (fun _ => throw (UnexpectedSection (id section)))) e0
    <> Ok tt e').
  { intros W e0. unfold bind, modify, throw. by destruct (W e0). }
  assert (Hp : forall st e0,
    bind (modify (set_state st)) (fun _ => writePatchableSectionEntriesCount) e0 = Ok tt e' ->
    e' = set_sectionEntiesCount 0
           (set_sectionEntiesCountBytes (len (_buffer e0))
             (append slot5 (set_state st e0)))).
  { intros st e0 H0.
    cbv [bind modify writePatchableSectionEntriesCount
         writePatchableVarUint32 _position get writeMutiple ret] in H0.
    by injection H0 as <-. }
  subst S.
  repeat match type of H with
  | (if ?c then _ else _) _ = _ => destruct c
  end.
  1: by apply Hdefault in H.
  9: { cbv [bind modify throw] in H. discriminate H. }
  all: apply Hp in H;
    match type of H with context [set_state ?st] => exists st end;
    (split; [reflexivity |]); rewrite H; unfold append, slot5; simpl;
    rewrite !len_app; reflexivity.
Qed.

(** *** Runs of events *)

Lemma writeAll_cons d rest e e' :
  writeAll (d :: rest) e = Ok tt e' ->
  exists e1, writeData d e = Ok tt e1 /\ writeAll rest e1 = Ok tt e'.
Proof.
  simpl. unfold bind. destruct (writeData d e) as [[] e1 |]; [| done].
  intros H. by exists e1.
Qed.

Lemma writeAll_nil e e' : writeAll [] e = Ok tt e' -> e' = e.
Proof. by intros [= ->]. Qed.

Lemma len_nonneg {A} (l : list A) : 0 <= len l.
Proof. unfold len. lia. Qed.

Lemma len_nonempty {A} (l : list A) : l <> [] -> 1 <= len l.
Proof. destruct l; [done |]. unfold len. simpl. lia. Qed.

Lemma len_array_set arr pos b : len arr <= len (array_set arr pos b).
Proof.
  unfold array_set. destruct (pos <? 0); [lia |].
  destruct (pos <? len arr).
  - unfold len. rewrite length_insert. lia.
  - rewrite len_app. pose proof (len_nonneg (replicate (Z.to_nat (pos - len arr)) 0 ++ [b])). lia.
Qed.

Lemma len_patched buffer pos n : len buffer <= len (patched buffer pos n).
Proof.
  unfold patched.
  repeat (etransitivity; [| apply len_array_set]). lia.
Qed.

Lemma len_patched_slot buffer pos n :
  0 <= pos -> pos + 5 <= len buffer -> len (patched buffer pos n) = len buffer.
Proof.
  intros Hpos Hlen.
  destruct (split_slot buffer pos Hpos Hlen)
    as (pre & a0 & a1 & a2 & a3 & a4 & post & -> & <-).
  rewrite patched_slot, !len_app. reflexivity.
Qed.

(** Reading the slot at [pos] after it was patched with [n] *)
Lemma slot_patched buffer pos n :
  0 <= pos -> pos + 5 <= len buffer -> 0 <= n < 2 ^ 32 ->
  slot (patched buffer pos n) pos = Some (n, 5%nat).
Proof.
  intros Hpos Hlen Hn.
  destruct (split_slot buffer pos Hpos Hlen)
    as (pre & a0 & a1 & a2 & a3 & a4 & post & -> & <-).
  rewrite patched_slot, slot_app. by apply readVarUint_patch.
Qed.

(** A patch of the five bytes before [pos] leaves the slot at [pos] alone. *)
Lemma slot_patched_before buffer pos n :
  5 <= pos -> pos <= len buffer ->
  slot (patched buffer (pos - 5) n) pos = slot buffer pos.
Proof.
  intros Hpos Hlen.
  destruct (split_slot buffer (pos - 5) ltac:(lia) ltac:(lia))
    as (pre & a0 & a1 & a2 & a3 & a4 & post & -> & Hpre).
  rewrite <- Hpre, patched_slot.
  assert (Hp : pos = len pre + 5) by lia. rewrite Hp.
  change (pre ++ ?b0 :: ?b1 :: ?b2 :: ?b3 :: ?b4 :: post)
    with (pre ++ [b0; b1; b2; b3; b4] ++ post).
  rewrite !app_assoc.
  replace (len pre + 5) with (len (pre ++ [a0; a1; a2; a3; a4])) at 2
    by (rewrite len_app; reflexivity).
  match goal with
  | |- slot ((pre ++ ?l) ++ post) _ = _ =>
      replace (len pre + 5) with (len (pre ++ l)) by (rewrite len_app; reflexivity)
  end.
  by rewrite !slot_app.
Qed.

Lemma len_append bs e : len (_buffer (append bs e)) = len (_buffer e) + len bs.
Proof. unfold append. simpl. apply len_app. Qed.

(** One event inside an open section: the section stays open, its slots
    stay where they are, and the count grows exactly on an entry. *)
Lemma section_step start d e e' :
  SectionInv start e -> d <> END_SECTION ->
  writeData d e = Ok tt e' ->
  SectionInv start e' /\
  _sectionEntiesCount e' = _sectionEntiesCount e + (if is_entry d then 1 else 0).
Proof.
  intros [Hopen Hafter Hstart Hsize Hcb Hpos Hcount Hlen] Hd H.
  unfold writeData, writeStateAndResult in H.
  destruct d; try done; try discriminate H.
  - apply writeBeginWasm_ok in H as [Hst _]. by rewrite Hst in Hopen.
  - apply writeEndWasm_ok in H as [Hst _]. by rewrite Hst in Hopen.
  - apply writeBeginSection_ok in H as [Hst _]. by rewrite Hst in Hopen.
  - apply writeTypeSectionEntry_ok in H as (Hst & bs & Hne%len_nonempty & ->).
    split; [| reflexivity]. split; simpl; rewrite ?Hst; try done.
    + lia.
    + rewrite len_app. lia.
  - apply writeImportSectionEntry_ok in H as (Hst & bs & Hne%len_nonempty & ->).
    split; [| reflexivity]. split; simpl; rewrite ?Hst; try done.
    + lia.
    + rewrite len_app. lia.
  - apply writeFunctionSectionEntry_ok in H as (Hst & bs & Hne%len_nonempty & ->).
    split; [| reflexivity]. split; simpl; rewrite ?Hst; try done.
    + lia.
    + rewrite len_app. lia.
  - apply writeExportSectionEntry_ok in H as (Hst & bs & Hne%len_nonempty & ->).
    split; [| reflexivity]. split; simpl; rewrite ?Hst; try done.
    + lia.
    + rewrite len_app. lia.
  - apply writeBeginFunctionBody_ok in H as (Hst & bs & ->).
    split; [| reflexivity]. split; simpl; try done.
    + lia.
    + rewrite !len_app. pose proof (len_nonneg bs).
      change (len slot5) with 5. lia.
  - apply writeEndFunctionBody_ok in H as (Hst & _ & ->).
    split; [| simpl; lia]. split; simpl; try done.
    pose proof (len_patched (_buffer e) (_bodySizeBytes e)
                  (len (_buffer e) - _bodyStart e)). lia.
  - apply writeMemorySectionEntry_ok in H as (Hst & bs & Hne%len_nonempty & ->).
    split; [| reflexivity]. split; simpl; rewrite ?Hst; try done.
    + lia.
    + rewrite len_app. lia.
  - apply writeOperator_ok in H as (Hst & bs & ->).
    split; [| simpl; lia]. split; simpl; try done.
    rewrite !len_app. pose proof (len_nonneg bs).
    pose proof (len_nonneg [code opInfo]). lia.
  - apply writeOperator_ok in H as (Hst & bs & ->).
    split; [| simpl; lia]. split; simpl; try done.
    rewrite !len_app. pose proof (len_nonneg bs).
    pose proof (len_nonneg [code opInfo]). lia.
  - apply writeBeginDataSectionEntry_ok in H as (Hst & bs & Hne%len_nonempty & ->).
    split; [| reflexivity]. split; simpl; try done.
    + lia.
    + rewrite len_app. lia.
  - apply writeDataSectionBody_ok in H as (Hst & bs & ->).
    split; [| simpl; lia]. split; simpl; try done.
    rewrite len_app. pose proof (len_nonneg bs). lia.
  - apply writeEndDataSectionEntry_ok in H as (Hst & ->).
    split; [| simpl; lia]. split; simpl; done.
  - apply writeBeginInitExpression_ok in H as (Hst & ->).
    split; [| simpl; lia]. split; simpl; done.
  - apply writeEndInitExpression_ok in H as (Hst & _ & ->).
    split; [| simpl; lia]. split; simpl; try done.
    + by rewrite (Hafter Hst).
    + rewrite (Hafter Hst). done.
Qed.

Lemma entry_events_cons d rest :
  entry_events (d :: rest) = (if is_entry d then 1 else 0) + entry_events rest.
Proof.
  unfold entry_events. rewrite filter_cons.
  destruct (decide (is_entry d = true)) as [E | E];
    destruct (is_entry d); try done; unfold len; simpl; lia.
Qed.

Lemma section_run start events e e' :
  SectionInv start e -> END_SECTION ∉ events ->
  writeAll events e = Ok tt e' ->
  SectionInv start e' /\
  _sectionEntiesCount e' = _sectionEntiesCount e + entry_events events.
Proof.
  revert e. induction events as [| d rest IH]; intros e Hinv Hnot H.
  - apply writeAll_nil in H as ->. split; [done |].
    unfold entry_events. simpl. unfold len. simpl. lia.
  - apply writeAll_cons in H as (e1 & Hd & Hrest).
    apply not_elem_of_cons in Hnot as [Hne Hnot].
    destruct (section_step start d e e1 Hinv ltac:(congruence) Hd) as [Hinv1 Hc1].
    destruct (IH e1 Hinv1 Hnot Hrest) as [Hinv' Hc'].
    split; [done |]. rewrite Hc', Hc1, entry_events_cons. lia.
Qed.

(** [BeginSection] opens a section with both slots reserved and no entry
    counted. *)
Lemma section_begin section e e' :
  writeBeginSection section e = Ok tt e' ->
  exists start, SectionInv start e' /\ _sectionEntiesCount e' = 0.
Proof.
  intros (Hst & bs & st & Hcl & ->)%writeBeginSection_ok.
  exists (len (_buffer e) + len bs + 5). split; [| reflexivity].
  pose proof (len_nonneg (_buffer e)). pose proof (len_nonneg bs).
  split; simpl; try done; try lia.
  - by destruct st.
  - intros ->. done.
  - rewrite !len_app. change (len slot5) with 5. lia.
Qed.

(** [EndSection] on an open section: what the two slots hold afterwards *)
Lemma section_end start e e' :
  SectionInv start e -> writeEndSection e = Ok tt e' ->
  (_sectionEntiesCount e < 2 ^ 32 ->
   slot (_buffer e') (_sectionEntiesCountBytes e)
     = Some (_sectionEntiesCount e, 5%nat)) /\
  (len (_buffer e) - _sectionStart e < 2 ^ 32 ->
   slot (_buffer e') (_sectionSizeBytes e)
     = Some (len (_buffer e) - _sectionStart e, 5%nat)).
Proof.
  intros [Hopen Hafter Hstart Hsize Hcb Hpos Hcount Hlen] (_ & ->)%writeEndSection_ok.
  simpl. rewrite Hstart, Hsize, Hcb.
  assert (Hl : len (patched (_buffer e) start (_sectionEntiesCount e))
               = len (_buffer e)) by (apply len_patched_slot; lia).
  rewrite Hl. split.
  - intros Hfit. rewrite slot_patched_before by lia.
    apply slot_patched; lia.
  - intros Hfit. apply slot_patched; lia.
Qed.

(** *** Function bodies and init expressions *)

Lemma body_begin functionInfo e e' :
  writeBeginFunctionBody functionInfo e = Ok tt e' ->
  BodyInv (len (_buffer e) + 5) e' /\ _endWritten e' = false.
Proof.
  intros (Hst & bs & ->)%writeBeginFunctionBody_ok.
  split; [| reflexivity].
  pose proof (len_nonneg (_buffer e)). pose proof (len_nonneg bs).
  split; simpl; try done; try lia.
  rewrite !len_app. change (len slot5) with 5. lia.
Qed.

Lemma last_operator_cons d rest :
  last_operator (d :: rest) =
  match last_operator rest with
  | Some op => Some op
  | None => operator_of d
  end.
Proof.
  unfold last_operator.
  change (omap operator_of (d :: rest))
    with (match operator_of d with
          | Some op => op :: omap operator_of rest
          | None => omap operator_of rest
          end).
  destruct (operator_of d); [apply last_cons |].
  by destruct (last (omap operator_of rest)).
Qed.

(** Inside a function body only operators are accepted; the flag follows
    the last of them. *)
Lemma body_step start d e e' :
  BodyInv start e -> d <> END_FUNCTION_BODY ->
  writeData d e = Ok tt e' ->
  BodyInv start e' /\
  exists op, operator_of d = Some op /\
    _endWritten e' = (code op =? OperatorCode.end_).
Proof.
  intros [Hst Hstart Hsize Hpos Hlen] Hd H.
  unfold writeData, writeStateAndResult in H.
  destruct d; try done; try discriminate H;
    try (first
      [ apply writeBeginWasm_ok in H as [Hst' _]
      | apply writeEndWasm_ok in H as [Hst' _]
      | apply writeBeginSection_ok in H as [Hst' _]
      | apply writeEndSection_ok in H as [Hst' _]; rewrite Hst in Hst'; discriminate Hst'
      | apply writeTypeSectionEntry_ok in H as [Hst' _]
      | apply writeImportSectionEntry_ok in H as [Hst' _]
      | apply writeFunctionSectionEntry_ok in H as [Hst' _]
      | apply writeExportSectionEntry_ok in H as [Hst' _]
      | apply writeBeginFunctionBody_ok in H as [Hst' _]
      | apply writeMemorySectionEntry_ok in H as [Hst' _]
      | apply writeBeginDataSectionEntry_ok in H as [Hst' _]
      | apply writeDataSectionBody_ok in H as [Hst' _]
      | apply writeEndDataSectionEntry_ok in H as [Hst' _]
      | apply writeBeginInitExpression_ok in H as [Hst' _]
      | apply writeEndInitExpression_ok in H as [Hst' _] ];
      congruence).
  - apply writeOperator_ok in H as (_ & bs & ->).
    split; [| by exists opInfo]. split; simpl; try done.
    rewrite !len_app. pose proof (len_nonneg bs).
    pose proof (len_nonneg [code opInfo]). lia.
  - apply writeOperator_ok in H as (_ & bs & ->).
    split; [| by exists opInfo]. split; simpl; try done.
    rewrite !len_app. pose proof (len_nonneg bs).
    pose proof (len_nonneg [code opInfo]). lia.
Qed.

Lemma body_run start events e e' :
  BodyInv start e -> END_FUNCTION_BODY ∉ events ->
  writeAll events e = Ok tt e' ->
  BodyInv start e' /\
  _endWritten e' = match last_operator events with
                   | Some op => code op =? OperatorCode.end_
                   | None => _endWritten e
                   end.
Proof.
  revert e. induction events as [| d rest IH]; intros e Hinv Hnot H.
  - apply writeAll_nil in H as ->. done.
  - apply writeAll_cons in H as (e1 & Hd & Hrest).
    apply not_elem_of_cons in Hnot as [Hne Hnot].
    destruct (body_step start d e e1 Hinv ltac:(congruence) Hd)
      as (Hinv1 & op & Hop & Hend1).
    destruct (IH e1 Hinv1 Hnot Hrest) as [Hinv' Hend'].
    split; [done |]. rewrite Hend', Hend1, last_operator_cons, Hop.
    by destruct (last_operator rest).
Qed.

(** The same for an init expression *)
Lemma init_step d e e' :
  _state e = InitExpression -> d <> END_INIT_EXPRESSION_BODY ->
  writeData d e = Ok tt e' ->
  _state e' = InitExpression /\
  _initExpressionAfterState e' = _initExpressionAfterState e /\
  exists op, operator_of d = Some op /\
    _endWritten e' = (code op =? OperatorCode.end_).
Proof.
  intros Hst Hd H.
  unfold writeData, writeStateAndResult in H.
  destruct d; try done; try discriminate H;
    try (first
      [ apply writeBeginWasm_ok in H as [Hst' _]
      | apply writeEndWasm_ok in H as [Hst' _]
      | apply writeBeginSection_ok in H as [Hst' _]
      | apply writeEndSection_ok in H as [Hst' _]; rewrite Hst in Hst'; discriminate Hst'
      | apply writeTypeSectionEntry_ok in H as [Hst' _]
      | apply writeImportSectionEntry_ok in H as [Hst' _]
      | apply writeFunctionSectionEntry_ok in H as [Hst' _]
      | apply writeExportSectionEntry_ok in H as [Hst' _]
      | apply writeBeginFunctionBody_ok in H as [Hst' _]
      | apply writeEndFunctionBody_ok in H as [Hst' _]
      | apply writeMemorySectionEntry_ok in H as [Hst' _]
      | apply writeBeginDataSectionEntry_ok in H as [Hst' _]
      | apply writeDataSectionBody_ok in H as [Hst' _]
      | apply writeEndDataSectionEntry_ok in H as [Hst' _]
      | apply writeBeginInitExpression_ok in H as [Hst' _] ];
      congruence).
  - apply writeOperator_ok in H as (_ & bs & ->).
    split; [done |]. split; [done | by exists opInfo].
  - apply writeOperator_ok in H as (_ & bs & ->).
    split; [done |]. split; [done | by exists opInfo].
Qed.

Lemma init_run events e e' :
  _state e = InitExpression -> END_INIT_EXPRESSION_BODY ∉ events ->
  writeAll events e = Ok tt e' ->
  _state e' = InitExpression /\
  _initExpressionAfterState e' = _initExpressionAfterState e /\
  _endWritten e' = match last_operator events with
                   | Some op => code op =? OperatorCode.end_
                   | None => _endWritten e
                   end.
Proof.
  revert e. induction events as [| d rest IH]; intros e Hst Hnot H.
  - apply writeAll_nil in H as ->. done.
  - apply writeAll_cons in H as (e1 & Hd & Hrest).
    apply not_elem_of_cons in Hnot as [Hne Hnot].
    destruct (init_step d e e1 Hst ltac:(congruence) Hd)
      as (Hst1 & Hafter1 & op & Hop & Hend1).
    destruct (IH e1 Hst1 Hnot Hrest) as (Hst' & Hafter' & Hend').
    split; [done |]. split; [congruence |].
    rewrite Hend', Hend1, last_operator_cons, Hop.
    by destruct (last_operator rest).
Qed.

Lemma writeEndFunctionBody_returns e :
  _state e = FunctionBody -> _endWritten e = true ->
  exists e', writeEndFunctionBody e = Ok tt e' /\ _state e' = CodeSection.
Proof.
  intros Hst Hend. eexists.
  unfold writeEndFunctionBody, bind, ensureState, ensureEndOperatorWritten.
  rewrite Hst. cbn -[patchVarUint32]. rewrite Hend.
  cbv [_position get modify]. rewrite patchVarUint32_patched. done.
Qed.

Lemma writeEndInitExpression_returns e :
  _state e = InitExpression -> _endWritten e = true ->
  exists e', writeEndInitExpression e = Ok tt e' /\
             _state e' = _initExpressionAfterState e.
Proof.
  intros Hst Hend. eexists.
  unfold writeEndInitExpression, bind, ensureState, ensureEndOperatorWritten.
  rewrite Hst. cbn. rewrite Hend. done.
Qed.

(** [EndFunctionBody] on an open body: what the slot holds afterwards *)
Lemma body_end start e e' :
  BodyInv start e -> writeEndFunctionBody e = Ok tt e' ->
  len (_buffer e) - _bodyStart e < 2 ^ 32 ->
  slot (_buffer e') (_bodySizeBytes e)
    = Some (len (_buffer e) - _bodyStart e, 5%nat).
Proof.
  intros [Hst Hstart Hsize Hpos Hlen] (_ & _ & ->)%writeEndFunctionBody_ok Hfit.
  simpl. rewrite Hstart, Hsize in *. apply slot_patched; lia.
Qed.

(** *** The claims *)

Lemma writer_bind_ret {A B} (a : A) (k : A -> M B) bs r :
  writer (k a) bs r -> writer (bind (ret a) k) bs r.
Proof. intros H e. apply H. Qed.

Lemma writer_for_loop trips i body (f : Z -> list Z) :
  (forall j, writer (body j) (f j) (inr tt)) ->
  writer (for_loop trips i body) (flat_map f (indices trips i)) (inr tt).
Proof.
  intros Hbody. revert i. induction trips as [| k IH]; intros i; simpl.
  - apply writer_ret.
  - eapply writer_bind; [apply Hbody | apply IH].
Qed.

Lemma indices_items (l pre : list Z) :
  map (fun i => num (item (pre ++ l) i)) (indices (length l) (len pre)) = l.
Proof.
  revert pre. induction l as [| x l IH]; intros pre; [done |].
  simpl. f_equal.
  - unfold item, len. destruct (Z.ltb_spec (Z.of_nat (length pre)) 0); [lia |].
    rewrite Nat2Z.id. by rewrite list_lookup_middle.
  - specialize (IH (pre ++ [x])). rewrite <- app_assoc in IH. simpl in IH.
    rewrite len_app in IH. exact IH.
Qed.

Lemma writeBytes_writer bytes start end_ :
  writer (writeBytes bytes start end_)
    (map (fun i => num (item bytes i)) (indices (Z.to_nat (end_ - start)) start))
    (inr tt).
Proof.
  unfold writeBytes, for_range.
  pose proof (writer_for_loop (Z.to_nat (end_ - start)) start
                (fun i => writeByte (num (item bytes i)))
                (fun i => [num (item bytes i)])
                (fun j => writer_writeByte _)) as H.
  assert (E : forall (l : list Z), flat_map (fun i => [num (item bytes i)]) l
              = map (fun i => num (item bytes i)) l).
  { induction l as [| ? ? IHl]; [done |]. simpl. by rewrite IHl. }
  by rewrite E in H.
Qed.

Lemma writeString_writer str :
  writer (writeString str) (appended (writeVarUint (len str)) ++ str) (inr tt).
Proof.
  unfold writeString.
  eapply writer_bind; [apply writeVarUint_appended |].
  pose proof (writeBytes_writer str 0 (len str)) as H.
  rewrite Z.sub_0_r in H.
  assert (El : Z.to_nat (len str) = length str) by (unfold len; lia).
  rewrite El in H.
  pose proof (indices_items str []) as E. simpl in E.
  change (len []) with 0 in E. by rewrite E in H.
Qed.

Lemma writeFloat32_writer n : writer (writeFloat32 n) [0; 0; 0; 0] (inr tt).
Proof. apply (writeBytes_writer (Uint8Array_new 4) 0 4). Qed.

Lemma writeFloat64_writer n :
  writer (writeFloat64 n) [0; 0; 0; 0; 0; 0; 0; 0] (inr tt).
Proof. apply (writeBytes_writer (Uint8Array_new 8) 0 8). Qed.

(** An operator in a body: the opcode byte, the flag, and then the
    immediates that the [switch] picks *)
Lemma writeOperator_body opInfo e (W : M unit) bs :
  in_body e ->
  writer W bs (inr tt) ->
  bind (ensureEitherState [FunctionBody; InitExpression]) (fun _ =>
    bind (writeByte (code opInfo)) (fun _ =>
      bind (modify (set_endWritten (code opInfo =? OperatorCode.end_)))
           (fun _ => W))) e
  = Ok tt (set_endWritten (code opInfo =? OperatorCode.end_)
             (append (code opInfo :: bs) e)).
Proof.
  intros Hbody HW. unfold bind at 1. unfold ensureEitherState.
  assert (Hst : existsb (EmitterState_eqb (_state e)) [FunctionBody; InitExpression] = true)
    by (destruct Hbody as [-> | ->]; reflexivity).
  rewrite Hst. unfold bind, writeByte, modify. rewrite HW.
  unfold append. simpl. by rewrite <- app_assoc.
Qed.

Ltac not_among :=
  let Hin := fresh "Hin" in
  intros Hin;
  repeat (apply elem_of_cons in Hin as [Hin | Hin]; [discriminate Hin |]);
  by apply elem_of_nil in Hin.

(** C1 (the code departs from the claim).  An [f32.const] or [f64.const]
    operator written in a body appends its opcode and then four, or eight,
    zero bytes, whatever its literal is: [writeFloat32] and [writeFloat64]
    never store their argument.  The IEEE-754 image of 1.0 is
    00 00 80 3F in single and 00 00 00 00 00 00 F0 3F in double precision,
    so these are not the bytes of the literal. *)
Theorem float_const_literal_dropped opInfo e :
  in_body e ->
  (code opInfo = OperatorCode.f32_const ->
   writeOperator opInfo e
     = Ok tt (set_endWritten false (append [0x43; 0; 0; 0; 0] e))) /\
  (code opInfo = OperatorCode.f64_const ->
   writeOperator opInfo e
     = Ok tt (set_endWritten false (append [0x44; 0; 0; 0; 0; 0; 0; 0; 0] e))) /\
  le_bytes 4 0x3F800000 = [0x00; 0x00; 0x80; 0x3F] /\
  le_bytes 8 0x3FF0000000000000 = [0; 0; 0; 0; 0; 0; 0xF0; 0x3F].
Proof.
  intros Hbody. repeat split.
  - intros Hc. unfold writeOperator.
    rewrite (writeOperator_body opInfo e _ [0; 0; 0; 0] Hbody); rewrite Hc;
      [reflexivity | apply writeFloat32_writer].
  - intros Hc. unfold writeOperator.
    rewrite (writeOperator_body opInfo e _ [0; 0; 0; 0; 0; 0; 0; 0] Hbody);
      rewrite Hc; [reflexivity | apply writeFloat64_writer].
Qed.

Lemma float_const_literal_dropped_witness :
  in_body (set_state FunctionBody constructor) /\
  writeOperator (with_literal (LitF32 0x3F800000) (operator OperatorCode.f32_const))
    (set_state FunctionBody constructor)
    = Ok tt (set_endWritten false
               (append [0x43; 0; 0; 0; 0] (set_state FunctionBody constructor))).
Proof.
  split; [by left |].
  exact (proj1 (float_const_literal_dropped
                  (with_literal (LitF32 0x3F800000) (operator OperatorCode.f32_const))
                  (set_state FunctionBody constructor) (or_introl eq_refl))
               eq_refl).
Defined.

(** C7.  A [br_table] operator written in a body appends the opcode byte
    0x0E, then what [writeVarUint] writes for the number of targets less
    one, then what it writes for each target in order, the default last;
    for the targets 1, 2, 3, 0 these are the bytes 0E 03 01 02 03 00. *)
Theorem br_table_bytes opInfo e targets :
  in_body e ->
  code opInfo = OperatorCode.br_table ->
  brTable opInfo = Some targets ->
  writeOperator opInfo e
    = Ok tt (set_endWritten false
               (append ([0x0E] ++ appended (writeVarUint (len targets - 1)) ++
                        flat_map (fun t => appended (writeVarUint t)) targets) e)) /\
  _buffer (final (writeOperator
                    (with_brTable [1; 2; 3; 0] (operator OperatorCode.br_table))
                    (set_state FunctionBody constructor)))
    = [0x0E; 0x03; 0x01; 0x02; 0x03; 0x00].
Proof.
  intros Hbody Hc Ht. split; [| reflexivity].
  unfold writeOperator.
  erewrite (writeOperator_body opInfo e _ _ Hbody); rewrite Hc; [reflexivity |].
  cbn [case_of orb Z.eqb Pos.eqb OperatorCode.br_table OperatorCode.block
       OperatorCode.loop OperatorCode.if_ OperatorCode.br OperatorCode.br_if].
  rewrite Ht. cbn [defined].
  apply writer_bind_ret.
  eapply writer_bind; [apply writeVarUint_appended |].
  unfold for_range.
  replace (Z.to_nat (len targets - 1 + 1 - 0)) with (length targets)
    by (unfold len; lia).
  pose proof (writer_for_loop (length targets) 0
                (fun i => writeVarUint (num (item targets i)))
                (fun i => appended (writeVarUint (num (item targets i))))
                (fun j => writeVarUint_appended _)) as H.
  assert (E : flat_map (fun i => appended (writeVarUint (num (item targets i))))
                (indices (length targets) 0)
              = flat_map (fun t => appended (writeVarUint t)) targets).
  { pose proof (indices_items targets []) as Hi. simpl in Hi.
    change (len []) with 0 in Hi. rewrite <- Hi at 2.
    generalize (indices (length targets) 0). intros l.
    induction l as [| ? ? IHl]; [done |]. simpl. by rewrite IHl. }
  by rewrite E in H.
Qed.

Lemma br_table_bytes_witness :
  in_body (set_state FunctionBody constructor) /\
  writeOperator (with_brTable [7] (operator OperatorCode.br_table))
    (set_state FunctionBody constructor)
    = Ok tt (set_endWritten false
               (append [0x0E; 0x00; 0x07] (set_state FunctionBody constructor))).
Proof.
  split; [by left |].
  exact (proj1 (br_table_bytes (with_brTable [7] (operator OperatorCode.br_table))
                  (set_state FunctionBody constructor) [7]
                  (or_introl eq_refl) eq_refl eq_refl)).
Defined.

(** C10.  In the state [Initial], [writeBeginWasm] appends the eight bytes
    00 61 73 6D 01 00 00 00 and moves to [Wasm], whatever header it is
    given, or none; in any state its outcome is the same for every
    header. *)
Theorem writeBeginWasm_ignores_header header e :
  writeBeginWasm header (set_state Initial e)
    = Ok tt (set_state Wasm
               (append [0x00; 0x61; 0x73; 0x6D; 0x01; 0x00; 0x00; 0x00] e)) /\
  (forall header', writeBeginWasm header e = writeBeginWasm header' e).
Proof. split; reflexivity. Qed.

(** C2 as stated fails: in the state [Wasm] the header of a Global section is
    accepted, the call returns and the state is [GlobalSection]. *)
Lemma global_section_accepted :
  succeeds (writeBeginSection (section SectionCode.Global)
              (set_state Wasm constructor)) = true /\
  _state (final (writeBeginSection (section SectionCode.Global)
                   (set_state Wasm constructor))) = GlobalSection.
Proof. split; reflexivity. Qed.

(** C2, amended.  In the state [Wasm], [writeBeginSection] for a Custom,
    Start, Element or Table section throws "Unexpected section" and leaves
    the state [Error]; for a Global section it returns and the state is
    [GlobalSection]. *)
Theorem unsupported_sections_rejected section e :
  _state e = Wasm ->
  (id section = SectionCode.Custom \/ id section = SectionCode.Start \/
   id section = SectionCode.Element \/ id section = SectionCode.Table ->
   exists e', writeBeginSection section e
                = Throw (UnexpectedSection (id section)) e' /\
              _state e' = Error) /\
  (id section = SectionCode.Global ->
   exists e', writeBeginSection section e = Ok tt e' /\
              _state e' = GlobalSection).
Proof.
  intros Hst.
  assert (Hrun : forall (S : M unit),
    bind (ensureState Wasm) (fun _ =>
      bind (writeVarUint (id section)) (fun _ =>
        bind (bind writePatchableVarUint32 (fun pos => modify (set_sectionSizeBytes pos)))
          (fun _ => bind (bind _position (fun pos => modify (set_sectionStart pos)))
            (fun _ => S)))) e
    = S (set_sectionStart (len (_buffer e) + len (appended (writeVarUint (id section))) + 5)
           (set_sectionSizeBytes (len (_buffer e) + len (appended (writeVarUint (id section))))
              (append slot5 (append (appended (writeVarUint (id section))) e))))).
  { intros S. unfold bind at 1. unfold ensureState. rewrite Hst. cbn [EmitterState_eqb].
    unfold bind at 1. rewrite (writeVarUint_appended (id section) e).
    cbv [bind writePatchableVarUint32 _position get writeMutiple modify ret].
    f_equal. unfold append, slot5. simpl. by rewrite !len_app. }
  unfold writeBeginSection. rewrite Hrun. split.
  - intros [Hid | [Hid | [Hid | Hid]]]; rewrite Hid.
    + cbn [Z.eqb SectionCode.Custom].
      eexists. unfold bind at 1. rewrite writeString_writer.
      cbv [bind modify throw]. split; reflexivity.
    + eexists. split; reflexivity.
    + eexists. split; reflexivity.
    + eexists. split; reflexivity.
  - intros Hid. rewrite Hid. eexists. split; reflexivity.
Qed.

Lemma unsupported_sections_rejected_witness :
  _state (set_state Wasm constructor) = Wasm /\
  id (section SectionCode.Table) = SectionCode.Table /\
  exists e', writeBeginSection (section SectionCode.Table) (set_state Wasm constructor)
               = Throw (UnexpectedSection (id (section SectionCode.Table))) e' /\
             _state e' = Error.
Proof.
  split; [reflexivity |]. split; [reflexivity |].
  exact (proj1 (unsupported_sections_rejected (section SectionCode.Table)
                  (set_state Wasm constructor) eq_refl)
               (or_intror (or_intror (or_intror eq_refl)))).
Defined.

(** C4.  Let a function body, or an init expression, be opened and let
    [operators] be the events accepted since, none of them the closing
    event.  Then the instance is in the state [FunctionBody], or
    [InitExpression]; if the operator written last was [end], the closing
    method returns, and otherwise, also when no operator was written, it
    throws "End as a last written operator is expected" and the instance
    is as it was. *)
Theorem end_operator_discipline e0 operators e :
  (forall functionInfo,
     writeAll (BEGIN_FUNCTION_BODY functionInfo :: operators) e0 = Ok tt e ->
     END_FUNCTION_BODY ∉ operators ->
     _state e = FunctionBody /\
     if end_is_last operators
     then exists e', writeEndFunctionBody e = Ok tt e' /\ _state e' = CodeSection
     else writeEndFunctionBody e = Throw EndExpected e) /\
  (writeAll (BEGIN_INIT_EXPRESSION_BODY :: operators) e0 = Ok tt e ->
   END_INIT_EXPRESSION_BODY ∉ operators ->
   _state e = InitExpression /\
   if end_is_last operators
   then exists e', writeEndInitExpression e = Ok tt e' /\
                   _state e' = DataSectionEntryBody
   else writeEndInitExpression e = Throw EndExpected e).
Proof.
  split.
  - intros functionInfo (e1 & Hbegin & Hrun)%writeAll_cons Hnot.
    destruct (body_begin functionInfo e0 e1 Hbegin) as [Hinv Hend1].
    destruct (body_run _ operators e1 e Hinv Hnot Hrun) as [[Hst _ _ _ _] Hend].
    split; [exact Hst |]. unfold end_is_last.
    destruct (last_operator operators) as [op |].
    + destruct (code op =? OperatorCode.end_).
      * by apply writeEndFunctionBody_returns.
      * by apply writeEndFunctionBody_throws.
    + apply writeEndFunctionBody_throws; congruence.
  - intros (e1 & Hbegin & Hrun)%writeAll_cons Hnot.
    apply writeBeginInitExpression_ok in Hbegin as [_ ->].
    destruct (init_run operators _ e (eq_refl : _state (set_state InitExpression _) = _)
                Hnot Hrun) as (Hst & Hafter & Hend).
    simpl in Hafter, Hend.
    split; [exact Hst |]. unfold end_is_last.
    destruct (last_operator operators) as [op |].
    + destruct (code op =? OperatorCode.end_).
      * destruct (writeEndInitExpression_returns e Hst Hend) as (e' & He' & Hst').
        exists e'. split; [done | congruence].
      * by apply writeEndInitExpression_throws.
    + by apply writeEndInitExpression_throws.
Qed.

Lemma end_operator_discipline_witness :
  writeAll (BEGIN_FUNCTION_BODY {| locals := [] |} :: sample_body)
    (set_state CodeSection constructor) = Ok tt in_sample_body /\
  (END_FUNCTION_BODY ∉ sample_body) /\
  _state in_sample_body = FunctionBody /\
  exists e', writeEndFunctionBody in_sample_body = Ok tt e' /\
             _state e' = CodeSection.
Proof.
  assert (Hrun : writeAll (BEGIN_FUNCTION_BODY {| locals := [] |} :: sample_body)
                   (set_state CodeSection constructor) = Ok tt in_sample_body)
    by (vm_compute; reflexivity).
  assert (Hnot : END_FUNCTION_BODY ∉ sample_body) by not_among.
  split; [exact Hrun |]. split; [exact Hnot |].
  exact (proj1 (end_operator_discipline (set_state CodeSection constructor)
                  sample_body in_sample_body)
               {| locals := [] |} Hrun Hnot).
Defined.

(** C5.  Let a section be opened by [BeginSection] and let [events] be the
    events accepted since, none of them [EndSection].  If [EndSection] is
    then accepted and the length of the section fits 32 bits, the five
    bytes at [_sectionSizeBytes] read, as an unsigned LEB128 number, as the
    position at [EndSection] less [_sectionStart].  The same holds of a
    function body, [EndFunctionBody], [_bodySizeBytes] and [_bodyStart]. *)
Theorem size_prefix_consistency e0 events e e' :
  (forall section,
     writeAll (BEGIN_SECTION section :: events) e0 = Ok tt e ->
     END_SECTION ∉ events ->
     writeEndSection e = Ok tt e' ->
     len (_buffer e) - _sectionStart e < 2 ^ 32 ->
     slot (_buffer e') (_sectionSizeBytes e)
       = Some (len (_buffer e) - _sectionStart e, 5%nat)) /\
  (forall functionInfo,
     writeAll (BEGIN_FUNCTION_BODY functionInfo :: events) e0 = Ok tt e ->
     END_FUNCTION_BODY ∉ events ->
     writeEndFunctionBody e = Ok tt e' ->
     len (_buffer e) - _bodyStart e < 2 ^ 32 ->
     slot (_buffer e') (_bodySizeBytes e)
       = Some (len (_buffer e) - _bodyStart e, 5%nat)).
Proof.
  split.
  - intros section (e1 & Hbegin & Hrun)%writeAll_cons Hnot Hend Hfit.
    destruct (section_begin section e0 e1 Hbegin) as (start & Hinv & _).
    destruct (section_run start events e1 e Hinv Hnot Hrun) as [Hinv' _].
    by apply (section_end start e e' Hinv' Hend).
  - intros functionInfo (e1 & Hbegin & Hrun)%writeAll_cons Hnot Hend Hfit.
    destruct (body_begin functionInfo e0 e1 Hbegin) as [Hinv _].
    destruct (body_run _ events e1 e Hinv Hnot Hrun) as [Hinv' _].
    by apply (body_end _ e e' Hinv' Hend).
Qed.

Lemma size_prefix_consistency_witness :
  slot (_buffer (final (writeEndSection in_type_section)))
       (_sectionSizeBytes in_type_section)
    = Some (len (_buffer in_type_section) - _sectionStart in_type_section, 5%nat) /\
  slot (_buffer (final (writeEndFunctionBody in_sample_body)))
       (_bodySizeBytes in_sample_body)
    = Some (len (_buffer in_sample_body) - _bodyStart in_sample_body, 5%nat).
Proof.
  split.
  - apply (proj1 (size_prefix_consistency (set_state Wasm constructor)
                    sample_type_section in_type_section
                    (final (writeEndSection in_type_section)))
                 (section SectionCode.Type_));
      [vm_compute; reflexivity | not_among | vm_compute; reflexivity
      | vm_compute; reflexivity].
  - apply (proj2 (size_prefix_consistency (set_state CodeSection constructor)
                    sample_body in_sample_body
                    (final (writeEndFunctionBody in_sample_body)))
                 {| locals := [] |});
      [vm_compute; reflexivity | not_among | vm_compute; reflexivity
      | vm_compute; reflexivity].
Defined.

(** C6.  Let a section be opened by [BeginSection] and let [events] be the
    events accepted since, none of them [EndSection].  If [EndSection] is
    then accepted, the five bytes at [_sectionEntiesCountBytes] read, as an
    unsigned LEB128 number, as the number of entry events among [events]:
    section entries, beginnings of function bodies and beginnings of data
    entries.  (A JavaScript array is shorter than 2^32 elements.) *)
Theorem entry_count_consistency e0 section events e e' :
  writeAll (BEGIN_SECTION section :: events) e0 = Ok tt e ->
  END_SECTION ∉ events ->
  writeEndSection e = Ok tt e' ->
  len (_buffer e) < 2 ^ 32 ->
  slot (_buffer e') (_sectionEntiesCountBytes e)
    = Some (entry_events events, 5%nat).
Proof.
  intros (e1 & Hbegin & Hrun)%writeAll_cons Hnot Hend Hfit.
  destruct (section_begin section e0 e1 Hbegin) as (start & Hinv & Hzero).
  destruct (section_run start events e1 e Hinv Hnot Hrun) as [Hinv' Hcount].
  rewrite Hzero, Z.add_0_l in Hcount. rewrite <- Hcount.
  apply (section_end start e e' Hinv' Hend).
  destruct Hinv'. lia.
Qed.

Lemma entry_count_consistency_witness :
  slot (_buffer (final (writeEndSection in_type_section)))
       (_sectionEntiesCountBytes in_type_section)
    = Some (entry_events sample_type_section, 5%nat).
Proof.
  apply (entry_count_consistency (set_state Wasm constructor)
           (section SectionCode.Type_) sample_type_section in_type_section
           (final (writeEndSection in_type_section)));
    [vm_compute; reflexivity | not_among | vm_compute; reflexivity
    | vm_compute; reflexivity].
Defined.

End EmitterFacts.

(** ** The disassembler *)

Module DisFacts.
Import JS WasmParser WasmDis Replay DisSpec.
Local Open Scope string_scope.
Local Open Scope Z_scope.

Lemma append_same_l (s t : string) : s ++ t = s -> t = EmptyString.
Proof.
  induction s as [| c s IH]; simpl; [done |]. intros [= H]. by apply IH.
Qed.

(** C3 (the code departs from the claim).  For the nineteen integer loads
    and stores, [memoryAddressToString] with the natural alignment of the
    opcode prints [offset=k] alone.  For [f32.load], [f64.load],
    [f32.store] and [f64.store] it never does, whatever the offset: the
    [switch] has no case for them, so no flags equal the default; thus
    [f64.load] with flags 3 and offset 16 prints [offset=16 align=8]. *)
Theorem default_alignment_elision :
  Forall (fun '(code, d) => forall k,
            memoryAddressToString {| flags := d; offset := k |} code
              = "offset=" ++ toString k) integer_accesses /\
  Forall (fun '(code, d) => forall k,
            memoryAddressToString {| flags := d; offset := k |} code
              <> "offset=" ++ toString k) float_accesses /\
  memoryAddressToString {| flags := 3; offset := 16 |} OperatorCode.f64_load
    = "offset=16 align=8".
Proof.
  split; [| split; [| reflexivity]].
  - repeat constructor.
  - repeat constructor; intros k; unfold memoryAddressToString; simpl;
      destruct (k =? 0); try discriminate;
      intros [= H%append_same_l]; discriminate H.
Qed.

(** *** Fragments are only ever pushed *)

Lemma keeps_ret {A} (a : A) : keeps (ret a).
Proof. intros d. done. Qed.

Lemma keeps_throw {A} x : keeps (@throw A x).
Proof. intros d. done. Qed.

Lemma keeps_get {A} (f : WasmDisassembler -> A) : keeps (get f).
Proof. intros d. done. Qed.

Lemma keeps_lift {A} (r : Exception + A) : keeps (lift r).
Proof. destruct r; [apply keeps_throw | apply keeps_ret]. Qed.

Lemma keeps_defined {A} (o : option A) : keeps (defined o).
Proof. destruct o; [apply keeps_ret | apply keeps_throw]. Qed.

Lemma keeps_push s : keeps (push s).
Proof. intros d. simpl. by apply prefix_app_r. Qed.

Lemma keeps_modify f :
  (forall d, _buffer (f d) = _buffer d) -> keeps (modify f).
Proof. intros Hf d. simpl. by rewrite Hf. Qed.

Lemma keeps_bind {A B} (m : M A) (k : A -> M B) :
  keeps m -> (forall a, keeps (k a)) -> keeps (bind m k).
Proof.
  intros Hm Hk d. unfold bind. specialize (Hm d).
  destruct (m d) as [a d' | x d']; [| done].
  etransitivity; [exact Hm | apply Hk].
Qed.

Lemma keeps_for_of {A} (xs : list A) body :
  (forall x, keeps (body x)) -> keeps (for_of xs body).
Proof.
  intros Hb. induction xs as [| x xs IH]; simpl; [apply keeps_ret |].
  apply keeps_bind; [apply Hb | intros _; apply IH].
Qed.

Lemma keeps_for_loop trips i body :
  (forall j, keeps (body j)) -> keeps (for_loop trips i body).
Proof.
  intros Hb. revert i. induction trips as [| k IH]; intros i; simpl;
    [apply keeps_ret |].
  apply keeps_bind; [apply Hb | intros _; apply IH].
Qed.

Ltac keeps_step :=
  first [ apply keeps_ret | apply keeps_throw | apply keeps_get
        | apply keeps_lift | apply keeps_defined | apply keeps_push
        | apply keeps_modify; intros ?; reflexivity
        | apply keeps_for_of; intros ?
        | apply keeps_for_loop; intros ?
        | match goal with
          | |- keeps (if ?c then _ else _) => destruct c
          | |- keeps (match ?o with _ => _ end) => destruct o
          end
        | apply keeps_bind; [| intros ?] ].

Lemma keeps_disassemble_locals `{Externals} localIndex locals :
  keeps (disassemble_locals localIndex locals).
Proof.
  revert localIndex. induction locals as [| l rest IH]; intros localIndex; simpl.
  - apply keeps_ret.
  - apply keeps_bind; [unfold for_upto; repeat keeps_step | intros _; apply IH].
Qed.

Lemma keeps_disassemble_operator `{Externals} operator :
  keeps (disassemble_operator operator).
Proof.
  unfold disassemble_operator, when, when_defined, decreaseIndent, increaseIndent.
  repeat keeps_step.
Qed.

Lemma keeps_disassemble_event `{Externals} d : keeps (disassemble_event d).
Proof.
  destruct d; simpl; try apply keeps_throw;
    try apply keeps_disassemble_operator;
    unfold when_defined, post_increment, printType, globalTypeToString_import;
    repeat first [ apply keeps_disassemble_locals | keeps_step ].
Qed.

Section AnyReader.
Context `{Externals} {R : Type} `{BinaryReader R}.

Lemma disassemble_step_null (reader : R) this :
  (read reader).1 = false ->
  disassemble_step reader this = Return None (read reader).2 this.
Proof.
  unfold disassemble_step. destruct (read reader) as [more reader'].
  simpl. by intros ->.
Qed.

Lemma step_of_keeps (reader : R) (m : M unit) this :
  keeps m ->
  match step_of reader (m this) with
  | Next _ this' => _buffer this `prefix_of` _buffer this'
  | Return None _ this' => this' = this
  | _ => True
  end.
Proof. intros Hm. specialize (Hm this). by destruct (m this). Qed.

Lemma disassemble_step_keeps (reader : R) this s :
  disassemble_step reader this = s ->
  match s with
  | Next _ this' => _buffer this `prefix_of` _buffer this'
  | Return None _ this' => this' = this
  | _ => True
  end.
Proof.
  unfold disassemble_step. destruct (read reader) as [more reader'].
  destruct more; cbn [negb]; [| by intros <-].
  intros <-. unfold disassemble_switch.
  destruct (current reader');
    try (apply step_of_keeps, keeps_disassemble_event).
  - done.
  - cbv [push modify]. destruct (hasMoreBytes reader'); cbn [negb]; [| done].
    by apply prefix_app_r.
  - by destruct (case_of _ _).
Qed.

Lemma disassemble_keeps trips (reader : R) this reader' this' :
  disassemble trips reader this = Some (Return None reader' this') ->
  _buffer this `prefix_of` _buffer this'.
Proof.
  revert reader this. induction trips as [| k IH]; intros reader this; [done |].
  simpl. pose proof (disassemble_step_keeps reader this _ eq_refl) as Hs.
  destruct (disassemble_step reader this) as [r1 t1 | [res |] r1 t1 | x r1 t1];
    try done.
  - intros Hk. etransitivity; [exact Hs | by eapply IH].
  - intros [= -> ->]. by subst.
Qed.

(** A trip that goes on costs one trip and changes nothing else. *)
Lemma returns_next (reader reader1 : R) this this1 s :
  disassemble_step reader this = Next reader1 this1 ->
  returns reader this s <-> returns reader1 this1 s.
Proof.
  intros Hstep. split.
  - intros [[| k] Hk]; [done |]. simpl in Hk. rewrite Hstep in Hk. by exists k.
  - intros [k Hk]. exists (S k). simpl. by rewrite Hstep.
Qed.

Lemma reaches_null (reader reader' : R) this this' :
  reaches reader this reader' this' ->
  (read reader').1 = false ->
  returns reader this (Return None (read reader').2 this').
Proof.
  induction 1 as [reader this | reader this reader1 this1 reader' this' Hstep _ IH];
    intros Hmore.
  - exists 1%nat. simpl. by rewrite disassemble_step_null.
  - rewrite (returns_next _ _ _ _ _ Hstep). by apply IH.
Qed.

(** The two trips of a module that holds nothing *)
Lemma disassemble_empty header (reader r1 r2 : R) trips :
  read reader = (true, r1) -> current r1 = BEGIN_WASM header ->
  read r1 = (true, r2) -> current r2 = END_WASM -> hasMoreBytes r2 = false ->
  disassemble (2 + trips) reader constructor
    = Some (Return (Some ("(module" ++ LF ++ ")" ++ LF)) r2 constructor).
Proof.
  intros Hr1 Hc1 Hr2 Hc2 Hmore.
  cbn [Nat.add disassemble]. unfold disassemble_step.
  rewrite Hr1. cbn [negb]. unfold disassemble_switch at 1. rewrite Hc1.
  cbn [step_of disassemble_event push modify].
  rewrite Hr2. cbn [negb]. unfold disassemble_switch. rewrite Hc2.
  cbn [push modify]. rewrite Hmore. reflexivity.
Qed.

Lemma returns_same_read (reader1 reader2 : R) this s :
  read reader1 = read reader2 ->
  returns reader1 this s <-> returns reader2 this s.
Proof.
  intros Hread.
  assert (Hstep : disassemble_step reader1 this = disassemble_step reader2 this)
    by (unfold disassemble_step; by rewrite Hread).
  split; intros [[| k] Hk]; try done; exists (S k); simpl in *;
    by rewrite ?Hstep in *.
Qed.
End AnyReader.

(** *** A pause in the supply of bytes *)

(** Before the end of the module, the [switch] does not look at what is
    pending. *)
Lemma disassemble_switch_pending `{Externals} (r : Reader) p this :
  now r <> END_WASM ->
  match disassemble_switch r this with
  | Next r1 t1 =>
      pending r1 = pending r /\
      disassemble_switch (with_pending p r) this = Next (with_pending p r1) t1
  | Return _ _ _ => False
  | Throws x _ t1 =>
      disassemble_switch (with_pending p r) this = Throws x (with_pending p r) t1
  end.
Proof.
  intros Hnow. unfold disassemble_switch.
  change (current (with_pending p r)) with (now r).
  change (current r) with (now r).
  destruct (now r) eqn:Hd; try done;
    try (unfold step_of;
         match goal with
         | |- context [disassemble_event ?d this] =>
             by destruct (disassemble_event d this)
         end).
  by destruct (case_of _ _).
Qed.

Lemma replay_resume `{Externals} before :
  forall now skipping after this trips reader' this',
    END_WASM ∉ before ->
    disassemble trips
      {| now := now; pending := map Some before ++ None :: after;
         skipping := skipping |} this
      = Some (Return None reader' this') ->
    forall s,
      returns reader' this' s <->
      returns {| now := now; pending := map Some before ++ after;
                 skipping := skipping |} this s.
Proof.
  induction before as [| d rest IH];
    intros now skipping after this trips reader' this' Hnot Hnull s.
  - destruct trips as [| k]; [done |]. simpl in Hnull.
    by injection Hnull as <- <-.
  - apply not_elem_of_cons in Hnot as [Hd Hnot].
    destruct (skipping && negb (is_END_SECTION d)) eqn:Hskip.
    + (* the event is passed over *)
      rewrite (returns_same_read
                 {| now := now; pending := map Some (d :: rest) ++ after;
                    skipping := skipping |}
                 {| now := now; pending := map Some rest ++ after;
                    skipping := skipping |})
        by (simpl; by rewrite Hskip).
      apply (IH now skipping after this trips); [done |].
      destruct trips as [| k]; [done |].
      cbn [disassemble] in Hnull |- *.
      unfold disassemble_step in Hnull |- *.
      cbn [read reader replay_read Replay.now Replay.pending Replay.skipping
           map app] in Hnull |- *.
      by rewrite Hskip in Hnull.
    + (* the event is delivered *)
      destruct trips as [| k]; [done |].
      set (ru := {| now := d; pending := map Some rest ++ after;
                    skipping := false |}).
      assert (Hp : forall p,
        disassemble_step {| now := now; pending := map Some (d :: rest) ++ p;
                            skipping := skipping |} this
        = disassemble_switch (with_pending (map Some rest ++ p) ru) this).
      { intros p. unfold disassemble_step.
        cbn [read reader replay_read Replay.now Replay.pending Replay.skipping
             map app].
        by rewrite Hskip. }
      cbn [disassemble] in Hnull. rewrite Hp in Hnull.
      pose proof (disassemble_switch_pending ru (map Some rest ++ None :: after)
                    this ltac:(simpl; congruence)) as Hsw.
      assert (Hu : disassemble_step
                     {| now := now; pending := map Some (d :: rest) ++ after;
                        skipping := skipping |} this
                   = disassemble_switch ru this) by apply Hp.
      destruct (disassemble_switch ru this) as [r1 t1 | | x r1 t1]; [| done |].
      * destruct Hsw as [Hpend Hsw]. rewrite Hsw in Hnull.
        rewrite (returns_next _ r1 this t1 s Hu).
        destruct r1 as [now1 pending1 skipping1]. simpl in Hpend. subst pending1.
        by apply (IH now1 skipping1 after t1 k).
      * by rewrite Hsw in Hnull.
Qed.

(** C9.  Whenever [reader.read()] answers false, in the first trip of the
    loop or in a later one, [disassemble] returns [null], neither a string
    nor an error, and the instance is the one of that moment.  Whatever the
    reader, the fragments that the instance held at the call are still at
    the head of its buffer when [null] is returned.  And when the bytes of
    a module are supplied in two parts, the call made after the first part
    has returned [null] ends as the one call on all the bytes does. *)
Theorem disassemble_null_and_resume `{Externals} :
  (forall R `(BinaryReader R) (reader reader' : R) this this',
     reaches reader this reader' this' ->
     (read reader').1 = false ->
     returns reader this (Return None (read reader').2 this')) /\
  (forall R `(BinaryReader R) (reader reader' : R) this this' trips,
     disassemble trips reader this = Some (Return None reader' this') ->
     _buffer this `prefix_of` _buffer this') /\
  (forall now before after this trips reader' this',
     END_WASM ∉ before ->
     disassemble trips
       {| now := now; pending := map Some before ++ None :: after;
          skipping := false |} this
       = Some (Return None reader' this') ->
     forall s,
       returns reader' this' s <->
       returns {| now := now; pending := map Some before ++ after;
                  skipping := false |} this s).
Proof.
  split; [| split].
  - intros R ? reader reader' this this'. apply reaches_null.
  - intros R ? reader reader' this this' trips. apply disassemble_keeps.
  - intros now before. apply replay_resume.
Qed.

Lemma disassemble_null_and_resume_witness :
  @returns sample_externals Reader reader
    {| now := BEGIN_WASM None; pending := [Some END_WASM]; skipping := false |}
    (set_buffer ["(module" ++ LF] constructor)
    (Return (Some ("(module" ++ LF ++ ")" ++ LF))
       {| now := END_WASM; pending := []; skipping := false |} constructor).
Proof.
  apply (proj2 (proj2 (@disassemble_null_and_resume sample_externals))
           END_WASM [BEGIN_WASM None] [Some END_WASM] constructor 2%nat).
  - intros Hin. apply elem_of_cons in Hin as [Hin | Hin]; [discriminate Hin |].
    by apply elem_of_nil in Hin.
  - reflexivity.
  - exists 2%nat. reflexivity.
Defined.

(** C8.  For the events [BeginWasm], [EndWasm], the emitter's [data] is the
    eight bytes 00 61 73 6D 01 00 00 00; and for any reader that delivers
    these two events and then has no more bytes, [disassemble], given two
    trips or more, returns the text [(module], line feed, [)], line feed,
    and leaves the instance as a new one. *)
Theorem empty_module `{Externals} header :
  Emitter.writeAll [BEGIN_WASM header; END_WASM] Emitter.constructor
    = Emitter.Ok tt
        (Emitter.set_data (Some [0x00; 0x61; 0x73; 0x6D; 0x01; 0x00; 0x00; 0x00])
           Emitter.constructor) /\
  (forall R `(BinaryReader R) (reader r1 r2 : R) trips,
     read reader = (true, r1) -> current r1 = BEGIN_WASM header ->
     read r1 = (true, r2) -> current r2 = END_WASM ->
     hasMoreBytes r2 = false ->
     disassemble (2 + trips) reader constructor
       = Some (Return (Some ("(module" ++ LF ++ ")" ++ LF)) r2 constructor)).
Proof.
  split; [reflexivity |].
  intros R ? reader r1 r2 trips. apply disassemble_empty.
Qed.

Lemma empty_module_witness :
  @disassemble sample_externals Reader reader 2
    (of_events ERROR [BEGIN_WASM None; END_WASM]) constructor
    = Some (Return (Some ("(module" ++ LF ++ ")" ++ LF))
              {| now := END_WASM; pending := []; skipping := false |}
              constructor).
Proof.
  apply (proj2 (@empty_module sample_externals None) Reader reader
           (of_events ERROR [BEGIN_WASM None; END_WASM])
           {| now := BEGIN_WASM None; pending := [Some END_WASM];
              skipping := false |}
           {| now := END_WASM; pending := []; skipping := false |} 0%nat);
    reflexivity.
Defined.


End DisFacts.

(** ** The written bytes read back *)

Module WireFacts.
Import JS WasmParser Emitter EmitterSpec JSFacts EmitterFacts Wire.

Lemma seven_bits x :
  0 <= x < 128 ->
  (Z.land (128 + x) 0x80 =? 0) = false /\ Z.land (128 + x) 0x7F = x /\
  (Z.land x 0x80 =? 0) = true /\ (Z.land x 0x40 =? 0) = (x <? 64).
Proof.
  intros Hx.
  assert (HF : forallb (fun x => negb (Z.land (128 + x) 0x80 =? 0) &&
                                 (Z.land (128 + x) 0x7F =? x) &&
                                 (Z.land x 0x80 =? 0) &&
                                 Bool.eqb (Z.land x 0x40 =? 0) (x <? 64))
                   (map Z.of_nat (seq 0 128)) = true) by (vm_compute; reflexivity).
  rewrite forallb_forall in HF. specialize (HF x). rewrite in_map_iff in HF.
  assert (Hx' : exists k, Z.of_nat k = x /\ In k (seq 0 128))
    by (exists (Z.to_nat x); split; [lia | apply in_seq; lia]).
  specialize (HF Hx').
  apply andb_prop in HF as [HF H4]. apply andb_prop in HF as [HF H3].
  apply andb_prop in HF as [H1 H2].
  split; [by destruct (Z.land (128 + x) 128 =? 0) |].
  split; [by apply Z.eqb_eq |]. split; [done |]. by apply Bool.eqb_prop.
Qed.

Lemma uint_guard n :
  0 <= n < 2 ^ 32 -> (band n (bnot 0x7F) =? 0) = (n <? 128).
Proof.
  intros Hn. rewrite band_bnot_0x7F. unfold ToInt32.
  rewrite Z.mod_small by lia.
  destruct (Z.ltb_spec n (2 ^ 31)), (Z.ltb_spec n 128);
    repeat match goal with
    | |- context [?a <=? ?b] => destruct (Z.leb_spec a b)
    | |- context [?a <? ?b] => destruct (Z.ltb_spec a b)
    end; simpl; try reflexivity; lia.
Qed.

Lemma uint_loop f k n :
  0 <= n < 2 ^ 32 -> n < 2 ^ (7 * Z.of_nat k) -> (1 <= k <= S f)%nat ->
  exists bs, writer (writeVarUint_while f n) bs (inr tt) /\
    (1 <= length bs <= k)%nat /\ Forall is_byte bs /\
    forall rest, readVarUint (bs ++ rest) = Some (n, length bs).
Proof.
  revert k n. induction f as [| f IH]; intros k n Hn Hf Hk.
  - assert (k = 1%nat) by lia. subst k.
    change (2 ^ (7 * Z.of_nat 1)) with 128 in Hf.
    exists [n]. split; [apply writer_writeByte |]. split; [simpl; lia |].
    split; [constructor; [unfold is_byte; lia | constructor] |].
    intros rest. simpl. by destruct (seven_bits n ltac:(lia)) as (_ & _ & -> & _).
  - rewrite writeVarUint_while_S, uint_guard by done.
    destruct (Z.ltb_spec n 128) as [Hlt | Hge].
    + exists [n]. split; [apply writer_writeByte |]. split; [simpl; lia |].
      split; [constructor; [unfold is_byte; lia | constructor] |].
      intros rest. simpl. by destruct (seven_bits n ltac:(lia)) as (_ & _ & -> & _).
    + rewrite band_0x7f, shr_div by lia. rewrite (Z.mod_small n (2 ^ 32)) by lia.
      change (2 ^ 7) with 128.
      pose proof (Z.mod_pos_bound n 128 ltac:(lia)) as Hm.
      rewrite bor_0x80 by lia.
      destruct k as [| [| k]]; [lia | change (2 ^ (7 * Z.of_nat 1)) with 128 in Hf; lia |].
      destruct (IH (S k) (n / 128)) as (bs & Hw & Hlen & Hbytes & Hread).
      { split; [apply Z.div_pos; lia | apply Z.div_lt_upper_bound; lia]. }
      { replace (7 * Z.of_nat (S (S k))) with (7 + 7 * Z.of_nat (S k)) in Hf by lia.
        rewrite Z.pow_add_r in Hf by lia.
        assert (HP : 0 < 2 ^ (7 * Z.of_nat (S k))) by (apply Z.pow_pos_nonneg; lia).
        revert HP Hf. generalize (2 ^ (7 * Z.of_nat (S k))). intros P HP Hf.
        apply Z.div_lt_upper_bound; lia. }
      { lia. }
      exists ((128 + n mod 128) :: bs).
      split; [apply (writer_bind _ _ [_] tt bs); [apply writer_writeByte | exact Hw] |].
      split; [simpl; lia |].
      split; [constructor; [unfold is_byte; lia | done] |].
      intros rest. cbn [app readVarUint].
      destruct (seven_bits (n mod 128) Hm) as (-> & -> & _).
      rewrite Hread. simpl length. f_equal. f_equal.
      pose proof (Z.div_mod n 128 ltac:(lia)). lia.
Qed.

Lemma writeVarUint_decodes n :
  - 2 ^ 31 <= n < 2 ^ 32 ->
  exists bs, writer (writeVarUint n) bs (inr tt) /\
    (1 <= length bs <= 5)%nat /\ Forall is_byte bs /\
    forall rest, readVarUint (bs ++ rest) = Some (n mod 2 ^ 32, length bs).
Proof.
  intros Hn. destruct (Z.le_gt_cases 0 n) as [Hpos | Hneg].
  - rewrite Z.mod_small by lia.
    apply (uint_loop 5 5 n); [lia | simpl; lia | lia].
  - unfold writeVarUint. rewrite writeVarUint_while_S, band_bnot_0x7F.
    rewrite ToInt32_id by lia.
    destruct (Z.leb_spec 0 n); [lia |]. cbn [andb].
    rewrite band_0x7f, shr_div by lia. change (2 ^ 7) with 128.
    pose proof (Z.mod_pos_bound n 128 ltac:(lia)) as Hm.
    pose proof (Z.mod_pos_bound n (2 ^ 32) ltac:(lia)) as Hu.
    rewrite bor_0x80 by lia.
    destruct (uint_loop 4 4 (n mod 2 ^ 32 / 128)) as (bs & Hw & Hlen & Hbytes & Hread).
    { split; [apply Z.div_pos; lia | apply Z.div_lt_upper_bound; lia]. }
    { apply Z.div_lt_upper_bound; simpl; lia. }
    { lia. }
    exists ((128 + n mod 128) :: bs).
    split; [apply (writer_bind _ _ [_] tt bs); [apply writer_writeByte | exact Hw] |].
    split; [simpl; lia |].
    split; [constructor; [unfold is_byte; lia | done] |].
    intros rest. cbn [app readVarUint].
    destruct (seven_bits (n mod 128) Hm) as (-> & -> & _).
    rewrite Hread. simpl length. f_equal. f_equal.
    pose proof (Z.div_mod (n mod 2 ^ 32) 128 ltac:(lia)) as Hd.
    assert (Hmm : (n mod 2 ^ 32) mod 128 = n mod 128).
    { change (2 ^ 32) with (128 * 2 ^ 25). rewrite Z.rem_mul_r by lia.
      rewrite Z.mul_comm, Z.mod_add by lia. apply Z.mod_mod. lia. }
    lia.
Qed.

Lemma bor_0 n : bor n 0 = ToInt32 n.
Proof.
  unfold bor. rewrite (ToInt32_id 0) by lia. rewrite Z.lor_0_r.
  apply ToInt32_id, ToInt32_range.
Qed.

Lemma sign_div n P :
  0 < P -> - P <= n < P -> n / P = (if n <? 0 then -1 else 0).
Proof.
  intros HP Hn. destruct (Z.ltb_spec n 0).
  - assert (-1 <= n / P) by (apply Z.div_le_lower_bound; lia).
    assert (n / P < 0) by (apply Z.div_lt_upper_bound; lia). lia.
  - apply Z.div_small. lia.
Qed.

Lemma int_last n rest :
  -64 <= n < 64 ->
  readVarInt (band n 0x7f :: rest) = Some (n, 1%nat) /\ is_byte (band n 0x7f).
Proof.
  intros Hn. rewrite band_0x7f.
  pose proof (Z.mod_pos_bound n 128 ltac:(lia)) as Hm.
  split; [| unfold is_byte; lia].
  cbn [readVarInt]. destruct (seven_bits (n mod 128) Hm) as (_ & _ & -> & ->).
  f_equal. f_equal.
  destruct (Z.le_gt_cases 0 n).
  - rewrite Z.mod_small by lia. destruct (Z.ltb_spec n 64); lia.
  - rewrite <- (Z.mod_add n 1 128) by lia. rewrite Z.mod_small by lia.
    destruct (Z.ltb_spec (n + 1 * 128) 64); lia.
Qed.

Lemma int_loop f k n test :
  - 2 ^ 31 <= n < 2 ^ 31 ->
  - 2 ^ (7 * Z.of_nat k - 1) <= n < 2 ^ (7 * Z.of_nat k - 1) ->
  (1 <= k <= S f)%nat ->
  test = (if n <? 0 then -1 else 0) ->
  exists bs, writer (writeVarInt_while f test n) bs (inr tt) /\
    (1 <= length bs <= k)%nat /\ Forall is_byte bs /\
    forall rest, readVarInt (bs ++ rest) = Some (n, length bs).
Proof.
  revert k n. induction f as [| f IH]; intros k n Hr Hn Hk Ht.
  - assert (k = 1%nat) by lia. subst k.
    change (2 ^ (7 * Z.of_nat 1 - 1)) with 64 in Hn.
    exists [band n 0x7f]. split; [apply writer_writeByte |]. split; [simpl; lia |].
    split; [constructor; [apply (int_last n []); lia | constructor] |].
    intros rest. apply int_last. lia.
  - rewrite writeVarInt_while_S, sar_div, ToInt32_id by lia.
    change (2 ^ 6) with 64.
    destruct (Z.eqb_spec (n / 64) test) as [Heq | Hne].
    + assert (Hsmall : -64 <= n < 64).
      { pose proof (Z.div_mod n 64 ltac:(lia)).
        pose proof (Z.mod_pos_bound n 64 ltac:(lia)).
        subst test. destruct (Z.ltb_spec n 0); lia. }
      exists [band n 0x7f]. split; [apply writer_writeByte |]. split; [simpl; lia |].
      split; [constructor; [apply (int_last n []); lia | constructor] |].
      intros rest. apply int_last. lia.
    + assert (Hbig : ~ (-64 <= n < 64)).
      { intros Hs. apply Hne. subst test. apply sign_div; lia. }
      rewrite band_0x7f, sar_div, ToInt32_id by lia. change (2 ^ 7) with 128.
      pose proof (Z.mod_pos_bound n 128 ltac:(lia)) as Hm.
      rewrite bor_0x80 by lia.
      destruct k as [| [| k]];
        [lia | change (2 ^ (7 * Z.of_nat 1 - 1)) with 64 in Hn; lia |].
      destruct (IH (S k) (n / 128)) as (bs & Hw & Hlen & Hbytes & Hread).
      { split; [apply Z.div_le_lower_bound; lia | apply Z.div_lt_upper_bound; lia]. }
      { replace (7 * Z.of_nat (S (S k)) - 1) with (7 + (7 * Z.of_nat (S k) - 1)) in Hn by lia.
        rewrite Z.pow_add_r in Hn by lia.
        assert (HP : 0 < 2 ^ (7 * Z.of_nat (S k) - 1)) by (apply Z.pow_pos_nonneg; lia).
        revert HP Hn. generalize (2 ^ (7 * Z.of_nat (S k) - 1)). intros P HP Hn.
        split; [apply Z.div_le_lower_bound; lia | apply Z.div_lt_upper_bound; lia]. }
      { lia. }
      { subst test. destruct (Z.ltb_spec n 0), (Z.ltb_spec (n / 128) 0); try reflexivity.
        - assert (n / 128 < 0) by (apply Z.div_lt_upper_bound; lia). lia.
        - assert (0 <= n / 128) by (apply Z.div_pos; lia). lia. }
      exists ((128 + n mod 128) :: bs).
      split; [apply (writer_bind _ _ [_] tt bs); [apply writer_writeByte | exact Hw] |].
      split; [simpl; lia |].
      split; [constructor; [unfold is_byte; lia | done] |].
      intros rest. cbn [app readVarInt].
      destruct (seven_bits (n mod 128) Hm) as (-> & -> & _).
      rewrite Hread. simpl length. f_equal. f_equal.
      pose proof (Z.div_mod n 128 ltac:(lia)). lia.
Qed.

Lemma writeVarInt_decodes n :
  exists bs, writer (writeVarInt n) bs (inr tt) /\
    (1 <= length bs <= 5)%nat /\ Forall is_byte bs /\
    forall rest, readVarInt (bs ++ rest) = Some (ToInt32 n, length bs).
Proof.
  unfold writeVarInt. rewrite bor_0.
  pose proof (ToInt32_range n) as Hr.
  apply (int_loop 5 5); [done | simpl; lia | lia |].
  rewrite sar_div, ToInt32_id by lia. apply sign_div; lia.
Qed.

Lemma varuint_app bs rest n :
  readVarUint (bs ++ rest) = Some (n, length bs) -> varuint (bs ++ rest) = Some (n, rest).
Proof. intros H. unfold varuint. by rewrite H, drop_app_length. Qed.

Lemma varint_app bs rest n :
  readVarInt (bs ++ rest) = Some (n, length bs) -> varint (bs ++ rest) = Some (n, rest).
Proof. intros H. unfold varint. by rewrite H, drop_app_length. Qed.

Lemma varuint_written n rest :
  uint32 n -> varuint (appended (writeVarUint n) ++ rest) = Some (n, rest).
Proof.
  intros Hn. destruct (writeVarUint_decodes n) as (bs & Hw & _ & _ & Hr);
    [unfold uint32 in Hn; lia |].
  rewrite (writer_appended _ _ _ Hw). apply varuint_app.
  rewrite Hr. by rewrite Z.mod_small.
Qed.

Lemma varint_written n rest :
  int32 n -> varint (appended (writeVarInt n) ++ rest) = Some (n, rest).
Proof.
  intros Hn. destruct (writeVarInt_decodes n) as (bs & Hw & _ & _ & Hr).
  rewrite (writer_appended _ _ _ Hw). apply varint_app.
  rewrite Hr. by rewrite ToInt32_id.
Qed.

Lemma writeVarInt_appended n : writer (writeVarInt n) (appended (writeVarInt n)) (inr tt).
Proof.
  destruct (writeVarInt_writer n) as (bs & _ & Hbs).
  by rewrite (writer_appended _ _ _ Hbs).
Qed.

Lemma raw_app bs rest : raw (length bs) (bs ++ rest) = Some (bs, rest).
Proof.
  unfold raw. rewrite length_app.
  destruct (Nat.leb_spec (length bs) (length bs + length rest)); [| lia].
  by rewrite take_app_length, drop_app_length.
Qed.

Lemma byte_string_written str rest :
  len str < 2 ^ 32 ->
  byte_string (appended (writeString str) ++ rest) = Some (str, rest).
Proof.
  intros Hlen. rewrite (writer_appended _ _ _ (writeString_writer str)).
  unfold byte_string, dbind. rewrite <- app_assoc.
  rewrite varuint_written by (unfold uint32, len in *; lia).
  unfold len. rewrite Nat2Z.id. apply raw_app.
Qed.

(** The loop that writes an array of signed numbers *)
Lemma writeVarInt_loop (l : list Z) :
  writer (for_range 0 (len l) (fun i => writeVarInt (num (item l i))))
    (flat_map (fun x => appended (writeVarInt x)) l) (inr tt).
Proof.
  unfold for_range. rewrite Z.sub_0_r.
  pose proof (writer_for_loop (Z.to_nat (len l)) 0
                (fun i => writeVarInt (num (item l i)))
                (fun i => appended (writeVarInt (num (item l i))))
                (fun j => writeVarInt_appended _)) as H.
  assert (E : forall L : list Z,
            flat_map (fun i => appended (writeVarInt (num (item l i)))) L
            = flat_map (fun x => appended (writeVarInt x))
                (map (fun i => num (item l i)) L)).
  { induction L as [| ? ? IHL]; [done |]. simpl. by rewrite IHL. }
  rewrite E in H.
  assert (El : Z.to_nat (len l) = length l) by (unfold len; lia).
  rewrite El in H |- *.
  pose proof (indices_items l []) as Ei. simpl in Ei.
  change (len []) with 0 in Ei. by rewrite Ei in H.
Qed.

Lemma many_varint_written (l : list Z) rest :
  Forall int32 l ->
  many (length l) varint (flat_map (fun x => appended (writeVarInt x)) l ++ rest)
    = Some (l, rest).
Proof.
  induction 1 as [| x l Hx _ IH]; [done |].
  cbn [length many flat_map]. unfold dbind at 1. rewrite <- app_assoc.
  rewrite varint_written by done. unfold dbind. by rewrite IH.
Qed.

Lemma writeFuncType_writer type :
  writer (writeFuncType type)
    (appended (writeVarInt (form type)) ++
     appended (writeVarUint (len (params type))) ++
     flat_map (fun x => appended (writeVarInt x)) (params type) ++
     appended (writeVarUint (len (returns type))) ++
     flat_map (fun x => appended (writeVarInt x)) (returns type)) (inr tt).
Proof.
  unfold writeFuncType.
  eapply writer_bind; [apply writeVarInt_appended |].
  eapply writer_bind; [apply writeVarUint_appended |].
  eapply writer_bind; [apply writeVarInt_loop |].
  eapply writer_bind; [apply writeVarUint_appended |].
  apply writeVarInt_loop.
Qed.

Lemma func_type_written type rest :
  int32 (form type) -> Forall int32 (params type) -> Forall int32 (returns type) ->
  len (params type) < 2 ^ 32 -> len (returns type) < 2 ^ 32 ->
  func_type (appended (writeFuncType type) ++ rest) = Some (type, rest).
Proof.
  intros Hf Hp Hr Hlp Hlr.
  rewrite (writer_appended _ _ _ (writeFuncType_writer type)).
  unfold func_type. rewrite <- !app_assoc.
  unfold dbind at 1. rewrite varint_written by done.
  unfold dbind at 1. rewrite varuint_written by (unfold uint32, len in *; lia).
  unfold len at 1. rewrite Nat2Z.id.
  unfold dbind at 1. rewrite many_varint_written by done.
  unfold dbind at 1. rewrite varuint_written by (unfold uint32, len in *; lia).
  unfold len at 1. rewrite Nat2Z.id.
  unfold dbind at 1. rewrite many_varint_written by done.
  unfold dret. by destruct type.
Qed.

Lemma resizable_limits_written limits rest :
  uint32 (initial limits) ->
  (forall m, maximum limits = Some m -> uint32 m) ->
  exists bs,
    writer (writeResizableLimits (Some limits)) bs (inr tt) /\
    resizable_limits (bs ++ rest) = Some (limits, rest).
Proof.
  intros Hi Hm. unfold writeResizableLimits.
  destruct limits as [ini [m |]]; cbn [initial maximum] in *.
  - exists (appended (writeVarUint 1) ++ appended (writeVarUint ini) ++
            appended (writeVarUint m)).
    split.
    + apply (writer_bind_ret (A := IResizableLimits)). cbn [maximum initial num default].
      eapply writer_bind; [apply writeVarUint_appended |].
      eapply writer_bind; [apply writeVarUint_appended |].
      apply writeVarUint_appended.
    + unfold resizable_limits. rewrite <- !app_assoc.
      unfold dbind at 1. rewrite varuint_written by (unfold uint32; lia).
      unfold dbind at 1. rewrite varuint_written by done. cbn [Z.eqb].
      unfold dbind. rewrite varuint_written by auto.
      reflexivity.
  - exists (appended (writeVarUint 0) ++ appended (writeVarUint ini)).
    split.
    + apply (writer_bind_ret (A := IResizableLimits)). cbn [maximum initial].
      eapply writer_bind; [apply writeVarUint_appended |].
      rewrite <- (app_nil_r (appended (writeVarUint ini))).
      eapply writer_bind; [apply writeVarUint_appended |].
      apply writer_ret.
    + unfold resizable_limits. rewrite <- !app_assoc.
      unfold dbind at 1. rewrite varuint_written by (unfold uint32; lia).
      unfold dbind at 1. rewrite varuint_written by done.
      reflexivity.
Qed.



Lemma varuint_one n rest :
  uint32 n -> varuint (appended (writeVarUint n) ++ rest) = Some (n, rest).
Proof. apply varuint_written. Qed.








Lemma limits_appended limits rest :
  limits_in_range limits ->
  writer (writeResizableLimits (Some limits))
    (appended (writeResizableLimits (Some limits))) (inr tt) /\
  resizable_limits (appended (writeResizableLimits (Some limits)) ++ rest)
    = Some (limits, rest).
Proof.
  intros [Hi Hm].
  destruct (resizable_limits_written limits rest Hi Hm) as (bs & Hw & Hr).
  by rewrite (writer_appended _ _ _ Hw).
Qed.

(** An entry handler in its state: the count grows by one and the bytes
    of the entry are appended *)
Lemma entry_written st (W : M unit) bs e :
  _state e = st -> writer W bs (inr tt) ->
  bind (ensureState st) (fun _ => bind incrementSectionEntiesCount (fun _ => W)) e
  = Ok tt (append bs (set_sectionEntiesCount (_sectionEntiesCount e + 1) e)).
Proof.
  intros Hst HW. unfold bind, ensureState.
  destruct (EmitterState_eqb_spec (_state e) st); [| done].
  unfold incrementSectionEntiesCount, modify. by rewrite HW.
Qed.

Lemma writeString_appended str :
  writer (writeString str) (appended (writeString str)) (inr tt).
Proof.
  rewrite (writer_appended _ _ _ (writeString_writer str)). apply writeString_writer.
Qed.


Ltac eval_kind :=
  repeat match goal with
         | |- context [?a =? ?b] =>
             let v := eval vm_compute in (a =? b) in
             change (a =? b) with v
         end;
  cbv iota.

Lemma import_round_trip entry e rest :
  _state e = ImportSection -> import_well_formed entry ->
  exists bs,
    writeImportSectionEntry entry e
      = Ok tt (append bs (set_sectionEntiesCount (_sectionEntiesCount e + 1) e)) /\
    import_entry (bs ++ rest) = Some (entry, rest).
Proof.
  intros Hst (Hm & Hf & Hkind).
  destruct entry as [m f k i t]. cbn [module field kind funcTypeIndex type] in *.
  destruct Hkind as [(-> & -> & i0 & -> & Hi)
                    | [(-> & -> & [et l] & -> & Het & Hl)
                    | [(-> & -> & [l] & -> & Hl)
                    | (-> & -> & [ct mu] & -> & Hct & Hmu)]]];
    cbn [elementType table_limits limits contentType mutability] in *.
  - eexists. split.
    + apply entry_written; [done |]. cbn [module field kind funcTypeIndex type].
      eapply writer_bind; [apply writeString_appended |].
      eapply writer_bind; [apply writeString_appended |].
      eapply writer_bind; [apply writer_writeByte |].
      eval_kind. apply writeVarUint_appended.
    + unfold import_entry. rewrite <- !app_assoc.
      unfold dbind at 1. rewrite byte_string_written by done.
      unfold dbind at 1. rewrite byte_string_written by done. cbn [app].
      unfold dbind at 1. cbn [byte]. eval_kind.
      unfold dbind. by rewrite varuint_written.
  - destruct (limits_appended l rest Hl) as [Hw Hr].
    eexists. split.
    + apply entry_written; [done |]. cbn [module field kind funcTypeIndex type].
      eapply writer_bind; [apply writeString_appended |].
      eapply writer_bind; [apply writeString_appended |].
      eapply writer_bind; [apply writer_writeByte |].
      eval_kind. unfold writeTableType, writeMemoryType, writeGlobalType.
      apply (writer_bind_ret (A := ImportEntryType)).
      cbn [prop_elementType prop_limits num default elementType table_limits].
      eapply writer_bind; [apply writeVarInt_appended | exact Hw].
    + unfold import_entry. rewrite <- !app_assoc.
      unfold dbind at 1. rewrite byte_string_written by done.
      unfold dbind at 1. rewrite byte_string_written by done. cbn [app].
      unfold dbind at 1. cbn [byte]. eval_kind.
      unfold dbind at 1. rewrite varint_written by done.
      unfold dbind. by rewrite Hr.
  - destruct (limits_appended l rest Hl) as [Hw Hr].
    eexists. split.
    + apply entry_written; [done |]. cbn [module field kind funcTypeIndex type].
      eapply writer_bind; [apply writeString_appended |].
      eapply writer_bind; [apply writeString_appended |].
      eapply writer_bind; [apply writer_writeByte |].
      eval_kind. unfold writeTableType, writeMemoryType, writeGlobalType.
      apply (writer_bind_ret (A := ImportEntryType)).
      cbn [prop_limits limits]. exact Hw.
    + unfold import_entry. rewrite <- !app_assoc.
      unfold dbind at 1. rewrite byte_string_written by done.
      unfold dbind at 1. rewrite byte_string_written by done. cbn [app].
      unfold dbind at 1. cbn [byte]. eval_kind.
      unfold dbind. by rewrite Hr.
  - eexists. split.
    + apply entry_written; [done |]. cbn [module field kind funcTypeIndex type].
      eapply writer_bind; [apply writeString_appended |].
      eapply writer_bind; [apply writeString_appended |].
      eapply writer_bind; [apply writer_writeByte |].
      eval_kind. unfold writeTableType, writeMemoryType, writeGlobalType.
      apply (writer_bind_ret (A := ImportEntryType)).
      cbn [prop_contentType prop_mutability num default contentType mutability].
      eapply writer_bind; [apply writeVarInt_appended | apply writeVarUint_appended].
    + unfold import_entry. rewrite <- !app_assoc.
      unfold dbind at 1. rewrite byte_string_written by done.
      unfold dbind at 1. rewrite byte_string_written by done. cbn [app].
      unfold dbind at 1. cbn [byte]. eval_kind.
      unfold dbind at 1. rewrite varint_written by done.
      unfold dbind. by rewrite varuint_written.
Qed.

(** *** Round trips of the written bytes *)

(** X1.  [writeVarUint] writes a number from -2^31 up to 2^32 as one to
    five bytes, each below 256, that read back, as an unsigned LEB128
    number, as that number modulo 2^32, whatever bytes follow them. *)
Theorem writeVarUint_round_trip n rest :
  - 2 ^ 31 <= n < 2 ^ 32 ->
  exists bs, writer (writeVarUint n) bs (inr tt) /\
    (1 <= length bs <= 5)%nat /\ Forall is_byte bs /\
    readVarUint (bs ++ rest) = Some (n mod 2 ^ 32, length bs).
Proof.
  intros Hn. destruct (writeVarUint_decodes n Hn) as (bs & Hw & Hlen & Hb & Hr).
  exists bs. auto.
Qed.

Lemma writeVarUint_round_trip_witness :
  exists bs, writer (writeVarUint 300) bs (inr tt) /\
    (1 <= length bs <= 5)%nat /\ Forall is_byte bs /\
    readVarUint (bs ++ [7]) = Some (300 mod 2 ^ 32, length bs).
Proof. apply (writeVarUint_round_trip 300 [7]). lia. Defined.

(** X2.  [writeVarInt] writes any number as one to five bytes, each below
    256, that read back, as a signed LEB128 number, as the 32-bit signed
    value of that number, whatever bytes follow them. *)
Theorem writeVarInt_round_trip n rest :
  exists bs, writer (writeVarInt n) bs (inr tt) /\
    (1 <= length bs <= 5)%nat /\ Forall is_byte bs /\
    readVarInt (bs ++ rest) = Some (ToInt32 n, length bs).
Proof.
  destruct (writeVarInt_decodes n) as (bs & Hw & Hlen & Hb & Hr).
  exists bs. auto.
Qed.

(** X4.  What [writeString] writes for an array shorter than 2^32 reads
    back, as a length followed by that many bytes, as the array, and
    leaves the bytes that follow. *)
Theorem writeString_round_trip str rest :
  len str < 2 ^ 32 ->
  exists bs, writer (writeString str) bs (inr tt) /\
    byte_string (bs ++ rest) = Some (str, rest).
Proof.
  intros Hlen. exists (appended (writeString str)). split.
  - rewrite (writer_appended _ _ _ (writeString_writer str)).
    apply writeString_writer.
  - by apply byte_string_written.
Qed.

Lemma writeString_round_trip_witness :
  exists bs, writer (writeString [104; 105]) bs (inr tt) /\
    byte_string (bs ++ [0]) = Some ([104; 105], [0]).
Proof. apply (writeString_round_trip [104; 105] [0]). vm_compute. reflexivity. Defined.

(** X5.  What [writeFuncType] writes for a function type whose form,
    parameters and results are 32-bit signed numbers reads back as that
    function type: the form, the count of parameters and the parameters,
    the count of results and the results. *)
Theorem writeFuncType_round_trip type rest :
  int32 (form type) -> Forall int32 (params type) -> Forall int32 (returns type) ->
  len (params type) < 2 ^ 32 -> len (returns type) < 2 ^ 32 ->
  exists bs, writer (writeFuncType type) bs (inr tt) /\
    func_type (bs ++ rest) = Some (type, rest).
Proof.
  intros Hf Hp Hr Hlp Hlr. exists (appended (writeFuncType type)). split.
  - rewrite (writer_appended _ _ _ (writeFuncType_writer type)).
    apply writeFuncType_writer.
  - by apply func_type_written.
Qed.

Lemma writeFuncType_round_trip_witness :
  exists bs,
    writer (writeFuncType
              {| form := Type_.func; params := [Type_.i32; Type_.f64];
                 returns := [Type_.i32] |}) bs (inr tt) /\
    func_type (bs ++ [11])
      = Some ({| form := Type_.func; params := [Type_.i32; Type_.f64];
                 returns := [Type_.i32] |}, [11]).
Proof.
  apply (writeFuncType_round_trip
           {| form := Type_.func; params := [Type_.i32; Type_.f64];
              returns := [Type_.i32] |} [11]).
  - unfold int32. simpl. unfold Type_.func. lia.
  - repeat constructor; unfold int32, Type_.i32, Type_.f64; lia.
  - repeat constructor; unfold int32, Type_.i32; lia.
  - vm_compute. reflexivity.
  - vm_compute. reflexivity.
Defined.

(** X6.  What [writeResizableLimits] writes for limits within 32 bits
    reads back as those limits: the flag is 1 exactly when there is a
    maximum, and the maximum follows the initial size only then. *)
Theorem writeResizableLimits_round_trip limits rest :
  uint32 (initial limits) ->
  (forall m, maximum limits = Some m -> uint32 m) ->
  exists bs,
    writer (writeResizableLimits (Some limits)) bs (inr tt) /\
    resizable_limits (bs ++ rest) = Some (limits, rest).
Proof. apply resizable_limits_written. Qed.

Lemma writeResizableLimits_round_trip_witness :
  exists bs,
    writer (writeResizableLimits (Some {| initial := 1; maximum := Some 256 |}))
      bs (inr tt) /\
    resizable_limits (bs ++ [])
      = Some ({| initial := 1; maximum := Some 256 |}, []).
Proof.
  apply (writeResizableLimits_round_trip {| initial := 1; maximum := Some 256 |} []).
  - unfold uint32. simpl. lia.
  - intros m [= <-]. unfold uint32. lia.
Defined.






(** X19.  In the state [ImportSection], [writeImportSectionEntry] counts
    the entry and appends bytes that read back as the entry: the two names,
    the kind as one byte, and then the index of the type for a function,
    the element type and the limits for a table, the limits for a memory,
    and the content type and the mutability for a global. *)
Theorem writeImportSectionEntry_round_trip entry e rest :
  _state e = ImportSection -> import_well_formed entry ->
  exists bs,
    writeImportSectionEntry entry e
      = Ok tt (append bs (set_sectionEntiesCount (_sectionEntiesCount e + 1) e)) /\
    import_entry (bs ++ rest) = Some (entry, rest).
Proof. apply import_round_trip. Qed.

Lemma writeImportSectionEntry_round_trip_witness :
  exists bs,
    writeImportSectionEntry sample_import (set_state ImportSection constructor)
      = Ok tt (append bs
                 (set_sectionEntiesCount
                    (_sectionEntiesCount (set_state ImportSection constructor) + 1)
                    (set_state ImportSection constructor))) /\
    import_entry (bs ++ []) = Some (sample_import, []).
Proof.
  apply (writeImportSectionEntry_round_trip sample_import
           (set_state ImportSection constructor) []).
  - reflexivity.
  - split; [vm_compute; reflexivity |]. split; [vm_compute; reflexivity |].
    right. left. split; [reflexivity |]. split; [reflexivity |].
    eexists. split; [reflexivity |].
    split; [unfold int32, Type_.anyfunc; simpl; lia |].
    split; [unfold uint32; simpl; lia |].
    intros m [= <-]. unfold uint32. lia.
Defined.

End WireFacts.

(** ** The order of events *)

Module ProtocolFacts.
Import JS WasmParser Emitter EmitterSpec JSFacts EmitterFacts Protocol.

Lemma ensureState_rejects {A} st (k : unit -> M A) e :
  _state e <> st ->
  bind (ensureState st) k e = Throw (UnexpectedState (_state e) st) e.
Proof.
  intros Hne. unfold bind, ensureState.
  by destruct (EmitterState_eqb_spec (_state e) st).
Qed.

Lemma not_in_one (s st : EmitterState) : s ∉ [st] -> s <> st.
Proof. intros H ->. apply H. by left. Qed.

Lemma rejected d e :
  _state e ∉ accepted_in d -> exists x, writeData d e = Throw x e.
Proof.
  intros Hnot. unfold writeData, writeStateAndResult.
  destruct d; cbn [accepted_in] in Hnot;
    try (eexists; reflexivity);
    try (eexists; apply ensureState_rejects, not_in_one, Hnot).
  - (* END_SECTION *)
    unfold writeEndSection, bind at 1 2, get at 1.
    destruct (_state e) eqn:Hst;
      try (solve [exfalso; apply Hnot; repeat first [ by left | right ]]);
      eexists; reflexivity.
  - unfold writeOperator, bind at 1, ensureEitherState. cbn [existsb].
    destruct (_state e) eqn:Hst;
      try (solve [exfalso; apply Hnot; repeat first [ by left | right ]]);
      eexists; reflexivity.
  - unfold writeOperator, bind at 1, ensureEitherState. cbn [existsb].
    destruct (_state e) eqn:Hst;
      try (solve [exfalso; apply Hnot; repeat first [ by left | right ]]);
      eexists; reflexivity.
  - unfold writeBeginInitExpression, bind at 1 2, get at 1.
    destruct (_state e) eqn:Hst;
      try (solve [exfalso; apply Hnot; repeat first [ by left | right ]]);
      eexists; reflexivity.
Qed.

Lemma error_absorbs d rest e :
  _state e = Error -> exists x, writeAll (d :: rest) e = Throw x e.
Proof.
  intros Hst.
  assert (Hnot : _state e ∉ accepted_in d).
  { rewrite Hst. destruct d; cbn [accepted_in]; not_among. }
  destruct (rejected d e Hnot) as (x & Hx). exists x.
  cbn [writeAll]. unfold bind. by rewrite Hx.
Qed.

Lemma preserves_writer {A} (m : M A) : is_writer m -> preserves m.
Proof. intros (bs & r & Hw) e He. rewrite Hw. by destruct r. Qed.

Lemma preserves_bind {A B} (m : M A) (k : A -> M B) :
  preserves m -> (forall a, preserves (k a)) -> preserves (bind m k).
Proof.
  intros Hm Hk e He. specialize (Hm e He). unfold bind.
  destruct (m e) as [a e' | x e']; [by apply Hk | done].
Qed.

Lemma preserves_modify f :
  (forall e, Live e -> Live (f e)) -> preserves (modify f).
Proof. intros Hf e He. by apply Hf. Qed.

Lemma preserves_same {A} (m : M A) :
  (forall e, final (m e) = e) -> preserves m.
Proof. intros H e He. by rewrite H. Qed.

Ltac pres :=
  lazymatch goal with
  | |- preserves (bind _ _) => apply preserves_bind; [| intros ?]
  | |- preserves (modify _) => apply preserves_modify; by intros ? []
  | |- preserves (ensureState _) =>
      apply preserves_same; intros ?; unfold ensureState;
      by destruct (EmitterState_eqb _ _)
  | |- preserves (ensureEitherState _) =>
      apply preserves_same; intros ?; unfold ensureEitherState;
      by destruct (existsb _ _)
  | |- preserves ensureEndOperatorWritten =>
      apply preserves_same; intros ?; unfold ensureEndOperatorWritten;
      by destruct (_endWritten _)
  | |- preserves (get _) => by apply preserves_same
  | |- preserves _position => by apply preserves_same
  | |- preserves (throw _) => by apply preserves_same
  | |- preserves (ret _) => by apply preserves_same
  | |- preserves (patchVarUint32 _ _) =>
      intros ? ?; by rewrite patchVarUint32_patched
  | |- preserves (writeMutiple _) => apply preserves_modify; by intros ? []
  | |- preserves writePatchableVarUint32 => unfold writePatchableVarUint32
  | |- preserves writePatchableSectionEntriesCount =>
      unfold writePatchableSectionEntriesCount
  | |- preserves (if ?c then _ else _) => destruct c
  | |- preserves (match ?s with _ => _ end) => destruct s
  | |- preserves (writeString _) =>
      apply preserves_writer, is_writer1_is_writer, is_writer1_writeString
  | |- preserves (writeFuncType _) =>
      apply preserves_writer, is_writer1_is_writer, is_writer1_writeFuncType
  | |- preserves (writeMemoryType _) =>
      apply preserves_writer, is_writer1_is_writer, is_writer1_writeMemoryType
  | |- preserves (writeTableType _) => apply preserves_writer, is_writer_writeTableType
  | |- preserves (writeGlobalType _) => apply preserves_writer, is_writer_writeGlobalType
  | |- preserves (writeMemoryImmediate _) =>
      apply preserves_writer, is_writer_writeMemoryImmediate
  | |- preserves (writeVarInt64 _) => apply preserves_writer, is_writer_writeVarInt64
  | |- preserves (writeFloat32 _) => apply preserves_writer, is_writer_writeFloat32
  | |- preserves (writeFloat64 _) => apply preserves_writer, is_writer_writeFloat64
  | |- preserves (for_range _ _ _) =>
      apply preserves_writer; unfold for_range; repeat writer_step
  | |- preserves _ => apply preserves_writer; repeat writer_step
  end.

Lemma live_writeData d : preserves (writeData d).
Proof.
  unfold writeData, writeStateAndResult.
  destruct d; try (by apply preserves_same).
  - unfold writeBeginWasm. repeat pres.
  - unfold writeEndWasm. repeat pres.
  - unfold writeBeginSection. repeat pres.
  - (* END_SECTION *)
    unfold writeEndSection. repeat pres.
  - unfold writeTypeSectionEntry, incrementSectionEntiesCount. repeat pres.
  - unfold writeImportSectionEntry, incrementSectionEntiesCount. repeat pres.
  - unfold writeFunctionSectionEntry, incrementSectionEntiesCount. repeat pres.
  - unfold writeExportSectionEntry, incrementSectionEntiesCount. repeat pres.
  - unfold writeBeginFunctionBody, incrementSectionEntiesCount. repeat pres.
  - unfold writeEndFunctionBody. repeat pres.
  - unfold writeMemorySectionEntry, incrementSectionEntiesCount. repeat pres.
  - unfold writeOperator. repeat pres.
  - unfold writeOperator. repeat pres.
  - unfold writeBeginDataSectionEntry, incrementSectionEntiesCount. repeat pres.
  - unfold writeDataSectionBody. repeat pres.
  - unfold writeEndDataSectionEntry. repeat pres.
  - unfold writeBeginInitExpression. repeat pres.
  - (* END_INIT_EXPRESSION_BODY *)
    unfold writeEndInitExpression.
    apply preserves_bind; [pres | intros _].
    apply preserves_bind; [pres | intros _].
    intros e [H1 H2]. split; [exact H2 | exact H2].
Qed.

Lemma live_writeAll events : preserves (writeAll events).
Proof.
  induction events as [| d rest IH]; [by apply preserves_same |].
  cbn [writeAll]. apply preserves_bind; [apply live_writeData | intros _; exact IH].
Qed.

Lemma prefix_patched (pre buffer : list Z) pos n :
  pre `prefix_of` buffer -> len pre <= pos -> pos + 5 <= len buffer ->
  pre `prefix_of` patched buffer pos n.
Proof.
  intros [k Hk] Hpre Hlen.
  destruct (split_slot buffer pos ltac:(pose proof (len_nonneg pre); lia) Hlen)
    as (p & a0 & a1 & a2 & a3 & a4 & post & Hb & Hp).
  rewrite Hb, <- Hp, patched_slot.
  apply prefix_app_r.
  assert (Ht : take (length pre) buffer = pre) by (rewrite Hk; apply take_app_length).
  rewrite Hb in Ht. rewrite take_app_le in Ht by (unfold len in *; lia).
  rewrite <- Ht. apply prefix_take.
Qed.

Lemma inside_step pre start d e e' :
  Inside pre start e -> d <> END_SECTION ->
  writeData d e = Ok tt e' -> Inside pre start e'.
Proof.
  intros [Hinv Hpre Hbefore Hslot] Hd H.
  destruct (section_step start d e e' Hinv Hd H) as [Hinv' _].
  split; [exact Hinv' | | exact Hbefore |].
  - (* the bytes *)
    unfold writeData, writeStateAndResult in H.
    destruct d; try done; try discriminate H.
    all: try (first
      [ apply writeBeginWasm_ok in H as (_ & ->)
      | apply writeTypeSectionEntry_ok in H as (_ & bs & _ & ->)
      | apply writeImportSectionEntry_ok in H as (_ & bs & _ & ->)
      | apply writeFunctionSectionEntry_ok in H as (_ & bs & _ & ->)
      | apply writeExportSectionEntry_ok in H as (_ & bs & _ & ->)
      | apply writeMemorySectionEntry_ok in H as (_ & bs & _ & ->)
      | apply writeBeginFunctionBody_ok in H as (_ & bs & ->)
      | apply writeOperator_ok in H as (_ & bs & ->)
      | apply writeBeginDataSectionEntry_ok in H as (_ & bs & _ & ->)
      | apply writeDataSectionBody_ok in H as (_ & bs & ->)
      | apply writeEndDataSectionEntry_ok in H as (_ & ->)
      | apply writeBeginInitExpression_ok in H as (_ & ->)
      | apply writeEndInitExpression_ok in H as (_ & _ & ->) ];
      simpl; repeat apply prefix_app_r; exact Hpre).
    + apply writeEndWasm_ok in H as (Hst & _).
      destruct Hinv as [Hopen]. by rewrite Hst in Hopen.
    + apply writeBeginSection_ok in H as (Hst & _).
      destruct Hinv as [Hopen]. by rewrite Hst in Hopen.
    + apply writeEndFunctionBody_ok in H as (Hst & _ & ->). simpl.
      destruct (Hslot Hst) as [H1 H2].
      apply prefix_patched; [done | lia | lia].
  - (* the slot of the body *)
    unfold writeData, writeStateAndResult in H.
    destruct d; try done; try discriminate H.
    all: try (first
      [ apply writeBeginWasm_ok in H as (_ & ->)
      | apply writeEndWasm_ok in H as (_ & ->)
      | apply writeTypeSectionEntry_ok in H as (Hst & bs & _ & ->)
      | apply writeImportSectionEntry_ok in H as (Hst & bs & _ & ->)
      | apply writeFunctionSectionEntry_ok in H as (Hst & bs & _ & ->)
      | apply writeExportSectionEntry_ok in H as (Hst & bs & _ & ->)
      | apply writeMemorySectionEntry_ok in H as (Hst & bs & _ & ->)
      | apply writeEndFunctionBody_ok in H as (_ & _ & ->)
      | apply writeBeginDataSectionEntry_ok in H as (_ & bs & _ & ->)
      | apply writeDataSectionBody_ok in H as (_ & bs & ->)
      | apply writeEndDataSectionEntry_ok in H as (_ & ->)
      | apply writeBeginInitExpression_ok in H as (_ & ->) ];
      simpl; congruence).
    + apply writeBeginSection_ok in H as (Hst & _).
      destruct Hinv as [Hopen]. by rewrite Hst in Hopen.
    + apply writeBeginFunctionBody_ok in H as (_ & bs & ->). simpl. intros _.
      destruct Hinv as [_ _ _ _ _ _ Hcount Hlen].
      rewrite !len_app. change (len slot5) with 5. pose proof (len_nonneg bs). lia.
    + apply writeOperator_ok in H as (Hst & bs & ->). simpl.
      intros Hfb. destruct (Hslot Hfb) as [H1 H2]. split; [done |].
      rewrite !len_app. pose proof (len_nonneg bs).
      pose proof (len_nonneg [code opInfo]). lia.
    + apply writeOperator_ok in H as (Hst & bs & ->). simpl.
      intros Hfb. destruct (Hslot Hfb) as [H1 H2]. split; [done |].
      rewrite !len_app. pose proof (len_nonneg bs).
      pose proof (len_nonneg [code opInfo]). lia.
    + apply writeEndInitExpression_ok in H as (Hst & _ & ->). simpl.
      destruct Hinv as [_ Hafter]. rewrite (Hafter Hst). done.
Qed.

Lemma inside_run pre start events e e' :
  Inside pre start e -> END_SECTION ∉ events ->
  writeAll events e = Ok tt e' -> Inside pre start e'.
Proof.
  revert e. induction events as [| d rest IH]; intros e Hinv Hnot H.
  - by apply writeAll_nil in H as ->.
  - apply writeAll_cons in H as (e1 & Hd & Hrest).
    apply not_elem_of_cons in Hnot as [Hne Hnot].
    apply (IH e1); [| done | done].
    apply (inside_step pre start d e e1); [done | congruence | done].
Qed.

Lemma inside_begin section e e' :
  writeBeginSection section e = Ok tt e' ->
  exists start, Inside (_buffer e) start e'.
Proof.
  intros H. destruct (section_begin section e e' H) as (start & Hinv & _).
  apply writeBeginSection_ok in H as (Hst & bs & st & Hcl & ->).
  exists (len (_buffer e) + len bs + 5).
  assert (start = len (_buffer e) + len bs + 5) as ->.
  { destruct Hinv as [_ _ Hs]. simpl in Hs. congruence. }
  split; [done | | |].
  - simpl. rewrite <- !app_assoc. by apply prefix_app_r.
  - pose proof (len_nonneg bs). lia.
  - simpl. intros ->. done.
Qed.

Lemma item_middle {A} (p m1 m2 post : list A) i :
  length m1 = length m2 ->
  i < len p \/ len p + len m1 <= i ->
  item (p ++ m1 ++ post) i = item (p ++ m2 ++ post) i.
Proof.
  intros Hm Hi. unfold item, len in *. destruct (Z.ltb_spec i 0); [done |].
  destruct (Z.lt_ge_cases i (Z.of_nat (length p))) as [Hlt | Hge].
  - rewrite !lookup_app_l by lia. done.
  - rewrite !lookup_app_r by lia. by rewrite Hm.
Qed.

Lemma item_patched buffer pos n i :
  0 <= pos -> pos + 5 <= len buffer -> i < pos \/ pos + 5 <= i ->
  item (patched buffer pos n) i = item buffer i.
Proof.
  intros Hpos Hlen Hi.
  destruct (split_slot buffer pos Hpos Hlen)
    as (p & a0 & a1 & a2 & a3 & a4 & post & -> & <-).
  rewrite patched_slot.
  apply (item_middle p [_; _; _; _; _] [a0; a1; a2; a3; a4] post); [done |].
  change (len [_; _; _; _; _]) with 5. lia.
Qed.

Lemma patched_mod buffer pos n :
  patched buffer pos n = patched buffer pos (n mod 2 ^ 32).
Proof.
  unfold patched.
  assert (Hb : forall x, band x 0x7F = x mod 128) by apply band_0x7f.
  assert (Hs : forall k, 0 <= k < 32 -> shr (n mod 2 ^ 32) k = shr n k).
  { intros k Hk. rewrite !shr_div by lia. by rewrite Z.mod_mod by lia. }
  rewrite !Hs by lia. rewrite !Hb.
  assert (Hm : (n mod 2 ^ 32) mod 128 = n mod 128).
  { change (2 ^ 32) with (128 * 2 ^ 25). rewrite Z.rem_mul_r by lia.
    rewrite Z.mul_comm, Z.mod_add by lia. apply Z.mod_mod. lia. }
  by rewrite Hm.
Qed.

Lemma inside_end pre start e e' :
  Inside pre start e -> writeEndSection e = Ok tt e' ->
  pre `prefix_of` _buffer e' /\ len (_buffer e') = len (_buffer e) /\
  (forall i, i < _sectionStart e - 5 \/ _sectionStart e + 5 <= i ->
     item (_buffer e') i = item (_buffer e) i).
Proof.
  intros [[Hopen Hafter Hstart Hsize Hcb Hpos Hcount Hlen] Hpre Hbefore _]
         (_ & ->)%writeEndSection_ok.
  simpl. rewrite Hsize, Hcb, Hstart.
  assert (Hl : len (patched (_buffer e) start (_sectionEntiesCount e))
               = len (_buffer e)) by (apply len_patched_slot; lia).
  split; [| split].
  - apply prefix_patched; [| lia | lia].
    apply prefix_patched; [done | lia | lia].
  - rewrite len_patched_slot by lia. exact Hl.
  - intros i Hi. rewrite item_patched by lia. apply item_patched; lia.
Qed.

Lemma ensureState_passes {A} st (k : unit -> M A) e :
  _state e = st -> bind (ensureState st) k e = k tt e.
Proof.
  intros Hst. unfold bind, ensureState.
  by destruct (EmitterState_eqb_spec (_state e) st).
Qed.

Ltac same_fields :=
  split; cbn [_buffer _state _sectionStart _sectionSizeBytes _sectionEntiesCount
              _sectionEntiesCountBytes _bodyStart _bodySizeBytes _data _endWritten
              _initExpressionAfterState set_buffer set_state set_sectionStart
              set_sectionSizeBytes set_sectionEntiesCount
              set_sectionEntiesCountBytes set_bodyStart set_bodySizeBytes
              set_data set_endWritten set_initExpressionAfterState append];
  try (intros;
       repeat match goal with
              | |- _ /\ _ => split
              | H : _ \/ _ |- _ => destruct H
              end;
       first [ done | congruence | lia ]).

Lemma entry_same st (W : M unit) e1 e2 e1' :
  open_section st = true -> st <> FunctionBody -> st <> InitExpression ->
  is_writer W -> Same e1 e2 ->
  bind (ensureState st) (fun _ => bind incrementSectionEntiesCount (fun _ => W)) e1
    = Ok tt e1' ->
  exists e2',
    bind (ensureState st) (fun _ => bind incrementSectionEntiesCount (fun _ => W)) e2
      = Ok tt e2' /\ Same e1' e2' /\ (_data e1 = _data e2 -> _data e1' = _data e2').
Proof.
  intros Hopen Hfb Hie (bs & r & HW) [Hb Hs Hsec Hbody Hend Hafter] H.
  ensure H. rewrite ensureState_passes by congruence.
  unfold bind, incrementSectionEntiesCount, modify in *. rewrite HW in *.
  destruct r as [? | []]; [discriminate H |]. injection H as <-.
  eexists. split; [reflexivity |].
  rewrite Hst in *. destruct (Hsec Hopen) as (? & ? & ? & ?).
  split; [| done]. same_fields.
Qed.

Lemma same_beginWasm header e1 e2 e1' :
  Same e1 e2 -> writeBeginWasm header e1 = Ok tt e1' ->
  same_step_goal (writeBeginWasm header) e1 e2 e1'.
Proof.
  intros [Hb Hs Hsec Hbody Hend Hafter] (Hst & ->)%writeBeginWasm_ok.
  eexists. split; [unfold writeBeginWasm; rewrite ensureState_passes by congruence;
                   reflexivity |].
  split; [| done]. same_fields.
Qed.

Lemma same_endWasm e1 e2 e1' :
  Same e1 e2 -> writeEndWasm e1 = Ok tt e1' ->
  exists e2', writeEndWasm e2 = Ok tt e2' /\ Same e1' e2' /\ _data e1' = _data e2'.
Proof.
  intros [Hb Hs Hsec Hbody Hend Hafter] (Hst & ->)%writeEndWasm_ok.
  eexists. split; [unfold writeEndWasm; rewrite ensureState_passes by congruence;
                   reflexivity |].
  split; [same_fields | simpl; congruence].
Qed.

Lemma same_endSection e1 e2 e1' :
  Same e1 e2 -> writeEndSection e1 = Ok tt e1' ->
  same_step_goal writeEndSection e1 e2 e1'.
Proof.
  intros [Hb Hs Hsec Hbody Hend Hafter] (Hst & ->)%writeEndSection_ok.
  assert (Hopen : open_section (_state e1) = true) by (by destruct (_state e1)).
  destruct (Hsec Hopen) as (H1 & H2 & H3 & H4).
  eexists. split.
  - unfold writeEndSection. unfold bind at 1 2. unfold get at 1. rewrite <- Hs.
    destruct (_state e1); try discriminate Hst;
      cbv [bind get _position modify];
      rewrite patchVarUint32_patched; cbv beta iota;
      rewrite patchVarUint32_patched; reflexivity.
  - split; [| done]. same_fields.
Qed.

Lemma same_beginFunctionBody functionInfo e1 e2 e1' :
  Same e1 e2 -> writeBeginFunctionBody functionInfo e1 = Ok tt e1' ->
  same_step_goal (writeBeginFunctionBody functionInfo) e1 e2 e1'.
Proof.
  intros [Hb Hs Hsec Hbody Hend Hafter] H. unfold same_step_goal.
  unfold writeBeginFunctionBody in *.
  set (W := bind (writeVarUint (len (locals functionInfo))) _) in *.
  assert (HW : is_writer W) by (subst W; unfold for_range; repeat writer_step).
  clearbody W. destruct HW as (bs & r & HW).
  ensure H. rewrite ensureState_passes by congruence.
  cbv [bind incrementSectionEntiesCount modify writePatchableVarUint32
       _position get writeMutiple ret] in *.
  rewrite HW in *. destruct r as [? | []]; [discriminate H |]. injection H as <-.
  eexists. split; [reflexivity |].
  rewrite Hst in *. destruct (Hsec eq_refl) as (? & ? & ? & ?).
  split; [| done]. same_fields.
Qed.

Lemma same_endFunctionBody e1 e2 e1' :
  Same e1 e2 -> writeEndFunctionBody e1 = Ok tt e1' ->
  same_step_goal writeEndFunctionBody e1 e2 e1'.
Proof.
  intros [Hb Hs Hsec Hbody Hend Hafter] (Hst & Hw & ->)%writeEndFunctionBody_ok.
  destruct (Hbody Hst) as [H1 H2]. rewrite Hst in Hsec.
  destruct (Hsec eq_refl) as (? & ? & ? & ?).
  eexists. split.
  - unfold writeEndFunctionBody. rewrite ensureState_passes by congruence.
    unfold bind at 1. unfold ensureEndOperatorWritten.
    rewrite <- (Hend (or_introl Hst)), Hw.
    unfold bind, _position, get, modify. rewrite patchVarUint32_patched. reflexivity.
  - split; [| done]. same_fields.
Qed.

Lemma same_operator opInfo e1 e2 e1' :
  Same e1 e2 -> writeOperator opInfo e1 = Ok tt e1' ->
  same_step_goal (writeOperator opInfo) e1 e2 e1'.
Proof.
  intros [Hb Hs Hsec Hbody Hend Hafter] H. unfold same_step_goal.
  unfold writeOperator in *.
  match type of H with
  | context [bind (modify (set_endWritten ?b)) (fun _ => ?w)] =>
      set (W := w) in *
  end.
  assert (HW : is_writer W).
  { subst W. unfold writeMemoryImmediate, writeVarInt64, writeFloat32,
      writeFloat64, writeBytes, for_range.
    repeat writer_step. }
  clearbody W. destruct HW as (bs & r & HW).
  unfold bind at 1 in H. unfold bind at 1.
  unfold ensureEitherState in *. cbn [existsb] in *.
  rewrite <- Hs.
  destruct (_state e1) eqn:Hst; cbn [EmitterState_eqb orb] in *; try discriminate H.
  all: unfold bind, writeByte, modify in *; rewrite HW in *;
    destruct r as [? | []]; [discriminate H |]; injection H as <-;
    eexists; (split; [reflexivity |]);
    destruct (Hsec eq_refl) as (? & ? & ? & ?);
    try (destruct (Hafter eq_refl) as [? ?]);
    try (destruct (Hbody eq_refl) as [? ?]);
    (split; [| done]); same_fields.
Qed.

Lemma same_beginDataSectionEntry entry e1 e2 e1' :
  Same e1 e2 -> writeBeginDataSectionEntry entry e1 = Ok tt e1' ->
  same_step_goal (writeBeginDataSectionEntry entry) e1 e2 e1'.
Proof.
  intros [Hb Hs Hsec Hbody Hend Hafter] H. unfold same_step_goal.
  unfold writeBeginDataSectionEntry in *.
  destruct (is_writer1_writeVarUint (segment_index entry)) as (bs & r & HW & _).
  ensure H. rewrite ensureState_passes by congruence.
  unfold bind, incrementSectionEntiesCount, modify in *. rewrite HW in *.
  destruct r as [? | []]; [discriminate H |]. injection H as <-.
  eexists. split; [reflexivity |].
  rewrite Hst in *. destruct (Hsec eq_refl) as (? & ? & ? & ?).
  split; [| done]. same_fields.
Qed.

Lemma same_dataSectionBody body e1 e2 e1' :
  Same e1 e2 -> writeDataSectionBody body e1 = Ok tt e1' ->
  same_step_goal (writeDataSectionBody body) e1 e2 e1'.
Proof.
  intros [Hb Hs Hsec Hbody Hend Hafter] H. unfold same_step_goal.
  unfold writeDataSectionBody in *.
  destruct (is_writer1_writeString (body_data body)) as (bs & r & HW & _).
  ensure H. rewrite ensureState_passes by congruence.
  unfold bind, modify in *. rewrite HW in *.
  destruct r as [? | []]; [discriminate H |]. injection H as <-.
  eexists. split; [reflexivity |].
  rewrite Hst in *. destruct (Hsec eq_refl) as (? & ? & ? & ?).
  split; [| done]. same_fields.
Qed.

Lemma same_endDataSectionEntry e1 e2 e1' :
  Same e1 e2 -> writeEndDataSectionEntry e1 = Ok tt e1' ->
  same_step_goal writeEndDataSectionEntry e1 e2 e1'.
Proof.
  intros [Hb Hs Hsec Hbody Hend Hafter] (Hst & ->)%writeEndDataSectionEntry_ok.
  eexists. split; [unfold writeEndDataSectionEntry;
                   rewrite ensureState_passes by congruence; reflexivity |].
  rewrite Hst in *. destruct (Hsec eq_refl) as (? & ? & ? & ?).
  split; [| done]. same_fields.
Qed.

Lemma same_beginInitExpression e1 e2 e1' :
  Same e1 e2 -> writeBeginInitExpression e1 = Ok tt e1' ->
  same_step_goal writeBeginInitExpression e1 e2 e1'.
Proof.
  intros [Hb Hs Hsec Hbody Hend Hafter] (Hst & ->)%writeBeginInitExpression_ok.
  eexists. split.
  - unfold writeBeginInitExpression, bind, get, modify. rewrite <- Hs, Hst.
    reflexivity.
  - rewrite Hst in *. destruct (Hsec eq_refl) as (? & ? & ? & ?).
    split; [| done]. same_fields.
Qed.

Lemma same_endInitExpression e1 e2 e1' :
  Same e1 e2 -> writeEndInitExpression e1 = Ok tt e1' ->
  same_step_goal writeEndInitExpression e1 e2 e1'.
Proof.
  intros [Hb Hs Hsec Hbody Hend Hafter]
         (Hst & Hw & ->)%writeEndInitExpression_ok.
  rewrite Hst in Hsec. destruct (Hsec eq_refl) as (? & ? & ? & ?).
  destruct (Hafter Hst) as [Ha1 Ha2].
  eexists. split.
  - unfold writeEndInitExpression. rewrite ensureState_passes by congruence.
    unfold bind at 1. unfold ensureEndOperatorWritten.
    rewrite <- (Hend (or_intror Hst)), Hw.
    unfold bind, get, modify. reflexivity.
  - split; [| done]. rewrite Ha1, Ha2. same_fields.
Qed.

Lemma same_beginSection section e1 e2 e1' :
  Same e1 e2 -> writeBeginSection section e1 = Ok tt e1' ->
  same_step_goal (writeBeginSection section) e1 e2 e1'.
Proof.
  intros [Hb Hs Hsec Hbody Hend Hafter] H. unfold same_step_goal.
  unfold writeBeginSection in *.
  ensure H. rewrite ensureState_passes by congruence.
  destruct (is_writer1_writeVarUint (id section)) as (bs & r & HW & _).
  unfold bind at 1 in H. unfold bind at 1. rewrite HW in *.
  destruct r as [? | []]; [discriminate H |].
  cbv [bind writePatchableVarUint32 _position get writeMutiple modify ret
       writePatchableSectionEntriesCount] in H |- *.
  repeat match type of H with
         | context [if ?c then _ else _] => destruct c
         end;
    cbv [bind writePatchableVarUint32 _position get writeMutiple modify ret
         writePatchableSectionEntriesCount throw] in H |- *;
    try discriminate H;
    try (destruct (writeString _ _); discriminate H).
  all: injection H as <-; eexists; (split; [reflexivity |]);
    (split; [| done]); same_fields.
Qed.

Lemma same_step d e1 e2 e1' :
  Same e1 e2 -> writeData d e1 = Ok tt e1' ->
  exists e2', writeData d e2 = Ok tt e2' /\ Same e1' e2' /\
    (d = END_WASM \/ _data e1 = _data e2 -> _data e1' = _data e2').
Proof.
  intros HS H. unfold writeData, writeStateAndResult in *.
  assert (Hweak : forall handler,
    same_step_goal handler e1 e2 e1' ->
    d <> END_WASM ->
    exists e2', handler e2 = Ok tt e2' /\ Same e1' e2' /\
      (d = END_WASM \/ _data e1 = _data e2 -> _data e1' = _data e2')).
  { intros handler (e2' & H1 & H2 & H3) Hd. exists e2'.
    split; [done |]. split; [done |]. intros [? | ?]; [done | auto]. }
  destruct d; try discriminate H; try (apply Hweak; [| done]).
  - by apply same_beginWasm.
  - destruct (same_endWasm e1 e2 e1' HS H) as (e2' & H1 & H2 & H3).
    exists e2'. auto.
  - by apply same_beginSection.
  - by apply same_endSection.
  - apply entry_same; [done | done | done | | done | done].
    apply is_writer1_is_writer, is_writer1_writeFuncType.
  - apply entry_same; [done | done | done | | done | done].
    apply is_writer_bind; [apply is_writer1_is_writer, is_writer1_writeString | intros _].
    apply is_writer_bind; [apply is_writer1_is_writer, is_writer1_writeString | intros _].
    apply is_writer_bind; [repeat writer_step | intros _].
    repeat writer_step.
  - apply entry_same; [done | done | done | | done | done].
    apply is_writer1_is_writer, is_writer1_writeVarUint.
  - apply entry_same; [done | done | done | | done | done].
    apply is_writer_bind; [apply is_writer1_is_writer, is_writer1_writeString | intros _].
    repeat writer_step.
  - by apply same_beginFunctionBody.
  - by apply same_endFunctionBody.
  - apply entry_same; [done | done | done | | done | done].
    apply is_writer1_is_writer, is_writer1_writeMemoryType.
  - by apply same_operator.
  - by apply same_operator.
  - by apply same_beginDataSectionEntry.
  - by apply same_dataSectionBody.
  - by apply same_endDataSectionEntry.
  - by apply same_beginInitExpression.
  - by apply same_endInitExpression.
Qed.

Lemma same_run events : forall e1 e2 e1',
  Same e1 e2 -> writeAll events e1 = Ok tt e1' ->
  exists e2', writeAll events e2 = Ok tt e2' /\ Same e1' e2' /\
    (END_WASM ∈ events \/ _data e1 = _data e2 -> _data e1' = _data e2').
Proof.
  induction events as [| d rest IH]; intros e1 e2 e1' HS H.
  - apply writeAll_nil in H as ->. exists e2. split; [done |]. split; [done |].
    intros [Hin | ?]; [by apply elem_of_nil in Hin | done].
  - apply writeAll_cons in H as (m1 & Hd & Hrest).
    destruct (same_step d e1 e2 m1 HS Hd) as (m2 & Hd2 & HSm & Hdata).
    destruct (IH m1 m2 e1' HSm Hrest) as (e2' & Hrest2 & HS' & Hdata').
    exists e2'. split; [| split; [done |]].
    + cbn [writeAll]. unfold bind. by rewrite Hd2.
    + intros Hc. apply Hdata'.
      destruct Hc as [Hin | Heq]; [| right; apply Hdata; by right].
      apply elem_of_cons in Hin as [<- | Hin]; [| by left].
      right. apply Hdata. by left.
Qed.

Lemma same_fresh e :
  _state e = Initial -> _buffer e = [] -> Same e constructor /\ Same constructor e.
Proof.
  intros Hst Hb. split; split; simpl; rewrite ?Hst; try done.
  all: intros [? | ?]; done.
Qed.

(** *** The order of events and the buffer *)

(** X3.  [patchVarUint32(pos, n)] on a slot that lies inside the buffer
    changes nothing but the buffer, keeps its length and every element
    outside the five of the slot, and the slot then reads, as an unsigned
    LEB128 number of five bytes, as [n] modulo 2^32. *)
Theorem patchVarUint32_touches_slot pos n e :
  0 <= pos -> pos + 5 <= len (_buffer e) ->
  exists buffer',
    patchVarUint32 pos n e = Ok tt (set_buffer buffer' e) /\
    len buffer' = len (_buffer e) /\
    (forall i, i < pos \/ pos + 5 <= i -> item buffer' i = item (_buffer e) i) /\
    slot buffer' pos = Some (n mod 2 ^ 32, 5%nat).
Proof.
  intros Hpos Hlen. exists (patched (_buffer e) pos n).
  split; [apply patchVarUint32_patched |].
  split; [by apply len_patched_slot |].
  split; [intros i Hi; by apply item_patched |].
  rewrite patched_mod. apply slot_patched; [done | done |].
  apply Z.mod_pos_bound. lia.
Qed.

Lemma patchVarUint32_touches_slot_witness :
  exists buffer',
    patchVarUint32 1 300 (append [9; 0; 0; 0; 0; 0; 9] constructor)
      = Ok tt (set_buffer buffer' (append [9; 0; 0; 0; 0; 0; 9] constructor)) /\
    len buffer' = len (_buffer (append [9; 0; 0; 0; 0; 0; 9] constructor)) /\
    (forall i, i < 1 \/ 1 + 5 <= i ->
       item buffer' i = item (_buffer (append [9; 0; 0; 0; 0; 0; 9] constructor)) i) /\
    slot buffer' 1 = Some (300 mod 2 ^ 32, 5%nat).
Proof.
  apply (patchVarUint32_touches_slot 1 300 (append [9; 0; 0; 0; 0; 0; 9] constructor)).
  - lia.
  - vm_compute. discriminate.
Defined.

(** X7.  An event that arrives in a state in which its handler does not
    accept it throws and leaves the instance as it was.  In the state
    [Error] that holds of every event: a run that has reached [Error]
    throws at its next event, whatever that is. *)
Theorem rejected_event_changes_nothing :
  (forall d e, _state e ∉ accepted_in d -> exists x, writeData d e = Throw x e) /\
  (forall d rest e, _state e = Error -> exists x, writeAll (d :: rest) e = Throw x e).
Proof. split; [apply rejected | apply error_absorbs]. Qed.

Lemma rejected_event_changes_nothing_witness :
  exists x, writeData END_SECTION constructor = Throw x constructor.
Proof.
  apply (proj1 rejected_event_changes_nothing END_SECTION constructor).
  simpl. not_among.
Defined.

(** X8.  Whatever events a new emitter is given, and whether or not one
    of them throws, its state is one of the sixteen that some method
    assigns; it is never [CustomSecton], [TableSection], [StartSection] or
    [ElementSection]. *)
Theorem unused_states_never_entered events :
  _state (final (writeAll events constructor))
    ∈ [Initial; Error; Wasm; TypeSection; ImportSection; FunctionSection;
       MemorySection; GlobalSection; ExportSection; CodeSection; DataSection;
       FunctionBody; DataSectionEntry; DataSectionEntryBody;
       DataSectionEntryEnd; InitExpression].
Proof.
  destruct (live_writeAll events constructor) as [Hlive _]; [by split |].
  revert Hlive.
  destruct (_state (final (writeAll events constructor)));
    intros Hlive; try discriminate Hlive;
    repeat first [ by left | right ].
Qed.

(** X9.  Let a section be opened by [BeginSection] on a buffer and let
    [events] be the events accepted since, none of them [EndSection].
    The bytes that the buffer held before are still at its head, also after
    [EndSection]; and [EndSection] keeps the length of the buffer and
    every element outside the two slots, the ten bytes around
    [_sectionStart]. *)
Theorem section_keeps_other_bytes e0 section events e e' :
  writeAll (BEGIN_SECTION section :: events) e0 = Ok tt e ->
  END_SECTION ∉ events ->
  writeEndSection e = Ok tt e' ->
  _buffer e0 `prefix_of` _buffer e /\
  _buffer e0 `prefix_of` _buffer e' /\
  len (_buffer e') = len (_buffer e) /\
  (forall i, i < _sectionStart e - 5 \/ _sectionStart e + 5 <= i ->
     item (_buffer e') i = item (_buffer e) i).
Proof.
  intros (e1 & Hbegin & Hrun)%writeAll_cons Hnot Hend.
  destruct (inside_begin section e0 e1 Hbegin) as (start & Hin).
  pose proof (inside_run _ start events e1 e Hin Hnot Hrun) as Hin'.
  split; [by destruct Hin' |].
  by apply (inside_end _ start e e').
Qed.

Lemma section_keeps_other_bytes_witness :
  _buffer (set_state Wasm constructor) `prefix_of` _buffer in_type_section /\
  _buffer (set_state Wasm constructor)
    `prefix_of` _buffer (final (writeEndSection in_type_section)) /\
  len (_buffer (final (writeEndSection in_type_section)))
    = len (_buffer in_type_section) /\
  (forall i, i < _sectionStart in_type_section - 5 \/
             _sectionStart in_type_section + 5 <= i ->
     item (_buffer (final (writeEndSection in_type_section))) i
       = item (_buffer in_type_section) i).
Proof.
  apply (section_keeps_other_bytes (set_state Wasm constructor)
           (section SectionCode.Type_) sample_type_section in_type_section
           (final (writeEndSection in_type_section)));
    [vm_compute; reflexivity | not_among | vm_compute; reflexivity].
Defined.

(** X10.  An emitter whose state is [Initial] and whose buffer is empty,
    as after [EndWasm], serves as a new one: a run of events returns on it
    exactly when it returns on a new emitter, and then the two agree on the
    buffer, on the state and, when the run holds an [EndWasm], on the data.
    What the fields held from the module before plays no part. *)
Theorem emitter_reuse events e :
  _state e = Initial -> _buffer e = [] ->
  (forall e', writeAll events e = Ok tt e' ->
     exists e'', writeAll events constructor = Ok tt e'' /\
       _buffer e'' = _buffer e' /\ _state e'' = _state e' /\
       (END_WASM ∈ events -> _data e'' = _data e')) /\
  (forall e'', writeAll events constructor = Ok tt e'' ->
     exists e', writeAll events e = Ok tt e' /\
       _buffer e' = _buffer e'' /\ _state e' = _state e'' /\
       (END_WASM ∈ events -> _data e' = _data e'')).
Proof.
  intros Hst Hb. destruct (same_fresh e Hst Hb) as [H1 H2]. split.
  - intros e' Hrun.
    destruct (same_run events e constructor e' H1 Hrun) as (e'' & Hrun' & HS & Hd).
    exists e''. split; [done |]. destruct HS as [Hbuf Hstate].
    split; [done |]. split; [done |]. intros Hin. symmetry. apply Hd. by left.
  - intros e'' Hrun.
    destruct (same_run events constructor e e'' H2 Hrun) as (e' & Hrun' & HS & Hd).
    exists e'. split; [done |]. destruct HS as [Hbuf Hstate].
    split; [done |]. split; [done |]. intros Hin. symmetry. apply Hd. by left.
Qed.

Lemma emitter_reuse_witness :
  (forall e', writeAll [BEGIN_WASM None; END_WASM] used_emitter = Ok tt e' ->
     exists e'', writeAll [BEGIN_WASM None; END_WASM] constructor = Ok tt e'' /\
       _buffer e'' = _buffer e' /\ _state e'' = _state e' /\
       (END_WASM ∈ [BEGIN_WASM None; END_WASM] -> _data e'' = _data e')) /\
  (forall e'', writeAll [BEGIN_WASM None; END_WASM] constructor = Ok tt e'' ->
     exists e', writeAll [BEGIN_WASM None; END_WASM] used_emitter = Ok tt e' /\
       _buffer e' = _buffer e'' /\ _state e' = _state e'' /\
       (END_WASM ∈ [BEGIN_WASM None; END_WASM] -> _data e' = _data e'')).
Proof.
  apply (emitter_reuse [BEGIN_WASM None; END_WASM] used_emitter); reflexivity.
Defined.

End ProtocolFacts.

(** ** The text *)

Module TextFacts.
Import JS WasmParser WasmDis Replay DisSpec DisFacts Wire Text.
Local Open Scope string_scope.
Local Open Scope Z_scope.

Lemma escape_all : forallb escape_ok (map Z.of_nat (seq 0 256)) = true.
Proof. vm_compute. reflexivity. Qed.

Lemma append_empty_r (s : string) : s ++ EmptyString = s.
Proof. induction s as [| c s IH]; [done |]. simpl. by rewrite IH. Qed.

Lemma join_cons (x : string) xs : join (x :: xs) = x ++ join xs.
Proof.
  unfold join. destruct xs as [| y ys]; simpl; [by rewrite append_empty_r | done].
Qed.

Lemma binToString_cons byte b :
  binToString (byte :: b) = escape byte ++ binToString b.
Proof. unfold binToString. cbn [map]. by rewrite join_cons. Qed.

Lemma escape_byte byte :
  0 <= byte < 256 -> escape_ok byte = true.
Proof.
  intros Hb. pose proof escape_all as HF. rewrite forallb_forall in HF.
  apply HF. rewrite in_map_iff. exists (Z.to_nat byte).
  split; [lia | apply in_seq; lia].
Qed.

Lemma binToString_reads_back b :
  Forall is_byte b ->
  unescape (binToString b) = Some b /\
  Forall (fun c => plain c = true) (chars (binToString b)).
Proof.
  induction 1 as [| byte b Hb _ [IHu IHp]]; [by split |].
  rewrite binToString_cons.
  pose proof (escape_byte byte Hb) as Hok. unfold escape_ok in Hok.
  destruct (escape byte) as [| c [| h [| l [| ? ?]]]]; try discriminate Hok.
  - apply andb_prop in Hok as [Hok Hcode]. apply andb_prop in Hok as [Hbs Hplain].
    apply Z.eqb_eq in Hcode. cbn [append unescape chars list_ascii_of_string].
    destruct (nat_of_ascii c =? 92)%nat; [discriminate Hbs |].
    rewrite IHu, Hcode. split; [done | by constructor].
  - apply andb_prop in Hok as [Hok Hval]. apply andb_prop in Hok as [Hok Hl].
    apply andb_prop in Hok as [Hbs Hh].
    cbn [append unescape chars list_ascii_of_string].
    rewrite Hbs.
    destruct (hex_value h) as [hv |]; [| discriminate Hval].
    destruct (hex_value l) as [lv |]; [| discriminate Hval].
    apply Z.eqb_eq in Hval. rewrite IHu, Hval.
    split; [done |].
    assert (Hc : plain c = true).
    { apply Nat.eqb_eq in Hbs. unfold plain. by rewrite Hbs. }
    by repeat constructor.
Qed.

Section Respects.

Variable Rel : WasmDisassembler -> WasmDisassembler -> Prop.

Hypothesis Rel_refl : forall d, Rel d d.

Hypothesis Rel_trans : forall a b c, Rel a b -> Rel b c -> Rel a c.

Hypothesis Rel_push : forall s d, Rel d (set_buffer (_buffer d ++ [s])%list d).

Lemma respects_ret {A} (a : A) : respects Rel (ret a).
Proof. intros d. apply Rel_refl. Qed.

Lemma respects_throw {A} x : respects Rel (@throw A x).
Proof. intros d. apply Rel_refl. Qed.

Lemma respects_get {A} (f : WasmDisassembler -> A) : respects Rel (get f).
Proof. intros d. apply Rel_refl. Qed.

Lemma respects_lift {A} (r : Exception + A) : respects Rel (lift r).
Proof. destruct r; [apply respects_throw | apply respects_ret]. Qed.

Lemma respects_defined {A} (o : option A) : respects Rel (defined o).
Proof. destruct o; [apply respects_ret | apply respects_throw]. Qed.

Lemma respects_push s : respects Rel (push s).
Proof. intros d. apply Rel_push. Qed.

Lemma respects_bind {A B} (m : M A) (k : A -> M B) :
  respects Rel m -> (forall a, respects Rel (k a)) -> respects Rel (bind m k).
Proof.
  intros Hm Hk d. unfold bind. specialize (Hm d).
  destruct (m d) as [a d' | x d']; [| done].
  eapply Rel_trans; [exact Hm | apply Hk].
Qed.

Lemma respects_for_of {A} (xs : list A) body :
  (forall x, respects Rel (body x)) -> respects Rel (for_of xs body).
Proof.
  intros Hb. induction xs as [| x xs IH]; simpl; [apply respects_ret |].
  apply respects_bind; [apply Hb | intros _; apply IH].
Qed.

Lemma respects_for_loop trips i body :
  (forall j, respects Rel (body j)) -> respects Rel (for_loop trips i body).
Proof.
  intros Hb. revert i. induction trips as [| k IH]; intros i; simpl;
    [apply respects_ret |].
  apply respects_bind; [apply Hb | intros _; apply IH].
Qed.


End Respects.







Lemma length_spaces n : String.length (spaces n) = n.
Proof. induction n as [| n IH]; simpl; [done | by rewrite IH]. Qed.



Lemma substring_app (s t : string) :
  String.substring 0 (String.length s) (s ++ t) = s.
Proof.
  induction s as [| c s IH]; simpl; [by destruct t | by rewrite IH].
Qed.

Lemma length_append (s t : string) :
  String.length (s ++ t) = (String.length s + String.length t)%nat.
Proof. induction s as [| c s IH]; simpl; [done | by rewrite IH]. Qed.

Lemma slice_app_spaces (s : string) : slice_to_minus (s ++ spaces 2) 2 = s.
Proof.
  unfold slice_to_minus. rewrite length_append, length_spaces.
  replace (String.length s + 2 - 2)%nat with (String.length s) by lia.
  apply substring_app.
Qed.



Section Operators.

Context `{Externals}.


End Operators.

Section Indentation.

Context `{Externals}.




End Indentation.

Lemma set_buffer_app l l' d :
  set_buffer (_buffer (set_buffer (_buffer d ++ l)%list d) ++ l')%list
    (set_buffer (_buffer d ++ l)%list d)
  = set_buffer (_buffer d ++ l ++ l')%list d.
Proof. unfold set_buffer. simpl. by rewrite app_assoc. Qed.

Lemma set_buffer_nil d : set_buffer (_buffer d ++ [])%list d = d.
Proof. destruct d. unfold set_buffer. simpl. by rewrite app_nil_r. Qed.

Lemma type_names_app a b :
  type_names (a ++ b) =
  ebind (type_names a) (fun la => ebind (type_names b) (fun lb => inr (la ++ lb)%list)).
Proof.
  induction a as [| t a IH]; simpl.
  - by destruct (type_names b).
  - destruct (typeToString t); [done |]. simpl. rewrite IH.
    destruct (type_names a); [done |]. simpl. by destruct (type_names b).
Qed.

Lemma type_names_replicate n t :
  type_names (replicate n t) =
  match n with
  | O => inr []
  | S _ => ebind (typeToString t) (fun s => inr (replicate n s))
  end.
Proof.
  induction n as [| n IH]; [done |].
  cbn [replicate type_names]. rewrite IH.
  destruct (typeToString t) as [x | s]; [done |]. simpl. by destruct n.
Qed.

Lemma local_lines_app index a b :
  local_lines index (a ++ b) =
  (local_lines index a ++ local_lines (index + len a) b)%list.
Proof.
  revert index. induction a as [| t a IH]; intros index; simpl.
  - f_equal. unfold len. simpl. lia.
  - f_equal. rewrite IH. f_equal. f_equal. unfold len. simpl length. lia.
Qed.

Lemma locals_loop s localIndex n i d :
  for_loop n i (fun i =>
    bind (lift (inr s)) (fun t =>
      push ("    (local $var" ++ toString (localIndex + i) ++ " " ++ t ++ ")" ++ LF))) d
  = Ok tt (set_buffer (_buffer d ++ local_lines (localIndex + i) (replicate n s))%list d).
Proof.
  set (body := fun i : Z => bind (lift (inr s)) _).
  assert (Hbody : forall i d, body i d
            = Ok tt (set_buffer (_buffer d ++ [local_line (localIndex + i) s])%list d)).
  { intros j d0. reflexivity. }
  clearbody body.
  revert i d. induction n as [| n IH]; intros i d.
  - simpl. by rewrite set_buffer_nil.
  - cbn [for_loop replicate local_lines]. unfold bind at 1.
    rewrite Hbody, IH. rewrite set_buffer_app. cbn [app].
    replace (localIndex + (i + 1)) with (localIndex + i + 1) by lia. reflexivity.
Qed.

Lemma bind_after {A B} (m : M A) (k : A -> M B) d a d1 :
  m d = Ok a d1 -> bind m k d = k a d1.
Proof. intros Hm. unfold bind. by rewrite Hm. Qed.

Lemma disassemble_locals_lines locals : forall localIndex names d,
  type_names (expand locals) = inr names ->
  disassemble_locals localIndex locals d
  = Ok tt (set_buffer (_buffer d ++ local_lines localIndex names)%list d).
Proof.
  induction locals as [| l rest IH]; intros localIndex names d Hn.
  - injection Hn as <-. simpl. by rewrite set_buffer_nil.
  - unfold expand in Hn. cbn [flat_map] in Hn. fold (expand rest) in Hn.
    rewrite type_names_app, type_names_replicate in Hn.
    cbn [disassemble_locals]. unfold for_upto.
    destruct (Z.to_nat (count l)) as [| n] eqn:Hc.
    + cbn [ebind] in Hn. destruct (type_names (expand rest)) as [| lb] eqn:Hr;
        [discriminate Hn |]. injection Hn as <-.
      rewrite (bind_after _ _ d tt d) by reflexivity.
      rewrite (IH _ lb) by done.
      replace (Z.max 0 (count l)) with 0 by lia. by rewrite Z.add_0_r.
    + destruct (typeToString (local_type l)) as [| s] eqn:Ht; [discriminate Hn |].
      cbn [ebind] in Hn.
      destruct (type_names (expand rest)) as [| lb] eqn:Hr; [discriminate Hn |].
      injection Hn as <-.
      erewrite bind_after by apply locals_loop.
      rewrite (IH _ lb) by done. rewrite set_buffer_app.
      change (s :: replicate n s ++ lb)%list with (replicate (S n) s ++ lb)%list.
      rewrite local_lines_app, Z.add_0_r.
      replace (len (replicate (S n) s)) with (Z.max 0 (count l));
        [reflexivity | unfold len; rewrite length_replicate; lia].
Qed.

Lemma grows_refl d : grows d d.
Proof. split; done. Qed.

Lemma grows_trans a b c : grows a b -> grows b c -> grows a c.
Proof. intros [] []. split; try (by etransitivity); lia. Qed.

Lemma grows_push s d : grows d (set_buffer (_buffer d ++ [s])%list d).
Proof. split; done. Qed.

Lemma respects_modify Rel f :
  (forall d, Rel d (f d)) -> respects Rel (modify f).
Proof. intros Hf d. apply Hf. Qed.

Ltac grows_side :=
  first [ exact grows_refl | exact grows_trans | exact grows_push ].

Ltac grows_step :=
  first [ apply respects_ret; grows_side | apply respects_throw; grows_side
        | apply respects_get; grows_side
        | apply respects_lift; grows_side | apply respects_defined; grows_side
        | apply respects_push; grows_side
        | apply respects_modify; intros ?; split; simpl; (done || lia)
        | apply respects_for_of; [grows_side | grows_side | intros ?]
        | apply respects_for_loop; [grows_side | grows_side | intros ?]
        | match goal with
          | |- respects _ (if ?c then _ else _) => destruct c
          | |- respects _ (match ?o with _ => _ end) => destruct o
          end
        | apply respects_bind; [grows_side | | intros ?] ].

Lemma grows_post_increment_table :
  respects grows (post_increment _tableCount set_tableCount).
Proof. intros d. split; simpl; (done || lia). Qed.

Lemma grows_post_increment_import :
  respects grows (post_increment _importCount set_importCount).
Proof. intros d. split; simpl; (done || lia). Qed.

Lemma grows_post_increment_global :
  respects grows (post_increment _globalCount set_globalCount).
Proof. intros d. split; simpl; (done || lia). Qed.

Section Grows.

Context `{Externals}.

Lemma grows_disassemble_locals localIndex locals :
  respects grows (disassemble_locals localIndex locals).
Proof.
  revert localIndex. induction locals as [| l rest IH]; intros localIndex; simpl.
  - grows_step.
  - apply respects_bind; [grows_side | unfold for_upto; repeat grows_step |
                          intros _; apply IH].
Qed.

Lemma grows_disassemble_operator operator :
  respects grows (disassemble_operator operator).
Proof.
  unfold disassemble_operator, when, when_defined, decreaseIndent, increaseIndent.
  repeat grows_step.
Qed.

Lemma grows_printType i : respects grows (printType i).
Proof. unfold printType. repeat grows_step. Qed.

Lemma grows_type_entry funcType :
  respects grows (disassemble_event (TYPE_SECTION_ENTRY funcType)).
Proof.
  intros d. cbn [disassemble_event]. unfold bind at 1, get at 1.
  unfold bind at 1, modify at 1.
  apply (grows_trans _ (set_types (_types d ++ [funcType])%list d)).
  - split; simpl; try done. by apply prefix_app_r.
  - apply (respects_bind grows grows_trans);
      [apply grows_printType | intros ?; grows_step].
Qed.

Lemma grows_disassemble_event d : respects grows (disassemble_event d).
Proof.
  destruct d; try apply grows_type_entry; cbn [disassemble_event];
    try apply grows_disassemble_operator;
    unfold when_defined, globalTypeToString_import;
    repeat first [ apply grows_disassemble_locals
                 | apply grows_post_increment_table
                 | apply grows_post_increment_import
                 | apply grows_post_increment_global
                 | apply grows_printType
                 | grows_step ].
  apply respects_modify. intros d. split; simpl; try done. by apply prefix_app_r.
Qed.

End Grows.

Section GrowsAnyReader.

Context `{Externals} {R : Type} `{BinaryReader R}.

Lemma grows_disassemble_step (reader : R) this :
  grows this (this_of (disassemble_step reader this)).
Proof.
  unfold disassemble_step. destruct (read reader) as [more reader'].
  destruct more; cbn [negb]; [| apply grows_refl].
  unfold disassemble_switch.
  pose proof (grows_disassemble_event (current reader') this) as Hev.
  destruct (current reader');
    try (unfold step_of; by destruct (disassemble_event _ this)).
  - cbv [push modify]. destruct (hasMoreBytes reader'); cbn [negb]; by split.
  - destruct (case_of _ _); apply grows_refl.
Qed.

Lemma grows_disassemble trips (reader : R) this s :
  disassemble trips reader this = Some s -> grows this (this_of s).
Proof.
  revert reader this. induction trips as [| k IH]; intros reader this; [done |].
  cbn [disassemble]. pose proof (grows_disassemble_step reader this) as Hs.
  destruct (disassemble_step reader this) as [r1 t1 | res r1 t1 | x r1 t1].
  - intros Hk. eapply grows_trans; [exact Hs | by eapply IH].
  - by intros [= <-].
  - by intros [= <-].
Qed.

Lemma returned_text_empties trips (reader : R) this text reader' this' :
  disassemble trips reader this = Some (Return (Some text) reader' this') ->
  _buffer this' = [].
Proof.
  revert reader this. induction trips as [| k IH]; intros reader this; [done |].
  cbn [disassemble].
  destruct (disassemble_step reader this) as [r1 t1 | res r1 t1 | x r1 t1] eqn:Hstep;
    [apply IH | | done].
  intros [= -> -> ->]. unfold disassemble_step in Hstep.
  destruct (read reader) as [more r0]. destruct more; cbn [negb] in Hstep;
    [| discriminate Hstep].
  unfold disassemble_switch in Hstep.
  destruct (current r0);
    try (unfold step_of in Hstep;
         match type of Hstep with
         | context [disassemble_event ?d this] =>
             destruct (disassemble_event d this); discriminate Hstep
         end);
    try discriminate Hstep.
  - cbv [push modify] in Hstep. destruct (hasMoreBytes r0); cbn [negb] in Hstep;
      [discriminate Hstep |]. by injection Hstep as _ _ <-.
  - destruct (case_of _ _); discriminate Hstep.
Qed.

End GrowsAnyReader.

Lemma typeToString_known t : prints (known_type t) (typeToString t).
Proof.
  unfold prints, known_type, typeToString. cbn [case_of].
  repeat match goal with
         | |- context [?a =? ?b] => destruct (a =? b); cbn [orb]; [by eexists |]
         end.
  done.
Qed.

Lemma prints_cons {A B} (f : string -> list A -> B) t rest
    (r : Exception + list A) :
  prints (forallb known_type rest) r ->
  prints (forallb known_type (t :: rest))
    (ebind (typeToString t) (fun s => ebind r (fun l => inr (f s l)))).
Proof.
  intros Hr. cbn [forallb]. pose proof (typeToString_known t) as Ht.
  unfold prints in *. destruct (known_type t); cbn [andb].
  - destruct Ht as [s ->]. cbn [ebind].
    destruct (forallb known_type rest).
    + destruct Hr as [l ->]. by eexists.
    + by rewrite Hr.
  - by rewrite Ht.
Qed.

Lemma printFuncType_vars_known i params :
  prints (forallb known_type params) (printFuncType_vars i params).
Proof.
  revert i. induction params as [| p rest IH]; intros i; [by eexists |].
  cbn [printFuncType_vars].
  apply (prints_cons (fun t l => (" (param $var" ++ toString i ++ " " ++ t ++ ")") :: l)).
  apply IH.
Qed.

Lemma printFuncType_params_known params :
  prints (forallb known_type params) (printFuncType_params params).
Proof.
  induction params as [| p rest IH]; [by eexists |].
  cbn [printFuncType_params].
  by apply (prints_cons (fun t l => " " :: t :: l)).
Qed.

Lemma printFuncType_returns_known returns :
  prints (forallb known_type returns) (printFuncType_returns returns).
Proof.
  induction returns as [| p rest IH]; [by eexists |].
  cbn [printFuncType_returns].
  by apply (prints_cons (fun t l => (" (result " ++ t ++ ")") :: l)).
Qed.

Lemma printFuncType_known type printVars :
  prints (forallb known_type (params type ++ WasmParser.returns type))
    (printFuncType (Some type) printVars).
Proof.
  unfold printFuncType. rewrite forallb_app.
  pose proof (printFuncType_vars_known 0 (params type)) as Hv.
  pose proof (printFuncType_params_known (params type)) as Hp.
  pose proof (printFuncType_returns_known (WasmParser.returns type)) as Hr.
  unfold prints in *.
  destruct (forallb known_type (params type)); cbn [andb].
  - destruct Hv as [lv ->]. destruct Hp as [lp ->].
    assert (Hfirst : exists l,
      (if printVars then inr lv
       else if len (params type) >? 0
            then ebind (inr lp) (fun l => inr ([" (param"] ++ l ++ [")"])%list)
            else inr []) = (inr l : Exception + list string)).
    { destruct printVars; [by eexists |]. destruct (_ >? 0); by eexists. }
    destruct Hfirst as [l ->]. cbn [ebind].
    destruct (forallb known_type (WasmParser.returns type)).
    + destruct Hr as [lr ->]. by eexists.
    + by rewrite Hr.
  - rewrite Hv, Hp. destruct printVars; [done |].
    destruct (len (params type) >? 0) eqn:Hlen; [done |].
    (* no parameter, yet one of them unknown: impossible *)
    destruct (params type); [discriminate Hv |].
    rewrite Z.gtb_ltb in Hlen. apply Z.ltb_ge in Hlen.
    unfold len in Hlen. simpl length in Hlen. lia.
Qed.

(** *** The printed text *)

(** X11.  For an array of bytes, [binToString] gives a string that holds
    only printable ASCII characters, none of them a double quote, and
    that reads back as the array when a backslash is taken to announce
    two hexadecimal digits and any other character to stand for its
    code. *)
Theorem binToString_round_trip b :
  Forall is_byte b ->
  unescape (binToString b) = Some b /\
  Forall (fun c => plain c = true) (chars (binToString b)).
Proof. apply binToString_reads_back. Qed.

Lemma binToString_round_trip_witness :
  unescape (binToString [34; 65; 0; 92; 255]) = Some [34; 65; 0; 92; 255] /\
  Forall (fun c => plain c = true) (chars (binToString [34; 65; 0; 92; 255])).
Proof.
  apply (binToString_round_trip [34; 65; 0; 92; 255]).
  repeat constructor; unfold is_byte; lia.
Defined.

(** X12.  [decreaseIndent] undoes [increaseIndent]: when the indent is a
    string, the two in a row leave the instance as it was.  When the
    indent is still [null], [increaseIndent] makes it the string "null"
    followed by two spaces, so that the two in a row leave the string
    "null"; and [decreaseIndent] alone throws a [TypeError] and changes
    nothing. *)
Theorem indent_round_trip d :
  (forall s, _indent d = Some s ->
     bind increaseIndent (fun _ => decreaseIndent) d = Ok tt d) /\
  (_indent d = None ->
     bind increaseIndent (fun _ => decreaseIndent) d
       = Ok tt (set_indent (Some "null") d) /\
     decreaseIndent d = Throw TypeError d).
Proof.
  split.
  - intros s Hs. cbv [increaseIndent decreaseIndent bind modify get defined ret].
    cbn [_indent set_indent set_indentLevel _indentLevel]. rewrite Hs.
    unfold default, from_option, Datatypes.id.
    change (String.length IndentIncrement) with 2%nat.
    change IndentIncrement with (spaces 2). rewrite slice_app_spaces.
    destruct d. unfold set_indentLevel, set_indent. simpl in *. subst.
    f_equal. f_equal. lia.
  - intros Hn. split.
    + cbv [increaseIndent decreaseIndent bind modify get defined ret].
      cbn [_indent set_indent set_indentLevel _indentLevel]. rewrite Hn.
      unfold default, from_option, Datatypes.id.
      change (String.length IndentIncrement) with 2%nat.
      change IndentIncrement with (spaces 2). rewrite slice_app_spaces.
      destruct d. unfold set_indentLevel, set_indent. simpl in *.
      f_equal. f_equal. lia.
    + cbv [decreaseIndent bind get defined]. by rewrite Hn.
Qed.

Lemma indent_round_trip_witness :
  bind increaseIndent (fun _ => decreaseIndent) in_body_text = Ok tt in_body_text.
Proof. apply (proj1 (indent_round_trip in_body_text) "    "). reflexivity. Defined.



(** X14.  When every local of a function has a type with a name, the
    locals are printed one to a line, in the order of their declaration and
    as many of each type as its count says, and numbered one after the
    other from the index given, which is the number of parameters.  An
    entry whose count is not positive prints nothing. *)
Theorem locals_numbered localIndex locals names d :
  type_names (expand locals) = inr names ->
  disassemble_locals localIndex locals d
  = Ok tt (set_buffer (_buffer d ++ local_lines localIndex names)%list d).
Proof. apply disassemble_locals_lines. Qed.

Lemma locals_numbered_witness :
  disassemble_locals 1 sample_locals constructor
  = Ok tt (set_buffer
             (_buffer constructor ++ local_lines 1 ["i32"; "i32"; "f64"])%list
             constructor).
Proof.
  apply (locals_numbered 1 sample_locals ["i32"; "i32"; "f64"] constructor).
  reflexivity.
Defined.

(** X15.  Whatever the reader delivers, a call of [disassemble] that
    returns or throws leaves the table of types and the table of function
    types as lists that continue the ones it found, and none of the four
    counters smaller.  When it returns the text, the buffer is empty, and
    that is all it resets: an instance that is used for a second module
    goes on numbering where the first module ended. *)
Theorem tables_and_counters_persist `{Externals} {R : Type} `{BinaryReader R}
    trips (reader : R) this s :
  disassemble trips reader this = Some s ->
  grows this (this_of s) /\
  match s with
  | Return (Some _) _ this' => _buffer this' = []
  | _ => True
  end.
Proof.
  intros Hs. split; [by eapply grows_disassemble |].
  destruct s as [| [text |] reader' this' |]; try done.
  by eapply returned_text_empties.
Qed.

Lemma tables_and_counters_persist_witness :
  grows constructor
    (this_of (Return (Some ("(module" ++ LF ++ ")" ++ LF))
                {| now := END_WASM; pending := []; skipping := false |}
                constructor)) /\
  _buffer constructor = [].
Proof.
  apply (@tables_and_counters_persist sample_externals Reader reader 2
           (of_events ERROR [BEGIN_WASM None; END_WASM]) constructor
           (Return (Some ("(module" ++ LF ++ ")" ++ LF))
              {| now := END_WASM; pending := []; skipping := false |}
              constructor)).
  reflexivity.
Defined.

(** X16.  [printFuncType] returns a string exactly when every parameter
    and every result is one of the types [i32], [i64], [f32], [f64] and
    [anyfunc]; otherwise it throws [Unexpected type], with or without the
    names of the variables. *)
Theorem printFuncType_prints_known_types type printVars :
  (forallb known_type (params type ++ WasmParser.returns type) = true ->
   exists s, printFuncType (Some type) printVars = inr s) /\
  (forallb known_type (params type ++ WasmParser.returns type) = false ->
   printFuncType (Some type) printVars = inl UnexpectedType).
Proof.
  pose proof (printFuncType_known type printVars) as Hp. unfold prints in Hp.
  destruct (forallb known_type (params type ++ WasmParser.returns type)).
  - split; [done | discriminate].
  - split; [discriminate | done].
Qed.

Lemma printFuncType_prints_known_types_witness :
  printFuncType
    (Some {| form := Type_.func; params := [Type_.i32];
             WasmParser.returns := [Type_.func] |}) true
  = inl UnexpectedType.
Proof.
  apply (proj2 (printFuncType_prints_known_types
                  {| form := Type_.func; params := [Type_.i32];
                     WasmParser.returns := [Type_.func] |} true)).
  reflexivity.
Defined.

End TextFacts.
